(** * SylAgent memory subsystem: memory-service and reflection-service

    A shallow embedding of [MemoryService] and [ReflectionService]
    (lib/services/memory-service.ts, lib/services/reflection-service.ts) and
    the properties of the memory specification that they decide.

    Conventions of the embedding.
    - JavaScript [number]s are kept behind the interface [JsNumber].  It has
      two implementations: IEEE-754 binary64 ([float], Rocq's primitive
      floats: the operations of the JavaScript engine, executable) and the
      real numbers ([R]: exact arithmetic, used for the algebraic facts that
      hold up to rounding).  Every function of the services is written once,
      over the interface.
    - [Math.pow] is implementation-approximated in ECMAScript; the decay
      routine takes it as an argument.
    - [Date] values are integers (milliseconds since the epoch, [Z]).  A
      service call writes the one clock value [now] of its start in the dates
      that it stores.  The comparator of the gather phase reads the clock in
      each of the two operands of a subtraction, so that its result depends
      on the time between the two readings: it takes them from a clock
      [Date_now], which gives the value of each successive reading.
    - A string is a sequence of UTF-16 code units; the embedding has the
      strings with code units below 256, one character ([ascii]) per code
      unit, so that [length], [substring], [charCodeAt], [includes],
      [toLowerCase] and the white space of a regular expression are those of
      JavaScript on these strings.  (A letter above 127 is one character, not
      the bytes of its UTF-8 encoding.)
    - The Prisma client is a record of tables ([Db]); service methods are
      computations in a state-and-exception monad over it ([M]).  [await] is
      sequencing: one call runs at a time. *)

From Stdlib Require Import ZArith List String Ascii Bool Floats Reals Lra Lia
  DecimalString.
From stdpp Require Import base option list gmap strings sorting.

#[local] Set Warnings "-clear-no-such-hyp,-inexact-float".
Local Open Scope Z_scope.
Local Open Scope string_scope.

(** ** JavaScript numbers *)

Class JsNumber (N : Type) := {
  numZ : Z → N;              (* an integer literal or an integer-valued number *)
  nadd : N → N → N;
  nsub : N → N → N;
  nmul : N → N → N;
  ndiv : N → N → N;
  Math_sqrt : N → N;
  Math_min : N → N → N;
  nltb : N → N → bool;       (* a < b *)
  nleb : N → N → bool;       (* a <= b *)
  neqb : N → N → bool;       (* a === b *)
  truthy : N → bool          (* ToBoolean: false on 0 and NaN *)
}.

Declare Scope js_scope.
Delimit Scope js_scope with js.
Infix "+" := nadd : js_scope.
Infix "-" := nsub : js_scope.
Infix "*" := nmul : js_scope.
Infix "/" := ndiv : js_scope.
Infix "<?" := nltb : js_scope.
Infix "<=?" := nleb : js_scope.
Infix "=?" := neqb : js_scope.

Section Literals.
Context {N : Type} `{JsNumber N}.

(** The decimal literal [p/q], e.g. [0.05] is [lit 5 100]: the quotient of
    two exactly represented integers is the correctly rounded value. *)
Definition lit (p q : Z) : N := (numZ p / numZ q)%js.

Definition ngtb (a b : N) : bool := (b <? a)%js.
Definition nneb (a b : N) : bool := negb (a =? b)%js.   (* a !== b *)

(** [x || d] on a possibly missing number. *)
Definition orElse (x : option N) (d : N) : N :=
  match x with
  | Some v => if truthy v then v else d
  | None => d
  end.
End Literals.

Infix ">?" := ngtb (at level 70) : js_scope.

(** *** binary64 *)

Definition float_of_Z (z : Z) : float :=
  match z with
  | Z0 => PrimFloat.zero
  | Zpos _ => PrimFloat.of_uint63 (Uint63.of_Z z)
  | Zneg p => PrimFloat.opp (PrimFloat.of_uint63 (Uint63.of_Z (Zpos p)))
  end.

(** [Math.min]: NaN if an argument is NaN, and [-0] is below [+0]. *)
Definition float_min (x y : float) : float :=
  if PrimFloat.is_nan x || PrimFloat.is_nan y then PrimFloat.nan
  else if PrimFloat.ltb y x then y
  else if PrimFloat.ltb x y then x
  else if PrimFloat.get_sign x then x else y.

#[export] Instance float_number : JsNumber float := {|
  numZ := float_of_Z;
  nadd := PrimFloat.add;
  nsub := PrimFloat.sub;
  nmul := PrimFloat.mul;
  ndiv := PrimFloat.div;
  Math_sqrt := PrimFloat.sqrt;
  Math_min := float_min;
  nltb := PrimFloat.ltb;
  nleb := PrimFloat.leb;
  neqb := PrimFloat.eqb;
  truthy := λ x, negb (PrimFloat.is_zero x || PrimFloat.is_nan x)
|}.

(** *** exact real arithmetic *)

#[export] Instance Rlt_decision : RelDecision Rlt := Rlt_dec.
#[export] Instance Rle_decision : RelDecision Rle := Rle_dec.
#[export] Instance Req_decision : EqDecision R := Req_dec_T.

#[export] Instance real_number : JsNumber R := {|
  numZ := IZR;
  nadd := Rplus;
  nsub := Rminus;
  nmul := Rmult;
  ndiv := Rdiv;
  Math_sqrt := sqrt;
  Math_min := Rmin;
  nltb := λ x y, bool_decide (x < y)%R;
  nleb := λ x y, bool_decide (x <= y)%R;
  neqb := λ x y, bool_decide (x = y);
  truthy := λ x, negb (bool_decide (x = 0%R))
|}.

(** [Math.pow] over the reals, for a positive base. *)
Definition real_pow (x y : R) : R := Rpower x y.

(** ** Data model (lib/types.ts) *)

Abbreviation Id := string (only parsing).

Inductive BucketType := STM | LTM | RL | DOCS | MISC.

#[export] Instance BucketType_eq_dec : EqDecision BucketType.
Proof. solve_decision. Defined.

Record MemoryBucket := {
  bucket_id : Id;
  bucket_name : string;
  description : string;
  bucketType : BucketType
}.

Record MemoryChunk (N : Type) := {
  chunk_id : Id;
  bucketId : Id;
  text : string;
  embedding : list N;
  metaVector : list N;
  score : N;
  timestamp : Z;
  lastAccessed : Z;
  source : string;
  agentId : option string;
  metadata : list (string * string);
  accessCount : nat;
  decayRate : N
}.
Arguments chunk_id {N}. Arguments bucketId {N}. Arguments text {N}.
Arguments embedding {N}. Arguments metaVector {N}. Arguments score {N}.
Arguments timestamp {N}. Arguments lastAccessed {N}. Arguments source {N}.
Arguments agentId {N}. Arguments metadata {N}. Arguments accessCount {N}.
Arguments decayRate {N}.

Inductive LinkType := semantic | causal | temporal | associative.

(** A link id is a key of the link table, or the provisional
    [temp_<now>_<i>_<j>] of a candidate. *)
Inductive LinkId := StoredLink (k : string) | TempLink (now : Z) (i j : nat).

(** A value of a metadata object. *)
Inductive MetaValue (N : Type) := MetaText (s : string) | MetaNumber (x : N).
Arguments MetaText {N}. Arguments MetaNumber {N}.

Record MemoryLink (N : Type) := {
  link_id : LinkId;
  sourceId : Id;
  targetId : Id;
  strength : N;
  linkType : LinkType;
  link_metadata : list (string * MetaValue N);
  createdAt : Z
}.
Arguments link_id {N}. Arguments sourceId {N}. Arguments targetId {N}.
Arguments strength {N}. Arguments linkType {N}. Arguments link_metadata {N}.
Arguments createdAt {N}.

Record MemoryReflection := {
  reflection_chunkId : Id;
  reflection : string;
  reflection_insights : list string;
  conductorId : string
}.

(** MEMORY_DECAY_RATES *)
Section DecayRates.
Context {N : Type} `{JsNumber N}.
Definition MEMORY_DECAY_RATES_STM : N := lit 990 1000.
Definition MEMORY_DECAY_RATES_LTM : N := lit 999 1000.
Definition MEMORY_DECAY_RATES_RL : N := lit 995 1000.
End DecayRates.

(** ** The store and the monad of service calls *)

Record Db (N : Type) := {
  buckets : gmap string MemoryBucket;         (* memoryBucket, by unique name *)
  chunks : gmap string (MemoryChunk N);       (* memoryChunk, by id *)
  links : list (MemoryLink N);                (* memoryLink *)
  reflections : list MemoryReflection         (* memoryReflection *)
}.
Arguments buckets {N}. Arguments chunks {N}. Arguments links {N}.
Arguments reflections {N}.

Inductive Error :=
| NotFound (what : string)      (* a bucket or a record that does not exist *)
| Failure (msg : string).       (* any other exception *)

Inductive result (A : Type) := Ok (a : A) | Err (e : Error).
Arguments Ok {A}. Arguments Err {A}.

Definition M (N A : Type) : Type := Db N → result A * Db N.

Definition ret {N A} (a : A) : M N A := λ db, (Ok a, db).
Definition throw {N A} (e : Error) : M N A := λ db, (Err e, db).
Definition bind {N A B} (c : M N A) (k : A → M N B) : M N B :=
  λ db, match c db with
        | (Ok a, db') => k a db'
        | (Err e, db') => (Err e, db')
        end.
(** [try { c } catch (error) { h }] *)
Definition try_catch {N A} (c : M N A) (h : Error → M N A) : M N A :=
  λ db, match c db with
        | (Ok a, db') => (Ok a, db')
        | (Err e, db') => h e db'
        end.

Declare Scope monad_scope.
Delimit Scope monad_scope with monad.
Notation "x <- c1 ;; c2" := (bind c1 (λ x, c2))
  (at level 100, c1 at next level, right associativity) : monad_scope.
Notation "c1 ;;; c2" := (bind c1 (λ _, c2))
  (at level 100, right associativity) : monad_scope.

Fixpoint forEach {N A} (f : A → M N unit) (l : list A) : M N unit :=
  match l with
  | [] => ret tt
  | x :: l' => (f x ;;; forEach f l')%monad
  end.

(** ** Array.prototype.sort and the orderBy of a query

    Both are stable sorts.  [after x y] says that [x] has to come after [y];
    an element is put in front of the first later element it need not come
    after. *)
Section StableSort.
Context {A : Type} (after : A → A → bool).

Fixpoint stable_insert (x : A) (l : list A) : list A :=
  match l with
  | [] => [x]
  | y :: l' => if after x y then y :: stable_insert x l' else x :: l
  end.

Definition stable_sort (l : list A) : list A := foldr stable_insert [] l.
End StableSort.

(** [l.sort(compareFn)]: [a] comes after [b] when [compareFn(a, b) > 0]. *)
Definition Array_sort {N} `{JsNumber N} {A} (compareFn : A → A → N) : list A → list A :=
  stable_sort (λ a b, compareFn a b >? numZ 0)%js.

(** [l.sort(compareFn)] for a comparator that reads the clock, so that its
    answer depends on the moment of the call: [compareAt k] is the comparator
    at its call number [k] of the sort, counted from 0.  The order in which
    an engine calls the comparator is implementation-defined; the calls are
    here those of the insertion of [stable_sort].  When the answers do not
    depend on [k] the result is that of [Array_sort], as it is for every
    stable sort. *)
Section SortWithClock.
Context {N : Type} `{JsNumber N} {A : Type} (compareAt : nat → A → A → N).

Fixpoint insert_counting (x : A) (l : list A) (k : nat) : list A * nat :=
  match l with
  | [] => ([x], k)
  | y :: l' =>
      if (compareAt k x y >? numZ 0)%js
      then let '(l'', k') := insert_counting x l' (S k) in (y :: l'', k')
      else (x :: l, S k)
  end.

Fixpoint sort_counting (l : list A) (k : nat) : list A * nat :=
  match l with
  | [] => ([], k)
  | x :: l' => let '(sorted, k') := sort_counting l' k in insert_counting x sorted k'
  end.

Definition Array_sort_clocked (l : list A) : list A := (sort_counting l 0).1.
End SortWithClock.

(** ** The Prisma client *)
Section Prisma.
Context {N : Type} `{JsNumber N}.

Definition set_chunk_id (k : Id) (c : MemoryChunk N) : MemoryChunk N :=
  {| chunk_id := k; bucketId := bucketId c; text := text c;
     embedding := embedding c; metaVector := metaVector c; score := score c;
     timestamp := timestamp c; lastAccessed := lastAccessed c;
     source := source c; agentId := agentId c; metadata := metadata c;
     accessCount := accessCount c; decayRate := decayRate c |}.

(** [data: { score: s }] *)
Definition set_score (s : N) (c : MemoryChunk N) : MemoryChunk N :=
  {| chunk_id := chunk_id c; bucketId := bucketId c; text := text c;
     embedding := embedding c; metaVector := metaVector c; score := s;
     timestamp := timestamp c; lastAccessed := lastAccessed c;
     source := source c; agentId := agentId c; metadata := metadata c;
     accessCount := accessCount c; decayRate := decayRate c |}.

(** [data: { lastAccessed: new Date(), accessCount: { increment: 1 } }] *)
Definition touch (now : Z) (c : MemoryChunk N) : MemoryChunk N :=
  {| chunk_id := chunk_id c; bucketId := bucketId c; text := text c;
     embedding := embedding c; metaVector := metaVector c; score := score c;
     timestamp := timestamp c; lastAccessed := now;
     source := source c; agentId := agentId c; metadata := metadata c;
     accessCount := S (accessCount c); decayRate := decayRate c |}.

Definition set_chunks (m : gmap string (MemoryChunk N)) (db : Db N) : Db N :=
  {| buckets := buckets db; chunks := m; links := links db;
     reflections := reflections db |}.

(** The rows of the chunk table; the id column of a row is its key. *)
Definition chunkRows (db : Db N) : list (MemoryChunk N) :=
  (λ kc, set_chunk_id kc.1 kc.2) <$> map_to_list (chunks db).

(** [prisma.memoryBucket.findUnique({ where: { name } })] *)
Definition findUniqueBucket (name : string) : M N (option MemoryBucket) :=
  λ db, (Ok (buckets db !! name), db).

(** [prisma.memoryChunk.findMany()] *)
Definition findAllChunks : M N (list (MemoryChunk N)) :=
  λ db, (Ok (chunkRows db), db).

(** [a] comes after [b] under
    [orderBy: [{ score: 'desc' }, { lastAccessed: 'desc' }]]. *)
Definition orderedAfter (a b : MemoryChunk N) : bool :=
  (score a <? score b)%js
  || ((score a =? score b)%js && (lastAccessed a <? lastAccessed b)%Z).

(** [prisma.memoryChunk.findMany({ where: { bucketId, score: { gte } },
    orderBy: [...], take })] *)
Definition findManyChunks (bucket : Id) (minScore : N) (limit : nat)
  : M N (list (MemoryChunk N)) :=
  λ db, (Ok (take limit (stable_sort orderedAfter
               (filter (λ c, bucketId c = bucket ∧ (minScore <=? score c)%js)
                       (chunkRows db)))), db).

(** [prisma.memoryChunk.update({ where: { id }, data })]: rejects when the
    record does not exist. *)
Definition updateChunk (k : Id) (data : MemoryChunk N → MemoryChunk N) : M N unit :=
  λ db, match chunks db !! k with
        | Some c => (Ok tt, set_chunks (<[k := data c]> (chunks db)) db)
        | None => (Err (NotFound "Record to update not found"), db)
        end.

(** [prisma.memoryChunk.delete({ where: { id } })] *)
Definition deleteChunk (k : Id) : M N unit :=
  λ db, match chunks db !! k with
        | Some _ => (Ok tt, set_chunks (delete k (chunks db)) db)
        | None => (Err (NotFound "Record to delete does not exist"), db)
        end.

(** Modelled from the spec: the column defaults of the memoryChunk table
    (the Prisma schema is not among the sources).  A created chunk has
    [score = 1.0], [accessCount = 0] and [lastAccessed = timestamp = now];
    its id is a key that the table does not hold yet. *)
Definition createChunk (now : Z) (bucket : Id) (text : string)
    (embedding metaVector : list N) (source : string) (agentId : option string)
    (metadata : list (string * string)) (decayRate : N) : M N (MemoryChunk N) :=
  λ db, let k := fresh (dom (chunks db)) in
        let c := {| chunk_id := k; bucketId := bucket; text := text;
                    embedding := embedding; metaVector := metaVector;
                    score := numZ 1; timestamp := now; lastAccessed := now;
                    source := source; agentId := agentId; metadata := metadata;
                    accessCount := 0; decayRate := decayRate |} in
        (Ok c, set_chunks (<[k := c]> (chunks db)) db).

(** [prisma.memoryLink.findFirst({ where: { OR: [{ sourceId: a, targetId: b },
    { sourceId: b, targetId: a }] } })] *)
Definition findFirstLinkBetween (a b : Id) : M N (option (MemoryLink N)) :=
  λ db, (Ok (List.find (λ l, (String.eqb (sourceId l) a && String.eqb (targetId l) b)
                            || (String.eqb (sourceId l) b && String.eqb (targetId l) a))
                       (links db)), db).
End Prisma.

(** ** MemoryService *)
Section MemoryService.
Context {N : Type} `{JsNumber N}.
Local Open Scope monad_scope.

(** [`Memory bucket ${bucketName} not found`] *)
Definition bucketNotFound (bucketName : string) : Error :=
  NotFound ("Memory bucket " ++ bucketName ++ " not found").

Definition addMemoryChunk (now : Z) (bucketName text : string)
    (embedding metaVector : list N) (source : string) (agentId : option string)
    (metadata : list (string * string)) : M N (MemoryChunk N) :=
  bucket <- findUniqueBucket bucketName ;;
  match bucket with
  | None => throw (bucketNotFound bucketName)
  | Some bucket =>
      let decayRate :=
        match bucketType bucket with
        | STM => MEMORY_DECAY_RATES_STM
        | LTM => MEMORY_DECAY_RATES_LTM
        | _ => MEMORY_DECAY_RATES_RL
        end in
      createChunk now (bucket_id bucket) text embedding metaVector source
                  agentId metadata decayRate
  end.

(** The loop of [calculateCosineSimilarity]: dotProduct, norm1, norm2. *)
Fixpoint cosineSums (vec1 vec2 : list N) (acc : N * N * N) : N * N * N :=
  match vec1, vec2 with
  | x :: vec1', y :: vec2' =>
      let '(dotProduct, norm1, norm2) := acc in
      cosineSums vec1' vec2' (dotProduct + x * y, norm1 + x * x, norm2 + y * y)%js
  | _, _ => acc
  end.

Definition calculateCosineSimilarity (vec1 vec2 : list N) : N :=
  if negb (length vec1 =? length vec2)%nat then numZ 0
  else
    let '(dotProduct, norm1, norm2) :=
      cosineSums vec1 vec2 (numZ 0, numZ 0, numZ 0) in
    if (norm1 =? numZ 0)%js || (norm2 =? numZ 0)%js then numZ 0
    else (dotProduct / (Math_sqrt norm1 * Math_sqrt norm2))%js.

(** A returned chunk, with the [similarity] property when it was attached. *)
Record Retrieved := {
  chunk : MemoryChunk N;
  similarity : option N
}.

(** [chunk] as it was read, and [{ ...chunk, similarity }]. *)
Definition plain (c : MemoryChunk N) : Retrieved := {| chunk := c; similarity := None |}.

Definition scored (q : list N) (c : MemoryChunk N) : Retrieved :=
  {| chunk := c; similarity := Some (calculateCosineSimilarity q (embedding c)) |}.

(** [(b.similarity || 0) - (a.similarity || 0)] *)
Definition similarityCompare (a b : Retrieved) : N :=
  (orElse (similarity b) (numZ 0) - orElse (similarity a) (numZ 0))%js.

Definition default_limit : nat := 10.
Definition default_minScore : N := lit 1 10.

Definition getMemoriesFromBucket (now : Z) (bucketName : string)
    (queryEmbedding : option (list N)) (limit : nat) (minScore : N)
  : M N (list Retrieved) :=
  bucket <- findUniqueBucket bucketName ;;
  match bucket with
  | None => throw (bucketNotFound bucketName)
  | Some bucket =>
      found <- findManyChunks (bucket_id bucket) minScore limit ;;
      let chunks :=
        match queryEmbedding with
        | Some q =>
            if (0 <? length q)%nat
            then Array_sort similarityCompare (scored q <$> found)
            else plain <$> found
        | None => plain <$> found
        end in
      forEach (λ r, updateChunk (chunk_id (chunk r)) (touch now)) chunks ;;;
      ret chunks
  end.

Record DecayCounts := {
  processed : nat;
  decayed : nat;
  deleted : nat
}.

Section Decay.
Variable Math_pow : N → N → N.

(** [chunk.score * Math.pow(chunk.decayRate, hoursSinceAccess)] *)
Definition decayedScore (now : Z) (chunk : MemoryChunk N) : N :=
  let timeSinceLastAccess := numZ (now - lastAccessed chunk) in
  let hoursSinceAccess := (timeSinceLastAccess / (numZ 1000 * numZ 60 * numZ 60))%js in
  (score chunk * Math_pow (decayRate chunk) hoursSinceAccess)%js.

Fixpoint decayLoop (now : Z) (chunks : list (MemoryChunk N)) (cnt : DecayCounts)
  : M N DecayCounts :=
  match chunks with
  | [] => ret cnt
  | chunk :: rest =>
      let newScore := decayedScore now chunk in
      if (newScore <? lit 5 100)%js then
        deleteChunk (chunk_id chunk) ;;;
        decayLoop now rest
          {| processed := S (processed cnt); decayed := decayed cnt;
             deleted := S (deleted cnt) |}
      else if nneb newScore (score chunk) then
        updateChunk (chunk_id chunk) (set_score newScore) ;;;
        decayLoop now rest
          {| processed := S (processed cnt); decayed := S (decayed cnt);
             deleted := deleted cnt |}
      else
        decayLoop now rest
          {| processed := S (processed cnt); decayed := decayed cnt;
             deleted := deleted cnt |}
  end.

Definition applyMemoryDecay (now : Z) : M N DecayCounts :=
  chunks <- findAllChunks ;;
  decayLoop now chunks {| processed := 0; decayed := 0; deleted := 0 |}.
End Decay.

(** [data: { score: { increment: boost }, lastAccessed: new Date(),
    accessCount: { increment: 1 } }] *)
Definition boosted (now : Z) (boost : N) (c : MemoryChunk N) : MemoryChunk N :=
  touch now (set_score (score c + boost)%js c).

Definition default_boost : N := lit 1 10.

Definition boostMemory (now : Z) (chunkId : Id) (boost : N) : M N unit :=
  updateChunk chunkId (boosted now boost).

(** The loop of [searchMemories] over [bucketsToSearch]. *)
Fixpoint searchLoop (now : Z) (bucketsToSearch : list string)
    (queryEmbedding : list N) (perBucket : nat) (allResults : list Retrieved)
  : M N (list Retrieved) :=
  match bucketsToSearch with
  | [] => ret allResults
  | bucketName :: rest =>
      results <- getMemoriesFromBucket now bucketName (Some queryEmbedding)
                   perBucket default_minScore ;;
      searchLoop now rest queryEmbedding perBucket (allResults ++ results)
  end.

Definition MEMORY_BUCKET_NAMES : list string :=
  ["semantic_stm"; "semantic_ltm"; "procedural_stm"; "procedural_ltm";
   "episodic_stm"; "episodic_ltm"; "diary_rl"; "calendar_rl"; "api_docs";
   "odds_ends"].

(** [a.similarity || a.score] *)
Definition rankKey (a : Retrieved) : N := orElse (similarity a) (score (chunk a)).

(** [Math.ceil(limit / bucketsToSearch.length)], on naturals. *)
Definition ceilDiv (a b : nat) : nat := ((a + b - 1) / b)%nat.

Definition searchMemories (now : Z) (query : string) (queryEmbedding : list N)
    (buckets : option (list string)) (limit : nat) : M N (list Retrieved) :=
  let bucketsToSearch := default MEMORY_BUCKET_NAMES buckets in
  allResults <- searchLoop now bucketsToSearch queryEmbedding
                  (ceilDiv limit (length bucketsToSearch)) [] ;;
  ret (take limit (Array_sort (λ a b, rankKey b - rankKey a)%js allResults)).
End MemoryService.

(** ** ReflectionService *)

(** *** Text *)

(** [toLowerCase] on a code unit below 256: the letters A-Z (65-90), and
    of the letters above 127 those from U+00C0 to U+00D6 and from U+00D8 to
    U+00DE, have their lower-case form 32 above; every other code unit is
    its own lower-case form (U+00D7 is the multiplication sign, and U+00B5,
    U+00DF and U+00FF are lower-case letters). *)
Definition lower_unit (c : ascii) : ascii :=
  let n := nat_of_ascii c in
  if ((65 <=? n)%nat && (n <=? 90)%nat)
     || ((192 <=? n)%nat && (n <=? 214)%nat)
     || ((216 <=? n)%nat && (n <=? 222)%nat)
  then ascii_of_nat (n + 32) else c.

(** No code unit below 256 has a lower-case form of several code units or
    one that depends on its neighbours: the string is mapped unit by
    unit. *)
Fixpoint toLowerCase (s : string) : string :=
  match s with
  | EmptyString => EmptyString
  | String c s' => String (lower_unit c) (toLowerCase s')
  end.

(** The class [\s] below 256: tab, line feed, vertical tab, form feed,
    carriage return (9-13), space (32) and the no-break space (160). *)
Definition is_whitespace (c : ascii) : bool :=
  let n := nat_of_ascii c in
  ((9 <=? n)%nat && (n <=? 13)%nat) || (n =? 32)%nat || (n =? 160)%nat.

(** [s.split(/\s+/)]: the pieces between the maximal runs of white space; a
    run at either end leaves an empty piece there, and a text without white
    space is one piece. *)
Fixpoint splitLoop (inRun : bool) (piece : string) (s : string) : list string :=
  match s with
  | EmptyString => [piece]
  | String c s' =>
      if is_whitespace c then
        if inRun then splitLoop true piece s'
        else piece :: splitLoop true EmptyString s'
      else splitLoop false (piece ++ String c EmptyString) s'
  end.

Definition split_whitespace (s : string) : list string := splitLoop false EmptyString s.

Example split_plain : split_whitespace "the cat  sat" = ["the"; "cat"; "sat"].
Proof. reflexivity. Qed.
Example split_ends : split_whitespace " a " = [""; "a"; ""].
Proof. reflexivity. Qed.
Example split_empty : split_whitespace "" = [""].
Proof. reflexivity. Qed.

Inductive ReflectionDepth := shallow | medium | deep.

Record ReflectionRequest := {
  triggerType : string;
  memoryScope : list string;
  reflectionDepth : ReflectionDepth;
  focusAreas : list string
}.

Record ReflectionResult (N : Type) := {
  insights : list string;
  newConnections : list (MemoryLink N);
  recommendations : list string;
  confidenceScore : N
}.
Arguments insights {N}. Arguments newConnections {N}.
Arguments recommendations {N}. Arguments confidenceScore {N}.

Section ReflectionService.
Context {N : Type} `{JsNumber N}.
Local Open Scope monad_scope.

(** The loop of [gatherMemoriesForReflection]. *)
Fixpoint gatherLoop (now : Z) (buckets : list string) (allMemories : list (Retrieved (N := N)))
  : M N (list Retrieved) :=
  match buckets with
  | [] => ret allMemories
  | bucket :: rest =>
      memories <- getMemoriesFromBucket now bucket None 50 default_minScore ;;
      gatherLoop now rest (allMemories ++ memories)
  end.

(** The comparator of the gather phase.  It calls [Date.now()] twice, once
    in each operand of the subtraction: [now1] is the value of the first
    call and [now2] that of the second. *)
Definition gatherCompare (now1 now2 : Z) (a b : Retrieved (N := N)) : N :=
  ((score (chunk b) * lit 7 10 + numZ (now1 - lastAccessed (chunk a)) * lit 3 10)
   - (score (chunk a) * lit 7 10 + numZ (now2 - lastAccessed (chunk b)) * lit 3 10))%js.

(** The comparator at its call number [k] of the sort: its two readings are
    the readings number [2k] and [2k + 1] of the clock. *)
Definition gatherCompareAt (Date_now : nat → Z) (k : nat) : Retrieved (N := N) → Retrieved → N :=
  gatherCompare (Date_now (2 * k)%nat) (Date_now (2 * k + 1)%nat).

(** [Date_now] gives the successive readings of the clock during the sort;
    [now] is the time of the retrievals. *)
Definition gatherMemoriesForReflection (Date_now : nat → Z) (now : Z)
    (buckets : list string) : M N (list Retrieved) :=
  allMemories <- gatherLoop now buckets [] ;;
  ret (take 100 (Array_sort_clocked (gatherCompareAt Date_now) allMemories)).

Definition calculateTextSimilarity (text1 text2 : string) : N :=
  let words1 : gset string := list_to_set (split_whitespace (toLowerCase text1)) in
  let words2 : gset string := list_to_set (split_whitespace (toLowerCase text2)) in
  let intersection : gset string := filter (λ x, x ∈ words2) words1 in
  let union : gset string := list_to_set (elements words1 ++ elements words2) in
  (numZ (Z.of_nat (size intersection)) / numZ (Z.of_nat (size union)))%js.

(** The candidate link that [discoverMemoryConnections] pushes for the
    positions [i] and [j]. *)
Definition candidateLink (now : Z) (i j : nat) (mi mj : Retrieved (N := N))
    (similarity : N) : MemoryLink N :=
  {| link_id := TempLink now i j;
     sourceId := chunk_id (chunk mi);
     targetId := chunk_id (chunk mj);
     strength := similarity;
     linkType := semantic;
     link_metadata := [("discoveredBy", MetaText "reflection_service");
                       ("similarity", MetaNumber similarity)];
     createdAt := now |}.

(** The body of the inner loop. *)
Definition connectionStep (now : Z) (memories : list (Retrieved (N := N))) (i j : nat)
    (newConnections : list (MemoryLink N)) : M N (list (MemoryLink N)) :=
  match memories !! i, memories !! j with
  | Some mi, Some mj =>
      let similarity := calculateTextSimilarity (text (chunk mi)) (text (chunk mj)) in
      if (similarity >? lit 7 10)%js then
        existingLink <- findFirstLinkBetween (chunk_id (chunk mi)) (chunk_id (chunk mj)) ;;
        match existingLink with
        | None => ret (newConnections ++ [candidateLink now i j mi mj similarity])%list
        | Some _ => ret newConnections
        end
      else ret newConnections
  | _, _ => ret newConnections
  end.

(** [for (...) { acc = body(x, acc) }] over the successive values of the
    loop variable. *)
Fixpoint forLoop {S : Type} (body : nat → S → M N S) (range : list nat) (acc : S) : M N S :=
  match range with
  | [] => ret acc
  | x :: range' => acc' <- body x acc ;; forLoop body range' acc'
  end.

(** [i] runs over [0 .. length - 2]; [j] over [i + 1 ..], below [length]
    and below [i + 10]. *)
Definition discoverMemoryConnections (now : Z) (memories : list (Retrieved (N := N)))
  : M N (list (MemoryLink N)) :=
  let n := length memories in
  newConnections <-
    forLoop (λ i acc,
               forLoop (connectionStep now memories i)
                       (seq (i + 1) (Nat.min 9 (n - (i + 1)))) acc)
            (seq 0 (n - 1)) [] ;;
  ret (take 10 newConnections).

(** [insights.join('; ')] *)
Fixpoint join (sep : string) (l : list string) : string :=
  match l with
  | [] => ""
  | [x] => x
  | x :: l' => x ++ sep ++ join sep l'
  end.

Definition add_reflection (r : MemoryReflection) (db : Db N) : Db N :=
  {| buckets := buckets db; chunks := chunks db; links := links db;
     reflections := (reflections db ++ [r])%list |}.

(** [prisma.memoryReflection.create({ data })] *)
Definition createReflection (r : MemoryReflection) : M N unit :=
  λ db, (Ok tt, add_reflection r db).

Definition saveReflections (memories : list (Retrieved (N := N))) (insights : list string)
    (conductorId : string) : M N unit :=
  forEach (λ memory,
             createReflection
               {| reflection_chunkId := chunk_id (chunk memory);
                  reflection := join "; " insights;
                  reflection_insights := insights;
                  conductorId := conductorId |})
          (take 20 memories).

Definition calculateConfidenceScore (memories : list (Retrieved (N := N)))
    (insights : list string) : N :=
  let score0 := numZ 0 in
  let score1 :=
    (score0 + Math_min (numZ (Z.of_nat (length memories)) / numZ 50) (numZ 1) * lit 3 10)%js in
  let score2 :=
    (score1 + Math_min (numZ (Z.of_nat (length insights)) / numZ 10) (numZ 1) * lit 3 10)%js in
  let avgMemoryScore :=
    (foldl (λ sum m, sum + score (chunk m)) (numZ 0) memories
     / numZ (Z.of_nat (length memories)))%js in
  let score3 := (score2 + Math_min (avgMemoryScore / numZ 2) (numZ 1) * lit 4 10)%js in
  Math_min score3 (numZ 1).

(** The result of the [catch] branch. *)
Definition degradedResult : ReflectionResult N :=
  {| insights := ["Error generating reflection insights"];
     newConnections := [];
     recommendations := ["Unable to generate recommendations at this time"];
     confidenceScore := numZ 0 |}.

(** [generateReflection] over its five phases.  A phase is a computation
    that may fail: a rejected query or an exception of the phase. *)
Section Pipeline.
Variable gather : Z → list string → M N (list (Retrieved (N := N))).
Variable analyzeMemories :
  list (Retrieved (N := N)) → ReflectionDepth → list string → M N (list string).
Variable discover : Z → list (Retrieved (N := N)) → M N (list (MemoryLink N)).
Variable generateRecommendations :
  list string → list (Retrieved (N := N)) → M N (list string).
Variable save : list (Retrieved (N := N)) → list string → string → M N unit.

(** The body of the [try] block. *)
Definition reflectionPipeline (now : Z) (request : ReflectionRequest)
    (conductorId : string) : M N (ReflectionResult N) :=
  memories <- gather now (memoryScope request) ;;
  insights <- analyzeMemories memories (reflectionDepth request) (focusAreas request) ;;
  newConnections <- discover now memories ;;
  recommendations <- generateRecommendations insights memories ;;
  save memories insights conductorId ;;;
  ret {| insights := insights;
         newConnections := newConnections;
         recommendations := recommendations;
         confidenceScore := calculateConfidenceScore memories insights |}.

Definition generateReflectionWith (now : Z) (request : ReflectionRequest)
    (conductorId : string) : M N (ReflectionResult N) :=
  try_catch (reflectionPipeline now request conductorId)
            (λ error, ret degradedResult).
End Pipeline.

(** [generateReflection].  The text mining of [analyzeMemories] and
    [generateRecommendations] is not modelled: both are arguments. *)
Definition generateReflection (Date_now : nat → Z)
    (analyzeMemories :
       list (Retrieved (N := N)) → ReflectionDepth → list string → M N (list string))
    (generateRecommendations :
       list string → list (Retrieved (N := N)) → M N (list string)) :=
  generateReflectionWith (gatherMemoriesForReflection Date_now) analyzeMemories
    discoverMemoryConnections generateRecommendations saveReflections.
End ReflectionService.

(** ** Sequences of operations *)

(** The operations on the store. *)
Inductive Operation (N : Type) :=
| OpAddChunk (bucketName text : string) (embedding metaVector : list N)
             (source : string)
| OpBoost (chunkId : Id) (boost : N)
| OpApplyDecay.
Arguments OpAddChunk {N}. Arguments OpBoost {N}. Arguments OpApplyDecay {N}.

Section Operations.
Context {N : Type} `{JsNumber N}.
Variable Math_pow : N → N → N.

(** The store after an operation at time [now]; a rejected operation leaves
    it as the rejection left it. *)
Definition runOperation (db : Db N) (step : Z * Operation N) : Db N :=
  match step with
  | (now, OpAddChunk bucketName text embedding metaVector source) =>
      (addMemoryChunk now bucketName text embedding metaVector source None [] db).2
  | (now, OpBoost chunkId boost) => (boostMemory now chunkId boost db).2
  | (now, OpApplyDecay) => (applyMemoryDecay Math_pow now db).2
  end.

Definition runOperations (steps : list (Z * Operation N)) (db : Db N) : Db N :=
  foldl runOperation db steps.
End Operations.

(** ** Example data *)

(** A stand-in for [Math.pow] on binary64, for the examples: a power with a
    natural number as exponent, by repeated multiplication.  Other exponents
    are outside it (NaN). *)
Definition float_exponent (y : float) : option BinNums.N :=
  match Prim2SF y with
  | S754_zero _ => Some 0%N
  | S754_finite false m e =>
      if (0 <=? e)%Z then Some (Npos m * 2 ^ Z.to_N e)%N
      else let d := (2 ^ Z.to_N (- e))%N in
           if (Npos m mod d =? 0)%N then Some (Npos m / d)%N else None
  | _ => None
  end.

Definition float_pow (x y : float) : float :=
  match float_exponent y with
  | Some n => N.iter n (PrimFloat.mul x) PrimFloat.one
  | None => PrimFloat.nan
  end.

Definition hours (h : Z) : Z := h * 3600000.

Section Scenario.
Context {N : Type} `{JsNumber N}.

Definition semantic_stm : MemoryBucket :=
  {| bucket_id := "bucket-1"; bucket_name := "semantic_stm";
     description := "Semantic Short-Term Memory"; bucketType := STM |}.

(** A chunk of [semantic_stm] as [addMemoryChunk] leaves it, with the
    given score, embedding and time of last access. *)
Definition stm_chunk (k : Id) (txt : string) (emb : list N) (s : N) (accessed : Z)
  : MemoryChunk N :=
  {| chunk_id := k; bucketId := "bucket-1"; text := txt; embedding := emb;
     metaVector := []; score := s; timestamp := 0; lastAccessed := accessed;
     source := "chat"; agentId := None; metadata := [];
     accessCount := 0; decayRate := MEMORY_DECAY_RATES_STM |}.

Definition empty_db : Db N :=
  {| buckets := {[ "semantic_stm" := semantic_stm ]}; chunks := ∅;
     links := []; reflections := [] |}.

(** Scenario A of the specification: one chunk of [semantic_stm] with score
    1.0, last accessed at time 0. *)
Definition scenario_chunk : MemoryChunk N := stm_chunk "c1" "note" [] (numZ 1) 0.

Definition scenario_db : Db N :=
  {| buckets := {[ "semantic_stm" := semantic_stm ]};
     chunks := {[ "c1" := scenario_chunk ]};
     links := []; reflections := [] |}.
End Scenario.

(** ** MemoryService: buckets, links and statistics *)

(** [s.includes(sub)] *)
Fixpoint includes (s sub : string) : bool :=
  String.prefix sub s
  || match s with
     | EmptyString => false
     | String _ s' => includes s' sub
     end.

(** [error.message] *)
Definition error_message (e : Error) : string :=
  match e with
  | NotFound what => what
  | Failure msg => msg
  end.

Record BucketConfig := {
  config_name : string;
  config_description : string;
  config_bucketType : BucketType
}.

Definition bucketConfigs : list BucketConfig :=
  [ {| config_name := "semantic_stm"; config_description := "Semantic Short-Term Memory";
       config_bucketType := STM |};
    {| config_name := "semantic_ltm"; config_description := "Semantic Long-Term Memory";
       config_bucketType := LTM |};
    {| config_name := "procedural_stm"; config_description := "Procedural Short-Term Memory";
       config_bucketType := STM |};
    {| config_name := "procedural_ltm"; config_description := "Procedural Long-Term Memory";
       config_bucketType := LTM |};
    {| config_name := "episodic_stm"; config_description := "Episodic Short-Term Memory";
       config_bucketType := STM |};
    {| config_name := "episodic_ltm"; config_description := "Episodic Long-Term Memory";
       config_bucketType := LTM |};
    {| config_name := "diary_rl"; config_description := "Diary Reinforcement Learning";
       config_bucketType := RL |};
    {| config_name := "calendar_rl"; config_description := "Calendar Reinforcement Learning";
       config_bucketType := RL |};
    {| config_name := "api_docs"; config_description := "API Documentation Memory";
       config_bucketType := DOCS |};
    {| config_name := "odds_ends"; config_description := "Miscellaneous Memory";
       config_bucketType := MISC |} ].

Section MemoryServiceStore.
Context {N : Type} `{JsNumber N}.
Local Open Scope monad_scope.

Definition set_buckets (m : gmap string MemoryBucket) (db : Db N) : Db N :=
  {| buckets := m; chunks := chunks db; links := links db;
     reflections := reflections db |}.

Definition set_links (l : list (MemoryLink N)) (db : Db N) : Db N :=
  {| buckets := buckets db; chunks := chunks db; links := l;
     reflections := reflections db |}.

(** The ids of the stored buckets. *)
Definition bucketIds (db : Db N) : gset string :=
  list_to_set (bucket_id <$> (map_to_list (buckets db)).*2).

(** Modelled from the spec: a bucket has a generated id and a unique name
    (the Prisma schema is not among the sources).  [memoryBucket.create]
    rejects a name that the table holds, and gives the new bucket an id
    that no bucket has. *)
Definition createBucket (config : BucketConfig) : M N MemoryBucket :=
  λ db, match buckets db !! config_name config with
        | Some _ =>
            (Err (Failure "Unique constraint failed on the fields: (`name`)"), db)
        | None =>
            let b := {| bucket_id := fresh (bucketIds db);
                        bucket_name := config_name config;
                        description := config_description config;
                        bucketType := config_bucketType config |} in
            (Ok b, set_buckets (<[config_name config := b]> (buckets db)) db)
        end.

(** The body of the loop of [initializeMemoryBuckets]; [continue] and the
    end of the body both go on with the next configuration. *)
Definition initializeBucket (config : BucketConfig) : M N unit :=
  try_catch
    (existingBucket <- findUniqueBucket (config_name config) ;;
     match existingBucket with
     | None => createBucket config ;;; ret tt
     | Some _ => ret tt
     end)
    (λ error,
       if includes (error_message error) "Unique constraint" then ret tt
       else throw error).

Definition initializeMemoryBuckets : M N unit :=
  forEach initializeBucket bucketConfigs.

(** The keys of the stored links. *)
Definition linkKeys (db : Db N) : gset string :=
  list_to_set (omap (λ l, match link_id l with
                          | StoredLink k => Some k
                          | TempLink _ _ _ => None
                          end) (links db)).

(** Modelled from the spec: [memoryLink.create] is an unconditional insert
    (the two ids are back-references that are not checked); the link gets
    a generated id and the time of its creation. *)
Definition createLink (now : Z) (source target : Id) (type : LinkType)
    (strength : N) (metadata : list (string * MetaValue N)) : M N (MemoryLink N) :=
  λ db, let l := {| link_id := StoredLink (fresh (linkKeys db));
                    sourceId := source; targetId := target;
                    strength := strength; linkType := type;
                    link_metadata := metadata; createdAt := now |} in
        (Ok l, set_links (links db ++ [l]) db).

Definition default_strength : N := numZ 1.

Definition createMemoryLink (now : Z) (source target : Id) (type : LinkType)
    (strength : N) (metadata : list (string * MetaValue N)) : M N (MemoryLink N) :=
  createLink now source target type strength metadata.

(** A link with the chunk at its other end, as [include: { target: true }]
    and [include: { source: true }] attach it.  Modelled from the spec: a
    chunk that is gone is a miss. *)
Record IncludedLink := {
  included_link : MemoryLink N;
  included : option (MemoryChunk N)
}.

Record MemoryLinks := {
  outgoing : list IncludedLink;
  incoming : list IncludedLink
}.

Definition findChunk (db : Db N) (k : Id) : option (MemoryChunk N) :=
  set_chunk_id k <$> chunks db !! k.

Definition getMemoryLinks (chunkId : Id) : M N MemoryLinks :=
  λ db, (Ok {| outgoing :=
                 (λ l, {| included_link := l; included := findChunk db (targetId l) |})
                 <$> filter (λ l, sourceId l = chunkId) (links db);
               incoming :=
                 (λ l, {| included_link := l; included := findChunk db (sourceId l) |})
                 <$> filter (λ l, targetId l = chunkId) (links db) |}, db).

Record BucketStats := {
  stats_name : string;
  stats_type : BucketType;
  chunkCount : nat
}.

Record MemoryStats := {
  totalChunks : nat;
  totalLinks : nat;
  totalReflections : nat;
  stats_buckets : list BucketStats
}.

(** [memoryBucket.findMany({ include: { _count: { select: { chunks: true } } } })]
    counts, for a bucket, the chunks whose [bucketId] is its id; the name
    column of a row is its key. *)
Definition getMemoryStats : M N MemoryStats :=
  λ db, (Ok {| totalChunks := size (chunks db);
               totalLinks := length (links db);
               totalReflections := length (reflections db);
               stats_buckets :=
                 (λ row : string * MemoryBucket,
                    {| stats_name := row.1;
                       stats_type := bucketType row.2;
                       chunkCount :=
                         length (filter (λ c, bucketId c = bucket_id row.2)
                                        (chunkRows db)) |})
                 <$> map_to_list (buckets db) |}, db).
End MemoryServiceStore.

(** ** ReflectionService: analysis and recommendations *)

(** [`${n}`] for a count: its decimal digits. *)
Definition Number_toString (n : nat) : string :=
  NilEmpty.string_of_uint (Nat.to_uint n).

(** The quotation mark (code 34) in a template. *)
Definition double_quote : string := String (ascii_of_nat 34) EmptyString.

(** [array.push(x)] *)
Definition push {A : Type} (array : list A) (x : A) : list A := (array ++ [x])%list.

(** An element of [accessPatterns]. *)
Record AccessPattern := {
  pattern_text : string;
  pattern_accessCount : nat
}.

Section ReflectionAnalysis.
Context {N : Type} `{JsNumber N}.
Local Open Scope monad_scope.

Definition analyzeTemporalPatterns (now : Z) (memories : list (Retrieved (N := N)))
  : list string :=
  let insights := [] in
  let day := 24 * 60 * 60 * 1000 in
  let week := 7 * day in
  let recentMemories := filter (λ m, now - timestamp (chunk m) < day) memories in
  let weekMemories := filter (λ m, now - timestamp (chunk m) < week) memories in
  let insights :=
    if (0 <? length recentMemories)%nat
    then push insights (Number_toString (length recentMemories)
                        ++ " new memories formed in the last 24 hours")
    else insights in
  let insights :=
    if (length recentMemories <? length weekMemories)%nat
    then push insights
           ("Memory formation has been consistent over the past week ("
            ++ Number_toString (length weekMemories - length recentMemories)
            ++ " additional memories)")
    else insights in
  insights.

(** The reducer of [performDeepAnalysis]; [accessCount || 0] is the count. *)
Definition accessPatternStep (acc : list AccessPattern) (memory : Retrieved (N := N))
  : list AccessPattern :=
  let accessFreq := accessCount (chunk memory) in
  if (1 <? accessFreq)%nat
  then push acc {| pattern_text := substring 0 50 (text (chunk memory));
                   pattern_accessCount := accessFreq |}
  else acc.

(** [accessPatterns.sort((a, b) => b.accessCount - a.accessCount)]: the
    counts are integers, [a] comes after [b] when [b.accessCount] is
    higher. *)
Definition sortByAccessCount : list AccessPattern → list AccessPattern :=
  stable_sort (λ a b, (pattern_accessCount a <? pattern_accessCount b)%nat).

Definition performDeepAnalysis (memories : list (Retrieved (N := N))) : list string :=
  let insights := [] in
  let accessPatterns := foldl accessPatternStep [] memories in
  let insights :=
    match sortByAccessCount accessPatterns with
    | mostAccessed :: _ =>
        push insights
          ("Most frequently accessed memory: " ++ double_quote
           ++ pattern_text mostAccessed ++ "..." ++ double_quote ++ " ("
           ++ Number_toString (pattern_accessCount mostAccessed) ++ " accesses)")
    | [] => insights
    end in
  let resistantMemories :=
    filter (λ m, (score (chunk m) >? lit 15 10)%js && (2 <? accessCount (chunk m))%nat)
           memories in
  let insights :=
    if (0 <? length resistantMemories)%nat
    then push insights
           (Number_toString (length resistantMemories)
            ++ " memories show strong resistance to decay, indicating high importance")
    else insights in
  insights.

(** [analyzeMemories].  The three analyses that count in a JavaScript
    object keyed by text of the memories ([identifyPatterns],
    [analyzeTopicClusters]) or round a quotient
    ([performMetacognitiveAnalysis]) are arguments. *)
Section AnalyzeMemories.
Variable identifyPatterns : list (Retrieved (N := N)) → list string.
Variable analyzeTopicClusters : list (Retrieved (N := N)) → list string → list string.
Variable performMetacognitiveAnalysis : list (Retrieved (N := N)) → list string.

Definition analyzeMemories (now : Z) (memories : list (Retrieved (N := N)))
    (depth : ReflectionDepth) (focusAreas : list string) : M N (list string) :=
  let insights := [] in
  let patterns := identifyPatterns memories in
  let insights := (insights ++ patterns)%list in
  let temporalInsights := analyzeTemporalPatterns now memories in
  let insights := (insights ++ temporalInsights)%list in
  let topicInsights := analyzeTopicClusters memories focusAreas in
  let insights := (insights ++ topicInsights)%list in
  let insights :=
    match depth with
    | medium | deep => (insights ++ performDeepAnalysis memories)%list
    | shallow => insights
    end in
  let insights :=
    match depth with
    | deep => (insights ++ performMetacognitiveAnalysis memories)%list
    | _ => insights
    end in
  ret (take (match depth with shallow => 5 | medium => 10 | deep => 15 end) insights).
End AnalyzeMemories.

Definition generateRecommendations (insights : list string)
    (memories : list (Retrieved (N := N))) : M N (list string) :=
  let recommendations := [] in
  let lowScoreMemories := filter (λ m, (score (chunk m) <? lit 5 10)%js) memories in
  let recommendations :=
    if (10 <? length lowScoreMemories)%nat
    then push recommendations
           "Consider reviewing and reinforcing important memories that are showing signs of decay"
    else recommendations in
  let learningMemories :=
    filter (λ m, includes (text (chunk m)) "learn" || includes (text (chunk m)) "study"
                 || includes (text (chunk m)) "practice") memories in
  let recommendations :=
    if (0 <? length learningMemories)%nat
    then push recommendations
           "Continue reinforcing learning-related memories through active recall and application"
    else recommendations in
  let uniqueSources : gset string := list_to_set ((λ m, source (chunk m)) <$> memories) in
  let recommendations :=
    if (size uniqueSources <? 3)%nat
    then push recommendations
           "Consider diversifying information sources to build a more comprehensive knowledge base"
    else recommendations in
  ret (take 5 recommendations).
End ReflectionAnalysis.

(** ** LLMService: the embedding of a text (lib/services/llm-service.ts) *)

(** ToInt32: the signed 32-bit integer congruent to an integer. *)
Definition toInt32 (z : Z) : Z := (z + 2 ^ 31) mod 2 ^ 32 - 2 ^ 31.

(** [str.charCodeAt(i)] for the successive [i]: the code units of the text. *)
Definition charCodes (str : string) : list Z :=
  (λ c, Z.of_nat (nat_of_ascii c)) <$> list_ascii_of_string str.

(** The body of the loop of [simpleHash]:
    [hash = ((hash << 5) - hash) + char; hash = hash & hash]. *)
Definition hashStep (hash char : Z) : Z :=
  let hash := toInt32 (Z.shiftl (toInt32 hash) 5) - hash + char in
  Z.land (toInt32 hash) (toInt32 hash).

Definition simpleHash (str : string) : Z := foldl hashStep 0 (charCodes str).

Section Embedding.
Context {N : Type} `{JsNumber N}.
(** [Math.sin] and [Math.cos] are implementation-approximated. *)
Variable Math_sin Math_cos : N → N.

Definition normalizeVector (vector : list N) : list N :=
  let norm := Math_sqrt (foldl (λ sum val, sum + val * val)%js (numZ 0) vector) in
  if (norm >? numZ 0)%js then (λ val, val / norm)%js <$> vector else vector.

(** The component that the loop of [generateEmbedding] pushes for [i]. *)
Definition embeddingComponent (hash : Z) (i : nat) : N :=
  (Math_sin (numZ hash + numZ (Z.of_nat i)) * lit 5 10
   + Math_cos (numZ hash * numZ (Z.of_nat i)) * lit 5 10)%js.

Definition generateEmbedding (text : string) : list N :=
  let hash := simpleHash text in
  let embedding := embeddingComponent hash <$> seq 0 384 in
  normalizeVector embedding.
End Embedding.

Example simpleHash_abc : simpleHash "abc" = 96354.
Proof. reflexivity. Qed.

(** ** LLMService: rotation of the API keys *)

Record APIKeyHealth := {
  key : string;
  isHealthy : bool;
  lastUsed : Z;
  errorCount : nat;
  lastError : option string
}.

(** The two pools of keys and their rotation counters. *)
Record LLMKeys := {
  memoryKeys : list APIKeyHealth;
  subroutineKeys : list APIKeyHealth;
  memoryKeyIndex : nat;
  subroutineKeyIndex : nat
}.

(** The pools that the constructor builds from its lists of keys. *)
Definition newKey (k : string) : APIKeyHealth :=
  {| key := k; isHealthy := true; lastUsed := 0; errorCount := 0; lastError := None |}.

Definition newKeys (memoryApiKeys subroutineApiKeys : list string) : LLMKeys :=
  {| memoryKeys := newKey <$> memoryApiKeys;
     subroutineKeys := newKey <$> subroutineApiKeys;
     memoryKeyIndex := 0; subroutineKeyIndex := 0 |}.

(** [k.isHealthy = true; k.errorCount = 0] *)
Definition resetKey (k : APIKeyHealth) : APIKeyHealth :=
  {| key := key k; isHealthy := true; lastUsed := lastUsed k; errorCount := 0;
     lastError := lastError k |}.

(** [key.lastUsed = Date.now()] *)
Definition usedKey (now : Z) (k : APIKeyHealth) : APIKeyHealth :=
  {| key := key k; isHealthy := isHealthy k; lastUsed := now;
     errorCount := errorCount k; lastError := lastError k |}.

(** The elements of [healthyKeys] are the objects of the pool: the
    assignment to [lastUsed] of the [n]-th healthy key is seen in the
    pool. *)
Fixpoint useHealthy (n : nat) (now : Z) (keys : list APIKeyHealth) : list APIKeyHealth :=
  match keys with
  | [] => []
  | k :: rest =>
      if isHealthy k then
        match n with
        | O => usedKey now k :: rest
        | S n' => k :: useHealthy n' now rest
        end
      else k :: useHealthy n now rest
  end.

(** The body that [getNextMemoryKey] and [getNextSubroutineKey] share, on a
    pool and its counter.  Reading [.key] of a missing first element is a
    TypeError. *)
Definition getNextKey (now : Z) (keys : list APIKeyHealth) (index : nat)
  : result string * (list APIKeyHealth * nat) :=
  let healthyKeys := filter (λ k, isHealthy k) keys in
  if (length healthyKeys =? 0)%nat then
    let keys := resetKey <$> keys in
    match keys !! 0%nat with
    | Some k => (Ok (key k), (keys, index))
    | None => (Err (Failure "TypeError: Cannot read properties of undefined"),
               (keys, index))
    end
  else
    let position := (index mod length healthyKeys)%nat in
    match healthyKeys !! position with
    | Some k => (Ok (key k), (useHealthy position now keys,
                              ((index + 1) mod length healthyKeys)%nat))
    | None => (Err (Failure "TypeError: Cannot read properties of undefined"),
               (keys, ((index + 1) mod length healthyKeys)%nat))
    end.

Definition getNextMemoryKey (now : Z) (s : LLMKeys) : result string * LLMKeys :=
  let '(r, (keys, index)) := getNextKey now (memoryKeys s) (memoryKeyIndex s) in
  (r, {| memoryKeys := keys; subroutineKeys := subroutineKeys s;
         memoryKeyIndex := index; subroutineKeyIndex := subroutineKeyIndex s |}).

Definition getNextSubroutineKey (now : Z) (s : LLMKeys) : result string * LLMKeys :=
  let '(r, (keys, index)) := getNextKey now (subroutineKeys s) (subroutineKeyIndex s) in
  (r, {| memoryKeys := memoryKeys s; subroutineKeys := keys;
         memoryKeyIndex := memoryKeyIndex s; subroutineKeyIndex := index |}).

(** [k.errorCount++; k.lastError = error;
     if (k.errorCount >= 3) k.isHealthy = false] *)
Definition markedKey (error : string) (k : APIKeyHealth) : APIKeyHealth :=
  {| key := key k;
     isHealthy := if (3 <=? S (errorCount k))%nat then false else isHealthy k;
     lastUsed := lastUsed k; errorCount := S (errorCount k);
     lastError := Some error |}.

(** The update of the key that [keys.find(k => k.key === apiKey)] finds. *)
Fixpoint markFound (apiKey error : string) (keys : list APIKeyHealth)
  : list APIKeyHealth :=
  match keys with
  | [] => []
  | k :: rest =>
      if String.eqb (key k) apiKey then markedKey error k :: rest
      else k :: markFound apiKey error rest
  end.

Definition markKeyUnhealthy (apiKey error : string) (s : LLMKeys) : LLMKeys :=
  {| memoryKeys := markFound apiKey error (memoryKeys s);
     subroutineKeys := markFound apiKey error (subroutineKeys s);
     memoryKeyIndex := memoryKeyIndex s;
     subroutineKeyIndex := subroutineKeyIndex s |}.

(** * Properties *)

(** ** Decay and eviction *)
Section DecayFacts.
Context {N : Type} `{JsNumber N}.
Variable Math_pow : N → N → N.
Variable now : Z.

(** The chunk is evicted by a decay run at [now]. *)
Definition evicted (c : MemoryChunk N) : Prop :=
  (decayedScore Math_pow now c <? lit 5 100)%js.

(** The chunk is kept by a decay run at [now], with another score. *)
Definition rescored (c : MemoryChunk N) : Prop :=
  ¬ evicted c ∧ nneb (decayedScore Math_pow now c) (score c).

(** What a decay run at [now] leaves of a stored chunk. *)
Definition decayOutcome (c : MemoryChunk N) : option (MemoryChunk N) :=
  let newScore := decayedScore Math_pow now c in
  if (newScore <? lit 5 100)%js then None
  else if nneb newScore (score c) then Some (set_score newScore c)
  else Some c.

Lemma decayedScore_set_chunk_id k c :
  decayedScore Math_pow now (set_chunk_id k c) = decayedScore Math_pow now c.
Proof. reflexivity. Qed.

(** Settles [evicted] and [rescored] of the chunk at hand from the tests of
    the loop, and the lookup of a key other than that of the chunk. *)
Local Ltac outcome_by tac := unfold rescored, evicted; tac; cbn; tauto.
Local Ltac other_key := repeat case_decide; try done; set_solver.

Lemma decayLoop_spec (l : list (MemoryChunk N)) :
  ∀ (db : Db N) (cnt : DecayCounts),
    NoDup (chunk_id <$> l) →
    (∀ c, c ∈ l → ∃ c', chunks db !! chunk_id c = Some c'
                         ∧ c = set_chunk_id (chunk_id c) c') →
    ∃ cnt' db',
      decayLoop Math_pow now l cnt db = (Ok cnt', db')
      ∧ processed cnt' = (processed cnt + length l)%nat
      ∧ decayed cnt' = (decayed cnt + length (filter rescored l))%nat
      ∧ deleted cnt' = (deleted cnt + length (filter evicted l))%nat
      ∧ buckets db' = buckets db ∧ links db' = links db
      ∧ reflections db' = reflections db
      ∧ ∀ k, chunks db' !! k =
             if decide (k ∈ chunk_id <$> l)
             then chunks db !! k ≫= decayOutcome
             else chunks db !! k.
Proof.
  induction l as [|chunk rest IH]; intros db cnt Hnd Hrows.
  - exists cnt, db. cbn. repeat split; lia.
  - rewrite fmap_cons in Hnd. apply NoDup_cons in Hnd as [Hfresh Hnd].
    destruct (Hrows chunk) as (c' & Hc' & Hrow); [left |].
    set (k0 := chunk_id chunk) in *.
    assert (Hrest : ∀ m : gmap string (MemoryChunk N), (∀ k, k ≠ k0 → m !! k = chunks db !! k) →
               ∀ c, c ∈ rest → ∃ c'', m !! chunk_id c = Some c''
                                      ∧ c = set_chunk_id (chunk_id c) c'').
    { intros m Hm c Hc. destruct (Hrows c) as (c'' & Hc'' & Hrow''); [by right |].
      exists c''. split; [| done]. rewrite Hm; [done |].
      intros Heq. apply Hfresh. rewrite <- Heq. by apply list_elem_of_fmap_2. }
    cbn [decayLoop].
    destruct (decayedScore Math_pow now chunk <? lit 5 100)%js eqn:Hlow.
    + (* newScore < 0.05: delete *)
      unfold bind at 1. unfold deleteChunk. fold k0. rewrite Hc'.
      edestruct (IH (set_chunks (delete k0 (chunks db)) db)) as
        (cnt' & db' & -> & Hp & Hd & He & Hb & Hl & Hr & Hlook); [done | |].
      { apply Hrest. intros k Hk. cbn. by rewrite lookup_delete_ne. }
      exists cnt', db'. split; [done |].
      rewrite Hp, Hd, He. cbn [processed decayed deleted length].
      rewrite (filter_cons_True evicted) by outcome_by ltac:(rewrite Hlow).
      rewrite (filter_cons_False rescored)
        by outcome_by ltac:(rewrite Hlow).
      cbn [length]. repeat split; try lia; try done.
      intros k. rewrite Hlook. cbn [chunks set_chunks].
      rewrite fmap_cons. fold k0.
      destruct (decide (k = k0)) as [-> | Hne].
      * rewrite decide_False by done. rewrite decide_True by left.
        rewrite lookup_delete_eq, Hc'. cbn.
        unfold decayOutcome. rewrite Hrow, decayedScore_set_chunk_id in Hlow.
        by rewrite Hlow.
      * rewrite lookup_delete_ne by done.
        other_key.
    + destruct (nneb (decayedScore Math_pow now chunk) (score chunk)) eqn:Hneq.
      * (* newScore !== score: update *)
        unfold bind at 1. unfold updateChunk. fold k0. rewrite Hc'.
        edestruct (IH (set_chunks
                         (<[k0 := set_score (decayedScore Math_pow now chunk) c']>
                            (chunks db)) db)) as
          (cnt' & db' & -> & Hp & Hd & He & Hb & Hl & Hr & Hlook); [done | |].
        { apply Hrest. intros k Hk. cbn. by rewrite lookup_insert_ne. }
        exists cnt', db'. split; [done |].
        rewrite Hp, Hd, He. cbn [processed decayed deleted length].
        rewrite (filter_cons_False evicted) by outcome_by ltac:(rewrite Hlow).
        rewrite (filter_cons_True rescored)
          by outcome_by ltac:(rewrite Hlow, Hneq).
        cbn [length]. repeat split; try lia; try done.
        intros k. rewrite Hlook. cbn [chunks set_chunks].
        rewrite fmap_cons. fold k0.
        destruct (decide (k = k0)) as [-> | Hne].
        -- rewrite decide_False by done. rewrite decide_True by left.
           rewrite lookup_insert_eq, Hc'. cbn.
           unfold decayOutcome.
           rewrite Hrow, decayedScore_set_chunk_id in Hlow, Hneq |- *.
           cbn in Hneq. by rewrite Hlow, Hneq.
        -- rewrite lookup_insert_ne by done.
           other_key.
      * (* the score is unchanged *)
        edestruct (IH db) as
          (cnt' & db' & -> & Hp & Hd & He & Hb & Hl & Hr & Hlook); [done | |].
        { apply Hrest. done. }
        exists cnt', db'. split; [done |].
        rewrite Hp, Hd, He. cbn [processed decayed deleted length].
        rewrite (filter_cons_False evicted) by outcome_by ltac:(rewrite Hlow).
        rewrite (filter_cons_False rescored)
          by outcome_by ltac:(rewrite Hlow, Hneq).
        repeat split; try lia; try done.
        intros k. rewrite Hlook.
        rewrite fmap_cons. fold k0.
        destruct (decide (k = k0)) as [-> | Hne].
        -- rewrite decide_False by done. rewrite decide_True by left.
           rewrite Hc'. cbn. unfold decayOutcome.
           rewrite Hrow, decayedScore_set_chunk_id in Hlow, Hneq.
           cbn in Hneq. by rewrite Hlow, Hneq.
        -- other_key.
Qed.
End DecayFacts.

Section DecayRun.
Context {N : Type} `{JsNumber N}.
Variable Math_pow : N → N → N.
Variable now : Z.

Lemma chunkRows_ids (db : Db N) :
  chunk_id <$> chunkRows db = (map_to_list (chunks db)).*1.
Proof.
  unfold chunkRows. rewrite <- list_fmap_compose. by apply list_fmap_ext.
Qed.

Lemma elem_of_chunkRows (db : Db N) (c : MemoryChunk N) :
  c ∈ chunkRows db ↔
  ∃ c', chunks db !! chunk_id c = Some c' ∧ c = set_chunk_id (chunk_id c) c'.
Proof.
  unfold chunkRows. rewrite list_elem_of_fmap. split.
  - intros ([k c'] & -> & Hin). apply elem_of_map_to_list in Hin.
    exists c'. by cbn.
  - intros (c' & Hc' & Hrow). exists (chunk_id c, c'). split; [done |].
    by apply elem_of_map_to_list.
Qed.

(** A decay run always completes; it maps [decayOutcome] over the chunk
    table and leaves the other tables alone. *)
Lemma applyMemoryDecay_run (db : Db N) :
  ∃ cnt db',
    applyMemoryDecay Math_pow now db = (Ok cnt, db')
    ∧ processed cnt = size (chunks db)
    ∧ decayed cnt = length (filter (rescored Math_pow now) (chunkRows db))
    ∧ deleted cnt = length (filter (evicted Math_pow now) (chunkRows db))
    ∧ buckets db' = buckets db ∧ links db' = links db
    ∧ reflections db' = reflections db
    ∧ chunks db' = omap (decayOutcome Math_pow now) (chunks db).
Proof.
  unfold applyMemoryDecay, bind, findAllChunks.
  destruct (decayLoop_spec Math_pow now (chunkRows db) db
              {| processed := 0; decayed := 0; deleted := 0 |})
    as (cnt & db' & Hrun & Hp & Hd & He & Hb & Hl & Hr & Hlook).
  { rewrite chunkRows_ids. apply NoDup_fst_map_to_list. }
  { intros c. by rewrite elem_of_chunkRows. }
  exists cnt, db'. split; [done |].
  rewrite Hp, Hd, He. cbn [processed decayed deleted].
  unfold chunkRows at 1. rewrite length_fmap, length_map_to_list.
  repeat split; try done.
  apply map_eq. intros k. rewrite Hlook, lookup_omap.
  case_decide as Hk; [done |].
  destruct (chunks db !! k) as [c |] eqn:Hc; [| done].
  exfalso. apply Hk. rewrite chunkRows_ids.
  apply list_elem_of_fmap. exists (k, c). split; [done |].
  by apply elem_of_map_to_list.
Qed.
End DecayRun.

(** The fields of a chunk that no update of the services writes: all but
    [score], [lastAccessed] and [accessCount]. *)
Definition sameContent {N : Type} (c c' : MemoryChunk N) : Prop :=
  chunk_id c' = chunk_id c ∧ bucketId c' = bucketId c ∧ text c' = text c
  ∧ embedding c' = embedding c ∧ metaVector c' = metaVector c
  ∧ timestamp c' = timestamp c ∧ source c' = source c ∧ agentId c' = agentId c
  ∧ metadata c' = metadata c ∧ decayRate c' = decayRate c.

Lemma sameContent_refl {N : Type} (c : MemoryChunk N) : sameContent c c.
Proof. by repeat split. Qed.

(** C1.  [applyMemoryDecay] completes on every store.  For every chunk of
    the store, with [newScore = score * decayRate ^ hoursSinceAccess] and
    [hoursSinceAccess] the time since its [lastAccessed]: if
    [newScore < 0.05] the chunk is deleted; otherwise it stays, its score is
    [newScore] whenever [newScore !== score] (and the score it had when they
    are equal), its [lastAccessed] and [accessCount] are what they were, and
    so is every other field.  No chunk appears, and the other tables are
    not written.  The counts are: processed, every chunk; decayed, the
    chunks kept with another score; deleted, the chunks with
    [newScore < 0.05]. *)
Theorem applyMemoryDecay_decays_or_evicts {N : Type} `{JsNumber N}
    (Math_pow : N → N → N) (now : Z) (db : Db N) :
  let newScore (c : MemoryChunk N) : N :=
    (score c * Math_pow (decayRate c)
                 (numZ (now - lastAccessed c) / (numZ 1000 * numZ 60 * numZ 60)))%js in
  ∃ cnt db',
    applyMemoryDecay Math_pow now db = (Ok cnt, db')
    ∧ (∀ k c, chunks db !! k = Some c →
         if (newScore c <? lit 5 100)%js
         then chunks db' !! k = None
         else ∃ c', chunks db' !! k = Some c'
                    ∧ score c' = (if nneb (newScore c) (score c)
                                  then newScore c else score c)
                    ∧ lastAccessed c' = lastAccessed c
                    ∧ accessCount c' = accessCount c
                    ∧ sameContent c c')
    ∧ (∀ k, chunks db !! k = None → chunks db' !! k = None)
    ∧ buckets db' = buckets db ∧ links db' = links db
    ∧ reflections db' = reflections db
    ∧ processed cnt = size (chunks db)
    ∧ decayed cnt =
        length (filter (λ c, ¬ (newScore c <? lit 5 100)%js
                             ∧ nneb (newScore c) (score c)) (chunkRows db))
    ∧ deleted cnt =
        length (filter (λ c, Is_true (newScore c <? lit 5 100)%js) (chunkRows db)).
Proof.
  intros newScore.
  destruct (applyMemoryDecay_run Math_pow now db)
    as (cnt & db' & Hrun & Hp & Hd & He & Hb & Hl & Hr & Hchunks).
  exists cnt, db'. split; [done |].
  split; [| split; [| split; [done | split; [done | split; [done | done]]]]].
  - intros k c Hc. rewrite Hchunks, lookup_omap, Hc. cbn.
    unfold decayOutcome. change (decayedScore Math_pow now c) with (newScore c).
    destruct (newScore c <? lit 5 100)%js; [done |].
    destruct (nneb (newScore c) (score c)).
    + exists (set_score (newScore c) c). cbn. by repeat split.
    + exists c. split; [done |]. split; [done |]. split; [done |]. split; [done |].
      apply sameContent_refl.
  - intros k Hk. by rewrite Hchunks, lookup_omap, Hk.
Qed.

(** Scenario A, on binary64: after 100 hours the chunk is kept with score
    about 0.366; Scenario B: after 1000 hours it is deleted. *)
Example scenario_A :
  ∃ db', applyMemoryDecay float_pow (hours 100) scenario_db
         = (Ok {| processed := 1; decayed := 1; deleted := 0 |}, db')
         ∧ score <$> chunks db' !! "c1" = Some 0.36603234127322926%float.
Proof. eexists. split; vm_compute; reflexivity. Qed.

Example scenario_B :
  ∃ db', applyMemoryDecay float_pow (hours 1000) scenario_db
         = (Ok {| processed := 1; decayed := 0; deleted := 1 |}, db')
         ∧ chunks db' !! "c1" = None.
Proof. eexists. split; vm_compute; reflexivity. Qed.

(** ** Running decay again *)

(** What a second run at the same clock value does to a chunk that the first
    run kept: [lastAccessed] is what it was, so the elapsed time and the
    factor are the same, and the factor is applied to the decayed score. *)
Lemma decay_rerun {N : Type} `{JsNumber N} (Math_pow : N → N → N) (now : Z)
    (db db1 : Db N) (cnt1 : DecayCounts) (k : Id) (c1 : MemoryChunk N) :
  applyMemoryDecay Math_pow now db = (Ok cnt1, db1) →
  chunks db1 !! k = Some c1 →
  ∃ c cnt2 db2,
    chunks db !! k = Some c
    ∧ decayOutcome Math_pow now c = Some c1
    ∧ decayedScore Math_pow now c1
      = (score c1 * Math_pow (decayRate c)
                      (numZ (now - lastAccessed c) / (numZ 1000 * numZ 60 * numZ 60)))%js
    ∧ applyMemoryDecay Math_pow now db1 = (Ok cnt2, db2)
    ∧ chunks db2 !! k = decayOutcome Math_pow now c1.
Proof.
  intros Hrun Hc1.
  destruct (applyMemoryDecay_run Math_pow now db)
    as (cnt & db' & Hrun' & _ & _ & _ & _ & _ & _ & Hchunks).
  rewrite Hrun in Hrun'. injection Hrun' as <- <-.
  destruct (applyMemoryDecay_run Math_pow now db1)
    as (cnt2 & db2 & Hrun2 & _ & _ & _ & _ & _ & _ & Hchunks2).
  rewrite Hchunks, lookup_omap in Hc1.
  destruct (chunks db !! k) as [c |] eqn:Hc; [| done]. cbn in Hc1.
  exists c, cnt2, db2. repeat split; try done.
  - unfold decayOutcome in Hc1. unfold decayedScore.
    by repeat case_match; simplify_eq.
  - rewrite Hchunks2, lookup_omap, Hchunks, lookup_omap, Hc. cbn. by rewrite Hc1.
Qed.

(** C2, as amended.  For a chunk that a first [applyMemoryDecay] run keeps, a
    second run at the same clock value multiplies the decayed score by the
    same factor [decayRate ^ hoursSinceAccess] again ([lastAccessed] is
    unchanged, so the elapsed time is the same): the chunk is deleted when
    that product is under 0.05 and otherwise holds the product (its score
    stays only when the product [===] the decayed score). *)
Theorem decay_rerun_compounds {N : Type} `{JsNumber N} (Math_pow : N → N → N)
    (now : Z) (db db1 : Db N) (cnt1 : DecayCounts) (k : Id) (c1 : MemoryChunk N) :
  applyMemoryDecay Math_pow now db = (Ok cnt1, db1) →
  chunks db1 !! k = Some c1 →
  ∃ c cnt2 db2,
    chunks db !! k = Some c
    ∧ lastAccessed c1 = lastAccessed c
    ∧ applyMemoryDecay Math_pow now db1 = (Ok cnt2, db2)
    ∧ let factor := Math_pow (decayRate c)
                      (numZ (now - lastAccessed c) / (numZ 1000 * numZ 60 * numZ 60))%js in
      score c1 = (if nneb (score c * factor)%js (score c)
                  then (score c * factor)%js else score c)
      ∧ chunks db2 !! k =
          if (score c1 * factor <? lit 5 100)%js then None
          else Some (if nneb (score c1 * factor)%js (score c1)
                     then set_score (score c1 * factor)%js c1 else c1).
Proof.
  intros Hrun Hc1.
  destruct (decay_rerun Math_pow now db db1 cnt1 k c1 Hrun Hc1)
    as (c & cnt2 & db2 & Hc & Hout & Hsame & Hrun2 & Hc2).
  exists c, cnt2, db2. split; [done |].
  assert (lastAccessed c1 = lastAccessed c ∧
          score c1 = (if nneb (decayedScore Math_pow now c) (score c)
                      then decayedScore Math_pow now c else score c)) as [Hla Hs].
  { unfold decayOutcome in Hout. by repeat case_match; simplify_eq. }
  repeat split; try done.
  rewrite Hc2. unfold decayOutcome. rewrite Hsame. by repeat case_match.
Qed.

Lemma decay_rerun_compounds_witness :
  let db1 := (applyMemoryDecay float_pow (hours 100) scenario_db).2 in
  let c1 := set_score 0.36603234127322926%float scenario_chunk in
  applyMemoryDecay float_pow (hours 100) scenario_db
    = (Ok {| processed := 1; decayed := 1; deleted := 0 |}, db1)
  ∧ chunks db1 !! "c1" = Some c1
  ∧ ∃ c cnt2 db2,
      chunks scenario_db !! "c1" = Some c
      ∧ lastAccessed c1 = lastAccessed c
      ∧ applyMemoryDecay float_pow (hours 100) db1 = (Ok cnt2, db2)
      ∧ let factor := float_pow (decayRate c)
                        (numZ (hours 100 - lastAccessed c)
                         / (numZ 1000 * numZ 60 * numZ 60))%js in
        score c1 = (if nneb (score c * factor)%js (score c)
                    then (score c * factor)%js else score c)
        ∧ chunks db2 !! "c1" =
            if (score c1 * factor <? lit 5 100)%js then None
            else Some (if nneb (score c1 * factor)%js (score c1)
                       then set_score (score c1 * factor)%js c1 else c1).
Proof.
  intros db1 c1.
  assert (H1 : applyMemoryDecay float_pow (hours 100) scenario_db
               = (Ok {| processed := 1; decayed := 1; deleted := 0 |}, db1))
    by (vm_compute; reflexivity).
  assert (H2 : chunks db1 !! "c1" = Some c1) by (vm_compute; reflexivity).
  split; [exact H1 |]. split; [exact H2 |].
  destruct (decay_rerun_compounds float_pow (hours 100) scenario_db db1 _ "c1" c1 H1 H2)
    as (c & cnt2 & db2 & Hc & Hla & Hrun2 & Hs & Hc2).
  exists c, cnt2, db2.
  exact (conj Hc (conj Hla (conj Hrun2 (conj Hs Hc2)))).
Defined.

(** Over the reals, a decay run at the very time of the last access of a
    chunk computes its score again: the factor is [decayRate ^ 0 = 1]. *)
Lemma decayedScore_no_elapsed (c : MemoryChunk R) :
  decayedScore real_pow (lastAccessed c) c = score c.
Proof.
  unfold decayedScore, real_pow, Rpower. cbn [numZ nmul ndiv real_number].
  rewrite Z.sub_diag. unfold Rdiv. rewrite !Rmult_0_l, exp_0. lra.
Qed.

(** Over the reals: 100 hours after its last access the chunk of Scenario A
    has the factor [0.99 ^ 100], between 0.36 and 0.37. *)
Lemma scenario_factor :
  real_pow (lit 990 1000)
           (numZ (hours 100 - 0) / (numZ 1000 * numZ 60 * numZ 60))%js
  = ((990 / 1000) ^ 100)%R.
Proof.
  unfold real_pow, lit.
  change (Rpower (990 / 1000) (360000000 / (1000 * 60 * 60)) = (990 / 1000) ^ 100)%R.
  replace (360000000 / (1000 * 60 * 60))%R with (INR 100).
  - apply Rpower_pow. lra.
  - rewrite INR_IZR_INZ. change (Z.of_nat 100) with 100%Z. lra.
Qed.

Lemma scenario_factor_bounds :
  (36 / 100 < (990 / 1000) ^ 100 < 37 / 100)%R.
Proof. split; lra. Qed.

(** Counterexample to C2 as stated (over the reals).  The chunk of Scenario A
    is kept by a decay run 100 hours after its last access, with score
    [0.99 ^ 100], about 0.366.  A second run at the same clock value, with
    [lastAccessed] unchanged, does not leave the score nearly as it is: it
    multiplies it by [0.99 ^ 100] again, to about 0.134, a drop of more
    than 0.2. *)
Lemma decay_rerun_not_negligible :
  ∃ cnt1 db1 cnt2 db2 c1 c2,
    applyMemoryDecay real_pow (hours 100) scenario_db = (Ok cnt1, db1)
    ∧ chunks db1 !! "c1" = Some c1
    ∧ lastAccessed c1 = lastAccessed (scenario_chunk (N := R))
    ∧ applyMemoryDecay real_pow (hours 100) db1 = (Ok cnt2, db2)
    ∧ chunks db2 !! "c1" = Some c2
    ∧ (score c1 - score c2 > 2 / 10)%R.
Proof.
  pose proof scenario_factor_bounds as [Hlo Hhi].
  set (p := ((990 / 1000) ^ 100)%R) in *.
  assert (Hs0 : decayedScore real_pow (hours 100) (scenario_chunk (N := R)) = p).
  { unfold decayedScore. cbn [score decayRate lastAccessed scenario_chunk stm_chunk].
    unfold MEMORY_DECAY_RATES_STM. rewrite scenario_factor. fold p. cbn. lra. }
  set (c1 := set_score p (scenario_chunk (N := R))).
  assert (Hout0 : decayOutcome real_pow (hours 100) scenario_chunk = Some c1).
  { unfold decayOutcome. rewrite Hs0. unfold nneb, lit. cbn.
    rewrite bool_decide_eq_false_2 by lra.
    rewrite bool_decide_eq_false_2 by lra. done. }
  assert (Hs1 : decayedScore real_pow (hours 100) c1 = (p * p)%R).
  { unfold decayedScore. cbn [score decayRate lastAccessed c1 set_score
                              scenario_chunk stm_chunk].
    unfold MEMORY_DECAY_RATES_STM. rewrite scenario_factor. fold p. done. }
  set (c2 := set_score (p * p)%R c1).
  assert (Hout1 : decayOutcome real_pow (hours 100) c1 = Some c2).
  { unfold decayOutcome. rewrite Hs1. unfold nneb, lit. cbn.
    rewrite bool_decide_eq_false_2 by nra.
    rewrite bool_decide_eq_false_2 by nra. done. }
  destruct (applyMemoryDecay_run real_pow (hours 100) scenario_db)
    as (cnt1 & db1 & Hrun1 & _ & _ & _ & _ & _ & _ & Hchunks1).
  assert (Hc1 : chunks db1 !! "c1" = Some c1).
  { rewrite Hchunks1, lookup_omap. cbn [chunks scenario_db].
    by rewrite lookup_singleton_eq. }
  destruct (decay_rerun real_pow (hours 100) scenario_db db1 cnt1 "c1" c1 Hrun1 Hc1)
    as (c & cnt2 & db2 & _ & _ & _ & Hrun2 & Hc2).
  exists cnt1, db1, cnt2, db2, c1, c2.
  split; [exact Hrun1 |]. split; [exact Hc1 |]. split; [reflexivity |].
  split; [exact Hrun2 |]. split; [by rewrite Hc2 |].
  change (p - p * p > 2 / 10)%R. nra.
Qed.

(** ** Cosine similarity *)

Section CosineSymmetry.
Context {N : Type} `{JsNumber N}.
Hypothesis nmul_comm : ∀ x y : N, (x * y)%js = (y * x)%js.


End CosineSymmetry.







Section CosineReal.
Local Open Scope R_scope.

(** The dot product and the squared Euclidean norm. *)
Fixpoint dot (a b : list R) : R :=
  match a, b with
  | x :: a', y :: b' => x * y + dot a' b'
  | _, _ => 0
  end.

Definition sumsq (a : list R) : R := dot a a.

Lemma sumsq_nonneg a : 0 <= sumsq a.
Proof. unfold sumsq. induction a as [|x a IH]; cbn; [lra | nra]. Qed.

Lemma cosineSums_real (a b : list R) :
  length a = length b →
  ∀ d n1 n2, cosineSums a b (d, n1, n2) = (d + dot a b, n1 + sumsq a, n2 + sumsq b).
Proof.
  revert b. induction a as [|x a IH]; intros [|y b] Hlen d n1 n2; try done.
  - unfold sumsq. cbn. f_equal; [f_equal |]; lra.
  - cbn [cosineSums]. rewrite IH by (cbn in Hlen; lia).
    unfold sumsq. cbn. f_equal; [f_equal |]; lra.
Qed.


Lemma calculateCosineSimilarity_real (a b : list R) :
  calculateCosineSimilarity a b =
  if decide (length a = length b ∧ sumsq a ≠ 0 ∧ sumsq b ≠ 0)
  then dot a b / (sqrt (sumsq a) * sqrt (sumsq b))
  else 0.
Proof.
  unfold calculateCosineSimilarity.
  destruct (length a =? length b)%nat eqn:Hlen; cbn [negb].
  - apply Nat.eqb_eq in Hlen. rewrite cosineSums_real by done.
    cbn [numZ nadd nmul ndiv neqb Math_sqrt real_number].
    rewrite !Rplus_0_l.
    destruct (decide (sumsq a = 0)) as [Ha | Ha].
    { rewrite (bool_decide_eq_true_2 _ Ha). cbn.
      rewrite decide_False by tauto. done. }
    rewrite (bool_decide_eq_false_2 _ Ha). cbn [orb].
    destruct (decide (sumsq b = 0)) as [Hb | Hb].
    { rewrite (bool_decide_eq_true_2 _ Hb).
      rewrite decide_False by tauto. done. }
    rewrite (bool_decide_eq_false_2 _ Hb).
    by rewrite decide_True.
  - apply Nat.eqb_neq in Hlen. rewrite decide_False by tauto. done.
Qed.


End CosineReal.



(** On binary64 the quotient is rounded: the similarity of a vector that is
    not a unit vector with itself can come out one unit in the last place
    above 1. *)
Example cosine_rounding :
  calculateCosineSimilarity [lit 1 10; lit 7 10] [lit 1 10; lit 7 10]
  = 1.0000000000000002%float.
Proof. vm_compute. reflexivity. Qed.


(** ** Confidence score *)

(** A sum with NaN is NaN. *)
Lemma float_add_nan (x : float) : PrimFloat.add x PrimFloat.nan = PrimFloat.nan.
Proof.
  apply Prim2SF_inj. rewrite FloatAxioms.add_spec.
  change (Prim2SF PrimFloat.nan) with S754_nan.
  by destruct (Prim2SF x).
Qed.

(** On binary64, with no memory gathered the mean score is [0 / 0], that is
    NaN, and the confidence score is NaN whatever the insights are. *)
Lemma calculateConfidenceScore_empty (insights : list string) :
  calculateConfidenceScore (N := float) [] insights = PrimFloat.nan.
Proof.
  unfold calculateConfidenceScore.
  cbn [length foldl numZ nadd nmul ndiv Math_min float_number Z.of_nat float_of_Z].
  change (float_min (PrimFloat.zero / PrimFloat.zero / float_of_Z 2) (float_of_Z 1)
          * lit 4 10)%float with PrimFloat.nan.
  by rewrite float_add_nan.
Qed.

(** C9 (the code departs from the claim).  [calculateConfidenceScore] on an
    empty memory list, on binary64: the result is NaN, which is neither at
    least 0 nor at most 1. *)
Theorem calculateConfidenceScore_empty_is_nan :
  calculateConfidenceScore (N := float) [] [] = PrimFloat.nan
  ∧ (numZ 0 <=? calculateConfidenceScore (N := float) [] [])%js = false
  ∧ (calculateConfidenceScore (N := float) [] [] <=? numZ 1)%js = false.
Proof. by rewrite calculateConfidenceScore_empty. Qed.

Section ConfidenceReal.
Local Open Scope R_scope.

Definition scoreSum (memories : list (Retrieved (N := R))) : R :=
  foldl (λ sum m, sum + score (chunk m)) 0 memories.

Lemma scoreSum_nonneg (memories : list (Retrieved (N := R))) :
  Forall (λ m, 0 <= score (chunk m)) memories → 0 <= scoreSum memories.
Proof.
  intros Hall. unfold scoreSum.
  assert (Hgen : ∀ acc, 0 <= acc →
            0 <= foldl (λ sum (m : Retrieved), sum + score (chunk m)) acc memories).
  { induction Hall as [|m l Hm _ IH]; intros acc Hacc; [done |].
    cbn. apply IH. lra. }
  apply Hgen. lra.
Qed.

(** Over the reals and with at least one memory, the confidence score is
    the weighted sum of the three capped ratios, and it lies in [0, 1]
    when no score is negative. *)
Lemma calculateConfidenceScore_nonempty (memories : list (Retrieved (N := R)))
    (insights : list string) :
  memories ≠ [] →
  Forall (λ m, 0 <= score (chunk m)) memories →
  let chunkCount := INR (length memories) in
  let insightCount := INR (length insights) in
  let meanChunkScore := scoreSum memories / chunkCount in
  calculateConfidenceScore memories insights
  = 3 / 10 * Rmin (chunkCount / 50) 1 + 3 / 10 * Rmin (insightCount / 10) 1
    + 4 / 10 * Rmin (meanChunkScore / 2) 1
  ∧ 0 <= calculateConfidenceScore memories insights <= 1.
Proof.
  intros Hne Hall chunkCount insightCount meanChunkScore.
  unfold calculateConfidenceScore, lit.
  cbn [numZ nadd nmul ndiv Math_min real_number].
  rewrite <- !INR_IZR_INZ.
  fold chunkCount insightCount. fold (scoreSum memories). fold meanChunkScore.
  assert (0 < chunkCount).
  { unfold chunkCount. destruct memories; [done |]. apply lt_0_INR. cbn. lia. }
  assert (0 <= insightCount) by apply pos_INR.
  assert (0 <= meanChunkScore).
  { unfold meanChunkScore. apply Rmult_le_pos; [by apply scoreSum_nonneg |].
    apply Rlt_le, Rinv_0_lt_compat. done. }
  assert (0 <= Rmin (chunkCount / 50) 1 <= 1)
    by (unfold Rmin; destruct (Rle_dec _ _); lra).
  assert (0 <= Rmin (insightCount / 10) 1 <= 1)
    by (unfold Rmin; destruct (Rle_dec _ _); lra).
  assert (0 <= Rmin (meanChunkScore / 2) 1 <= 1)
    by (unfold Rmin; destruct (Rle_dec _ _); lra).
  rewrite (Rmin_left _ 1) by lra. split; lra.
Qed.
End ConfidenceReal.

(** ** Failure of a reflection *)

(** The computation raises from the store [db]. *)
Definition fails {N A : Type} (c : M N A) (db : Db N) : Prop :=
  ∃ e db', c db = (Err e, db').

Section Degraded.
Context {N : Type} `{JsNumber N}.
Variable gather : Z → list string → M N (list (Retrieved (N := N))).
Variable analyzeMemories :
  list (Retrieved (N := N)) → ReflectionDepth → list string → M N (list string).
Variable discover : Z → list (Retrieved (N := N)) → M N (list (MemoryLink N)).
Variable generateRecommendations :
  list string → list (Retrieved (N := N)) → M N (list string).
Variable save : list (Retrieved (N := N)) → list string → string → M N unit.

Let pipeline := reflectionPipeline gather analyzeMemories discover
                  generateRecommendations save.
Let generate := generateReflectionWith gather analyzeMemories discover
                  generateRecommendations save.

(** [try]/[catch] returns: with the result of the body when the body
    returns, with the degraded result (in the store that the body left)
    when it raises. *)
Lemma generateReflectionWith_cases now request conductorId (db : Db N) :
  match pipeline now request conductorId db with
  | (Ok r, db') => generate now request conductorId db = (Ok r, db')
  | (Err _, db') => generate now request conductorId db = (Ok degradedResult, db')
  end.
Proof.
  unfold generate, generateReflectionWith, try_catch. fold pipeline.
  by destruct (pipeline now request conductorId db) as [[r | e] db'].
Qed.

End Degraded.

(** C5.  [generateReflection] always returns a result to its caller, never
    an exception.  When the gather phase fails, or the analysis, or the
    discovery of connections, or the recommendations (or the saving of the
    reflections), whatever the failure is, the result is the degraded one:
    one placeholder insight, no new connection, one placeholder
    recommendation and confidence score 0. *)
Theorem generateReflection_degrades {N : Type} `{JsNumber N}
    (gather : Z → list string → M N (list (Retrieved (N := N))))
    (analyzeMemories :
       list (Retrieved (N := N)) → ReflectionDepth → list string → M N (list string))
    (discover : Z → list (Retrieved (N := N)) → M N (list (MemoryLink N)))
    (generateRecommendations : list string → list (Retrieved (N := N)) → M N (list string))
    (save : list (Retrieved (N := N)) → list string → string → M N unit)
    (now : Z) (request : ReflectionRequest) (conductorId : string) (db : Db N) :
  ∃ r db',
    generateReflectionWith gather analyzeMemories discover generateRecommendations
      save now request conductorId db = (Ok r, db')
    ∧ (fails (gather now (memoryScope request)) db → r = degradedResult)
    ∧ (∀ memories db1,
         gather now (memoryScope request) db = (Ok memories, db1) →
         (fails (analyzeMemories memories (reflectionDepth request)
                   (focusAreas request)) db1 → r = degradedResult)
         ∧ ∀ insights db2,
             analyzeMemories memories (reflectionDepth request) (focusAreas request) db1
             = (Ok insights, db2) →
             (fails (discover now memories) db2 → r = degradedResult)
             ∧ ∀ newConnections db3,
                 discover now memories db2 = (Ok newConnections, db3) →
                 (fails (generateRecommendations insights memories) db3 →
                  r = degradedResult)
                 ∧ ∀ recommendations db4,
                     generateRecommendations insights memories db3
                     = (Ok recommendations, db4) →
                     fails (save memories insights conductorId) db4 →
                     r = degradedResult)
    ∧ insights (degradedResult (N := N)) = ["Error generating reflection insights"]
    ∧ newConnections (degradedResult (N := N)) = []
    ∧ recommendations (degradedResult (N := N))
      = ["Unable to generate recommendations at this time"]
    ∧ confidenceScore (degradedResult (N := N)) = numZ 0.
Proof.
  pose proof (generateReflectionWith_cases gather analyzeMemories discover
                generateRecommendations save now request conductorId db) as Hcases.
  unfold reflectionPipeline, bind in Hcases.
  destruct (gather now (memoryScope request) db) as [[memories | e] db1] eqn:Hg.
  2:{ exists degradedResult, db1. split; [done |]. repeat split; try done.
      all: intros; simplify_eq. }
  destruct (analyzeMemories memories (reflectionDepth request) (focusAreas request) db1)
    as [[ins | e] db2] eqn:Ha.
  2:{ exists degradedResult, db2. split; [done |]. repeat split; try done.
      all: intros; simplify_eq. }
  destruct (discover now memories db2) as [[conns | e] db3] eqn:Hd.
  2:{ exists degradedResult, db3. split; [done |]. repeat split; try done.
      all: intros; simplify_eq. }
  destruct (generateRecommendations ins memories db3) as [[recs | e] db4] eqn:Hr.
  2:{ exists degradedResult, db4. split; [done |]. repeat split; try done.
      all: intros; simplify_eq. }
  destruct (save memories ins conductorId db4) as [[[] | e] db5] eqn:Hs.
  2:{ exists degradedResult, db5. split; [done |]. repeat split; try done.
      all: intros; simplify_eq. }
  eexists _, db5. split; [exact Hcases |].
  split; [intros (e & db' & Hf); congruence |].
  split; [| done].
  intros memories' db1' [= <- <-].
  split; [intros (e & db' & Hf); congruence |].
  intros ins' db2' Ha'. rewrite Ha in Ha'. injection Ha' as <- <-.
  split; [intros (e & db' & Hf); congruence |].
  intros conns' db3' Hd'. rewrite Hd in Hd'. injection Hd' as <- <-.
  split; [intros (e & db' & Hf); congruence |].
  intros recs' db4' Hr'. rewrite Hr in Hr'. injection Hr' as <- <-.
  intros (e & db' & Hf). congruence.
Qed.

Section DegradedExamples.
Definition request_for (scope : list string) : ReflectionRequest :=
  {| triggerType := "manual"; memoryScope := scope;
     reflectionDepth := medium; focusAreas := [] |}.

(** Stand-ins for the phases that are not modelled, and failing phases. *)
Definition no_insights : list (Retrieved (N := float)) → ReflectionDepth →
                         list string → M float (list string) :=
  λ _ _ _, ret [].
Definition no_recommendations : list string → list (Retrieved (N := float)) →
                                M float (list string) :=
  λ _ _, ret [].
Definition failing_analysis : list (Retrieved (N := float)) → ReflectionDepth →
                              list string → M float (list string) :=
  λ _ _ _, throw (Failure "Cannot read properties of undefined").
Definition failing_discovery : Z → list (Retrieved (N := float)) →
                               M float (list (MemoryLink float)) :=
  λ _ _, throw (Failure "memoryLink.findFirst rejected").
Definition failing_recommendations : list string → list (Retrieved (N := float)) →
                                     M float (list string) :=
  λ _ _, throw (Failure "recommendations failed").
End DegradedExamples.

Lemma generateReflection_degrades_witness :
  (∃ r db', generateReflection (λ _, 0) no_insights no_recommendations 0
              (request_for ["no_such_bucket"]) "conductor" scenario_db = (Ok r, db')
            ∧ r = degradedResult)
  ∧ (∃ r db', generateReflection (λ _, 0) failing_analysis no_recommendations 0
                (request_for ["semantic_stm"]) "conductor" scenario_db = (Ok r, db')
              ∧ r = degradedResult)
  ∧ (∃ r db', generateReflectionWith (gatherMemoriesForReflection (λ _, 0)) no_insights
                failing_discovery no_recommendations saveReflections 0
                (request_for ["semantic_stm"]) "conductor" scenario_db = (Ok r, db')
              ∧ r = degradedResult)
  ∧ (∃ r db', generateReflection (λ _, 0) no_insights failing_recommendations 0
                (request_for ["semantic_stm"]) "conductor" scenario_db = (Ok r, db')
              ∧ r = degradedResult).
Proof.
  split; [| split; [| split]].
  - destruct (generateReflection_degrades (gatherMemoriesForReflection (λ _, 0)) no_insights
                discoverMemoryConnections no_recommendations saveReflections 0
                (request_for ["no_such_bucket"]) "conductor" scenario_db)
      as (r & db' & Hrun & Hgather & _).
    exists r, db'. split; [exact Hrun |].
    apply Hgather. eexists _, _. vm_compute. reflexivity.
  - destruct (generateReflection_degrades (gatherMemoriesForReflection (λ _, 0)) failing_analysis
                discoverMemoryConnections no_recommendations saveReflections 0
                (request_for ["semantic_stm"]) "conductor" scenario_db)
      as (r & db' & Hrun & _ & Hphases & _).
    exists r, db'. split; [exact Hrun |].
    edestruct Hphases as [Hanalysis _]; [vm_compute; reflexivity |].
    apply Hanalysis. eexists _, _. reflexivity.
  - destruct (generateReflection_degrades (gatherMemoriesForReflection (λ _, 0)) no_insights
                failing_discovery no_recommendations saveReflections 0
                (request_for ["semantic_stm"]) "conductor" scenario_db)
      as (r & db' & Hrun & _ & Hphases & _).
    exists r, db'. split; [exact Hrun |].
    edestruct Hphases as [_ Hphases2]; [vm_compute; reflexivity |].
    edestruct Hphases2 as [Hdiscovery _]; [reflexivity |].
    apply Hdiscovery. eexists _, _. reflexivity.
  - destruct (generateReflection_degrades (gatherMemoriesForReflection (λ _, 0)) no_insights
                discoverMemoryConnections failing_recommendations saveReflections 0
                (request_for ["semantic_stm"]) "conductor" scenario_db)
      as (r & db' & Hrun & _ & Hphases & _).
    exists r, db'. split; [exact Hrun |].
    edestruct Hphases as [_ Hphases2]; [vm_compute; reflexivity |].
    edestruct Hphases2 as [_ Hphases3]; [reflexivity |].
    edestruct Hphases3 as [Hrecommend _]; [vm_compute; reflexivity |].
    apply Hrecommend. eexists _, _. reflexivity.
Defined.

(** ** Sorting *)
Section StableSortFacts.
Context {A : Type} (after : A → A → bool).

Lemma stable_insert_perm (x : A) (l : list A) : stable_insert after x l ≡ₚ x :: l.
Proof.
  induction l as [|y l IH]; [done |]. cbn.
  destruct (after x y); [| done].
  rewrite IH. apply Permutation_swap.
Qed.

Lemma stable_sort_perm (l : list A) : stable_sort after l ≡ₚ l.
Proof.
  induction l as [|x l IH]; [done |]. cbn.
  rewrite stable_insert_perm. by rewrite IH.
Qed.

(** When "comes after" is the strict part of a total preorder, the result
    is sorted: no element comes after a later one. *)
Hypothesis after_total : ∀ x y, after x y = true → after y x = false.
Hypothesis after_trans :
  ∀ x y z, after x y = false → after y z = false → after x z = false.

Lemma stable_insert_sorted (x : A) (l : list A) :
  StronglySorted (λ a b, after a b = false) l →
  StronglySorted (λ a b, after a b = false) (stable_insert after x l).
Proof.
  induction 1 as [|y l Hl IH Hy]; cbn.
  - repeat constructor.
  - destruct (after x y) eqn:Hxy.
    + constructor; [done |].
      rewrite stable_insert_perm. constructor; [by apply after_total | done].
    + constructor; [by constructor |].
      constructor; [done |].
      eapply Forall_impl; [exact Hy |]. intros z Hz. by eapply after_trans.
Qed.

Lemma stable_sort_sorted (l : list A) :
  StronglySorted (λ a b, after a b = false) (stable_sort after l).
Proof.
  induction l as [|x l IH]; cbn; [constructor | by apply stable_insert_sorted].
Qed.
End StableSortFacts.

Lemma StronglySorted_take {A : Type} (R : A → A → Prop) (n : nat) (l : list A) :
  StronglySorted R l → StronglySorted R (take n l).
Proof.
  intros Hl. revert n. induction Hl as [|x l Hl IH Hx]; intros [|n]; cbn;
    try constructor; [apply IH |].
  eapply Forall_forall. intros y Hy.
  eapply Forall_forall in Hx; [exact Hx |].
  by apply (subseteq_take n l).
Qed.

Lemma StronglySorted_fmap {A B : Type} (f : A → B) (R : B → B → Prop) (l : list A) :
  StronglySorted (λ x y, R (f x) (f y)) l → StronglySorted R (f <$> l).
Proof.
  induction 1 as [|x l Hl IH Hx]; cbn; constructor; [done |].
  by apply Forall_fmap.
Qed.

Lemma StronglySorted_impl {A : Type} (R R' : A → A → Prop) (l : list A) :
  (∀ x y, R x y → R' x y) → StronglySorted R l → StronglySorted R' l.
Proof.
  intros HR. induction 1 as [|x l Hl IH Hx]; constructor; [done |].
  eapply Forall_impl; [exact Hx | auto].
Qed.

(** Over the reals, sorting with the comparator [key b - key a] puts the
    keys in descending order. *)
Lemma Array_sort_by_key {A : Type} (key : A → R) (l : list A) :
  StronglySorted (λ a b, (key b <= key a)%R)
                 (Array_sort (λ a b, key b - key a)%js l).
Proof.
  assert (Hafter : ∀ a b : A,
            ((key b - key a)%js >? numZ 0)%js = false ↔ (key b <= key a)%R).
  { intros a b. unfold ngtb. cbn [nltb nsub numZ real_number].
    rewrite bool_decide_eq_false. split; intros; lra. }
  eapply StronglySorted_impl; [intros a b; apply Hafter |].
  unfold Array_sort. apply stable_sort_sorted.
  - intros a b Hab. apply Hafter.
    destruct ((key a - key b)%js >? numZ 0)%js eqn:Hba; [| by apply Hafter].
    unfold ngtb in *. cbn [nltb nsub numZ real_number] in *.
    apply bool_decide_eq_true in Hab, Hba. lra.
  - intros a b c. rewrite !Hafter. lra.
Qed.

Lemma StronglySorted_key_eq {A : Type} (key key' : A → R) (l : list A) :
  Forall (λ x, key x = key' x) l →
  StronglySorted (λ a b, (key b <= key a)%R) l →
  StronglySorted (λ a b, (key' b <= key' a)%R) l.
Proof.
  intros Hkeys Hsorted. induction Hsorted as [|x l Hl IH Hx]; [constructor |].
  apply Forall_cons in Hkeys as [Hk Hkeys]. constructor; [by apply IH |].
  rewrite Forall_forall in Hx, Hkeys |- *. intros y Hy.
  rewrite <- Hk, <- (Hkeys y Hy). by apply Hx.
Qed.

(** ** Retrieval from a bucket *)

Lemma submseteq_NoDup {A : Type} (l k : list A) : l ⊆+ k → NoDup k → NoDup l.
Proof.
  intros Hsub Hk. apply submseteq_Permutation in Hsub as [k' Hperm].
  rewrite Hperm in Hk. by apply NoDup_app in Hk as [? _].
Qed.

Section Retrieval.
Context {N : Type} `{JsNumber N}.

(** The chunks that a bucket holds with a score of at least [minScore]. *)
Definition eligible (bucket : Id) (minScore : N) (db : Db N) : list (MemoryChunk N) :=
  filter (λ c, bucketId c = bucket ∧ (minScore <=? score c)%js) (chunkRows db).

(** The rows that the query of [getMemoriesFromBucket] returns. *)
Definition pulled (bucket : Id) (minScore : N) (limit : nat) (db : Db N)
  : list (MemoryChunk N) :=
  take limit (stable_sort orderedAfter (eligible bucket minScore db)).

Lemma NoDup_chunkRows_ids (db : Db N) : NoDup (chunk_id <$> chunkRows db).
Proof. rewrite chunkRows_ids. apply NoDup_fst_map_to_list. Qed.

Lemma pulled_submseteq bucket minScore limit (db : Db N) :
  pulled bucket minScore limit db ⊆+ chunkRows db.
Proof.
  unfold pulled, eligible. etrans; [apply submseteq_take |].
  rewrite stable_sort_perm. apply sublist_submseteq, sublist_filter.
Qed.

Lemma NoDup_pulled_ids bucket minScore limit (db : Db N) :
  NoDup (chunk_id <$> pulled bucket minScore limit db).
Proof.
  eapply submseteq_NoDup; [| apply (NoDup_chunkRows_ids db)].
  apply fmap_submseteq, pulled_submseteq.
Qed.

Lemma elem_of_pulled bucket minScore limit (db : Db N) (c : MemoryChunk N) :
  c ∈ pulled bucket minScore limit db →
  c ∈ chunkRows db ∧ bucketId c = bucket ∧ (minScore <=? score c)%js = true.
Proof.
  unfold pulled, eligible. intros Hin.
  apply (subseteq_take limit) in Hin. rewrite stable_sort_perm in Hin.
  apply list_elem_of_filter in Hin as [[Hb Hs] Hrow].
  repeat split; try done. by apply Is_true_true.
Qed.

(** A series of updates of distinct existing records. *)
Lemma forEach_updateChunk {X : Type} (key : X → Id)
    (data : MemoryChunk N → MemoryChunk N) (l : list X) :
  ∀ db : Db N,
    NoDup (key <$> l) →
    (∀ x, x ∈ l → is_Some (chunks db !! key x)) →
    ∃ db', forEach (λ x, updateChunk (key x) data) l db = (Ok tt, db')
           ∧ buckets db' = buckets db ∧ links db' = links db
           ∧ reflections db' = reflections db
           ∧ ∀ k, chunks db' !! k =
                  if decide (k ∈ key <$> l) then data <$> chunks db !! k
                  else chunks db !! k.
Proof.
  induction l as [|x l IH]; intros db Hnd Hin.
  - exists db. by cbn.
  - rewrite fmap_cons in Hnd. apply NoDup_cons in Hnd as [Hx Hnd].
    destruct (Hin x) as [c Hc]; [left |].
    cbn [forEach]. unfold bind at 1. unfold updateChunk at 1. rewrite Hc.
    destruct (IH (set_chunks (<[key x := data c]> (chunks db)) db))
      as (db' & -> & Hb & Hl & Hr & Hlook); [done | |].
    { intros y Hy. cbn. rewrite lookup_insert_ne; [apply Hin; by right |].
      intros Heq. apply Hx. rewrite Heq. by apply list_elem_of_fmap_2. }
    exists db'. split; [done |]. split; [done |]. split; [done |]. split; [done |].
    intros k. rewrite Hlook. cbn [chunks set_chunks]. rewrite fmap_cons.
    destruct (decide (k = key x)) as [-> | Hne].
    + rewrite decide_False by done. rewrite decide_True by left.
      by rewrite lookup_insert_eq, Hc.
    + rewrite lookup_insert_ne by done.
      repeat case_decide; try done; set_solver.
Qed.

(** The list that [getMemoriesFromBucket] returns for the rows [found]. *)
Definition returned (queryEmbedding : option (list N)) (found : list (MemoryChunk N))
  : list Retrieved :=
  match queryEmbedding with
  | Some q => if (0 <? length q)%nat
              then Array_sort similarityCompare (scored q <$> found)
              else plain <$> found
  | None => plain <$> found
  end.

Lemma chunk_plain (l : list (MemoryChunk N)) : chunk <$> (plain <$> l) = l.
Proof. induction l as [|c l IH]; [done |]. cbn. by rewrite IH. Qed.

Lemma chunk_scored q (l : list (MemoryChunk N)) : chunk <$> (scored q <$> l) = l.
Proof. induction l as [|c l IH]; [done |]. cbn. by rewrite IH. Qed.

(** The returned list holds the rows of the query, each once. *)
Lemma chunk_returned queryEmbedding (found : list (MemoryChunk N)) :
  chunk <$> returned queryEmbedding found ≡ₚ found.
Proof.
  unfold returned. destruct queryEmbedding as [q |]; [| by rewrite chunk_plain].
  destruct (0 <? length q)%nat; [| by rewrite chunk_plain].
  unfold Array_sort. by rewrite stable_sort_perm, chunk_scored.
Qed.

(** A call for a registered bucket returns, and touches in the store each
    row of its query. *)
Lemma getMemoriesFromBucket_run (now : Z) (name : string)
    (queryEmbedding : option (list N)) (limit : nat) (minScore : N) (db : Db N)
    (bucket : MemoryBucket) :
  buckets db !! name = Some bucket →
  ∃ db',
    getMemoriesFromBucket now name queryEmbedding limit minScore db
    = (Ok (returned queryEmbedding (pulled (bucket_id bucket) minScore limit db)), db')
    ∧ buckets db' = buckets db ∧ links db' = links db
    ∧ reflections db' = reflections db
    ∧ ∀ k, chunks db' !! k =
           if decide (k ∈ chunk_id <$> pulled (bucket_id bucket) minScore limit db)
           then touch now <$> chunks db !! k
           else chunks db !! k.
Proof.
  intros Hbucket.
  unfold getMemoriesFromBucket, bind at 1, findUniqueBucket. rewrite Hbucket.
  unfold bind at 1, findManyChunks.
  fold (eligible (bucket_id bucket) minScore db).
  fold (pulled (bucket_id bucket) minScore limit db).
  set (found := pulled (bucket_id bucket) minScore limit db).
  change (match queryEmbedding with
          | Some q => if (0 <? length q)%nat then _ else _
          | None => _
          end) with (returned queryEmbedding found).
  unfold bind.
  assert (Hids : (λ r : Retrieved, chunk_id (chunk r)) <$> returned queryEmbedding found
                 ≡ₚ chunk_id <$> found).
  { assert (Hcomp : (λ r : Retrieved, chunk_id (chunk r)) <$> returned queryEmbedding found
                    = chunk_id <$> (chunk <$> returned queryEmbedding found))
      by (by rewrite <- list_fmap_compose).
    by rewrite Hcomp, chunk_returned. }
  destruct (forEach_updateChunk (λ r : Retrieved, chunk_id (chunk r)) (touch now)
              (returned queryEmbedding found) db) as (db' & -> & Hb & Hl & Hr & Hlook).
  { rewrite Hids. apply NoDup_pulled_ids. }
  { intros r Hr.
    assert (Hc : chunk r ∈ found)
      by (rewrite <- (chunk_returned queryEmbedding); by apply list_elem_of_fmap_2).
    apply elem_of_pulled in Hc as [Hrow _].
    apply elem_of_chunkRows in Hrow as (c' & Hc' & _). by rewrite Hc'. }
  exists db'. split; [done |]. split; [done |]. split; [done |]. split; [done |].
  intros k. rewrite Hlook.
  destruct (decide (k ∈ chunk_id <$> found)) as [Hk | Hk].
  - rewrite decide_True; [done |]. by rewrite Hids.
  - rewrite decide_False; [done |]. by rewrite Hids.
Qed.

(** Without a query embedding (or with an empty one) the call returns the
    rows of the query as they were read. *)
Lemma getMemoriesFromBucket_plain (now : Z) (name : string)
    (queryEmbedding : option (list N)) (limit : nat) (minScore : N) (db : Db N)
    (bucket : MemoryBucket) :
  buckets db !! name = Some bucket →
  queryEmbedding = None ∨ queryEmbedding = Some [] →
  ∃ db',
    getMemoriesFromBucket now name queryEmbedding limit minScore db
    = (Ok (plain <$> pulled (bucket_id bucket) minScore limit db), db')
    ∧ buckets db' = buckets db ∧ links db' = links db
    ∧ reflections db' = reflections db
    ∧ ∀ k, chunks db' !! k =
           if decide (k ∈ chunk_id <$> pulled (bucket_id bucket) minScore limit db)
           then touch now <$> chunks db !! k
           else chunks db !! k.
Proof.
  intros Hbucket Hquery.
  destruct (getMemoriesFromBucket_run now name queryEmbedding limit minScore db
              bucket Hbucket) as (db' & Hrun & Hrest).
  exists db'. split; [| done]. rewrite Hrun.
  by destruct Hquery as [-> | ->].
Qed.

Lemma getMemoriesFromBucket_unknown (now : Z) (name : string)
    (queryEmbedding : option (list N)) (limit : nat) (minScore : N) (db : Db N) :
  buckets db !! name = None →
  getMemoriesFromBucket now name queryEmbedding limit minScore db
  = (Err (bucketNotFound name), db).
Proof.
  intros Hbucket. unfold getMemoriesFromBucket, bind, findUniqueBucket.
  by rewrite Hbucket.
Qed.
End Retrieval.

Section RetrievalOrder.
Local Open Scope R_scope.

(** The order of the query: by score, highest first, and among equal scores
    by [lastAccessed], latest first. *)
Definition scoreThenRecency (a b : MemoryChunk R) : Prop :=
  score b <= score a ∧ (score a = score b → (lastAccessed b ≤ lastAccessed a)%Z).

Lemma orderedAfter_false (a b : MemoryChunk R) :
  orderedAfter a b = false ↔ scoreThenRecency a b.
Proof.
  unfold orderedAfter, scoreThenRecency. cbn [nltb neqb real_number].
  rewrite orb_false_iff, andb_false_iff, !bool_decide_eq_false, Z.ltb_ge.
  split.
  - intros [Hlt Heq]. split; [lra |]. intros Hs. by destruct Heq.
  - intros [Hle Heq]. split; [lra |].
    destruct (decide (score a = score b)); [right; auto | by left].
Qed.

Lemma orderedAfter_total (a b : MemoryChunk R) :
  orderedAfter a b = true → orderedAfter b a = false.
Proof.
  intros Hab. apply orderedAfter_false.
  destruct (orderedAfter b a) eqn:Hba; [| by apply orderedAfter_false].
  unfold orderedAfter in *. cbn [nltb neqb real_number] in *.
  apply orb_true_iff in Hab, Hba.
  rewrite !andb_true_iff, !bool_decide_eq_true, !Z.ltb_lt in Hab, Hba.
  unfold scoreThenRecency. destruct Hab as [? | [? ?]], Hba as [? | [? ?]];
    try lra; lia.
Qed.

Lemma orderedAfter_trans (a b c : MemoryChunk R) :
  orderedAfter a b = false → orderedAfter b c = false → orderedAfter a c = false.
Proof.
  rewrite !orderedAfter_false. unfold scoreThenRecency.
  intros [Hab Hab'] [Hbc Hbc']. split; [lra |].
  intros Heq. assert (score a = score b) by lra. assert (score b = score c) by lra.
  specialize (Hab' ltac:(done)). specialize (Hbc' ltac:(done)). lia.
Qed.

(** Over the reals [s || 0] is [s]. *)
Lemma orElse_similarity (r : Retrieved (N := R)) (s : R) :
  similarity r = Some s → orElse (similarity r) (numZ 0) = s.
Proof.
  intros ->. unfold orElse. cbn [truthy numZ real_number].
  case_bool_decide as Hs; cbn; [by rewrite Hs | done].
Qed.

Lemma returned_sorted (q : list R) (found : list (MemoryChunk R)) :
  q ≠ [] →
  StronglySorted
    (λ a b, calculateCosineSimilarity q (embedding (chunk b))
            <= calculateCosineSimilarity q (embedding (chunk a)))
    (returned (Some q) found)
  ∧ ∀ r, r ∈ returned (Some q) found →
         similarity r = Some (calculateCosineSimilarity q (embedding (chunk r))).
Proof.
  intros Hq. unfold returned.
  assert ((0 <? length q)%nat = true) as -> by (destruct q; [done | by cbn]).
  assert (Hsim : ∀ r, r ∈ Array_sort similarityCompare (scored q <$> found) →
            similarity r = Some (calculateCosineSimilarity q (embedding (chunk r)))).
  { intros r Hr. unfold Array_sort in Hr. rewrite stable_sort_perm in Hr.
    by apply list_elem_of_fmap in Hr as (c & -> & _). }
  split; [| done].
  pose proof (Array_sort_by_key (λ r : Retrieved (N := R), orElse (similarity r) (numZ 0))
                (scored q <$> found)) as Hsorted.
  fold (similarityCompare (N := R)) in Hsorted.
  assert (Hkeys : Forall (λ r : Retrieved (N := R),
                    orElse (similarity r) (numZ 0)
                    = calculateCosineSimilarity q (embedding (chunk r)))
                   (Array_sort similarityCompare (scored q <$> found))).
  { apply Forall_forall. intros r Hr. by apply orElse_similarity, Hsim. }
  exact (StronglySorted_key_eq _ _ _ Hkeys Hsorted).
Qed.

Lemma Db_eq (db1 db2 : Db R) :
  buckets db1 = buckets db2 → chunks db1 = chunks db2 → links db1 = links db2 →
  reflections db1 = reflections db2 → db1 = db2.
Proof. destruct db1, db2. cbn. by intros -> -> -> ->. Qed.

End RetrievalOrder.

(** The store [db'] is [db] after an access at [now] to the chunks [ids]:
    each of them has [lastAccessed = now] and one access more, with the
    score and everything else it had; every other chunk is as it was, no
    chunk appears or disappears, and the other tables are as they were. *)
Definition accessedAt {N : Type} (now : Z) (ids : list Id) (db db' : Db N) : Prop :=
  buckets db' = buckets db ∧ links db' = links db ∧ reflections db' = reflections db
  ∧ (∀ k, chunks db !! k = None → chunks db' !! k = None)
  ∧ ∀ k c, chunks db !! k = Some c →
           ∃ c', chunks db' !! k = Some c'
                 ∧ if decide (k ∈ ids)
                   then lastAccessed c' = now ∧ accessCount c' = S (accessCount c)
                        ∧ score c' = score c ∧ sameContent c c'
                   else c' = c.

Section Access.
Context {N : Type} `{JsNumber N}.

Lemma touch_accessedAt (now : Z) (ids : list Id) (db db' : Db N) :
  buckets db' = buckets db → links db' = links db → reflections db' = reflections db →
  (∀ k, chunks db' !! k = if decide (k ∈ ids) then touch now <$> chunks db !! k
                          else chunks db !! k) →
  accessedAt now ids db db'.
Proof.
  intros Hb Hl Hr Hlook. split; [done |]. split; [done |]. split; [done |]. split.
  - intros k Hk. rewrite Hlook, Hk. by case_decide.
  - intros k c Hc. rewrite Hlook, Hc. case_decide.
    + exists (touch now c). cbn. by repeat split.
    + by exists c.
Qed.

Lemma accessedAt_ext (now : Z) (ids ids' : list Id) (db db' : Db N) :
  (∀ k, k ∈ ids ↔ k ∈ ids') → accessedAt now ids db db' → accessedAt now ids' db db'.
Proof.
  intros Hids (Hb & Hl & Hr & Hnone & Hsome).
  split; [done |]. split; [done |]. split; [done |]. split; [done |].
  intros k c Hc. destruct (Hsome k c Hc) as (c' & Hc' & Hcase). exists c'.
  split; [done |]. specialize (Hids k). repeat case_decide; tauto.
Qed.

(** A retrieval from a registered bucket accesses the chunks it returns. *)
Lemma getMemoriesFromBucket_accessedAt (now : Z) (name : string)
    (queryEmbedding : option (list N)) (limit : nat) (minScore : N) (db : Db N)
    (bucket : MemoryBucket) :
  buckets db !! name = Some bucket →
  ∃ db',
    getMemoriesFromBucket now name queryEmbedding limit minScore db
    = (Ok (returned queryEmbedding (pulled (bucket_id bucket) minScore limit db)), db')
    ∧ accessedAt now
        ((λ r, chunk_id (chunk r))
           <$> returned queryEmbedding (pulled (bucket_id bucket) minScore limit db))
        db db'.
Proof.
  intros Hbucket.
  destruct (getMemoriesFromBucket_run now name queryEmbedding limit minScore db
              bucket Hbucket) as (db' & Hrun & Hb & Hl & Hr & Hlook).
  exists db'. split; [done |].
  apply (accessedAt_ext now (chunk_id <$> pulled (bucket_id bucket) minScore limit db)).
  - intros k.
    assert (Hcomp : (λ r : Retrieved, chunk_id (chunk r))
                      <$> returned queryEmbedding (pulled (bucket_id bucket) minScore limit db)
                    = chunk_id <$> (chunk <$> returned queryEmbedding
                                      (pulled (bucket_id bucket) minScore limit db)))
      by (by rewrite <- list_fmap_compose).
    by rewrite Hcomp, chunk_returned.
  - by apply touch_accessedAt.
Qed.
End Access.

(** Over the reals, the rows that the query of a retrieval reads: the first
    [limit] of a list [ranked] of the chunks of the bucket with a score of
    at least [minScore], highest score first and, among equal scores, latest
    access first. *)
Lemma pulled_ranked (bucket : Id) (minScore : R) (limit : nat) (db : Db R) :
  ∃ ranked,
    pulled bucket minScore limit db = take limit ranked
    ∧ ranked ≡ₚ filter (λ c, bucketId c = bucket ∧ (minScore <= score c)%R) (chunkRows db)
    ∧ StronglySorted scoreThenRecency ranked.
Proof.
  exists (stable_sort orderedAfter (eligible bucket minScore db)).
  split; [done |]. split.
  - rewrite stable_sort_perm. unfold eligible.
    erewrite list_filter_iff; [done |]. intros c.
    cbn [nleb real_number]. by rewrite bool_decide_spec.
  - eapply StronglySorted_impl; [apply orderedAfter_false |].
    apply stable_sort_sorted; [apply orderedAfter_total | apply orderedAfter_trans].
Qed.

(** C4, as amended.  [getMemoriesFromBucket] fails with NotFound for an
    unknown bucket name and leaves the store as it is.  For a registered
    bucket, when no query embedding is given (or an empty one), it returns
    only chunks of the bucket whose score is at least [minScore]: the first
    [limit] of them in the order non-increasing by score and, among equal
    scores, non-increasing by [lastAccessed].  In the store, every returned
    chunk gets [lastAccessed = now] and an [accessCount] higher by 1, and
    keeps its score and its other fields; nothing else changes.  With a
    query embedding that is not empty it returns the same chunks and leaves
    the same store, but the chunks carry their cosine similarity to the
    query and are ordered non-increasing by it.  (Numbers are reals.) *)
Theorem getMemoriesFromBucket_ordered (now : Z) (name : string)
    (queryEmbedding : option (list R)) (limit : nat) (minScore : R) (db : Db R) :
  (buckets db !! name = None →
   getMemoriesFromBucket now name queryEmbedding limit minScore db
   = (Err (NotFound ("Memory bucket " ++ name ++ " not found")), db))
  ∧ (∀ bucket,
       buckets db !! name = Some bucket →
       queryEmbedding = None ∨ queryEmbedding = Some [] →
       ∃ all found db',
         getMemoriesFromBucket now name queryEmbedding limit minScore db
         = (Ok found, db')
         ∧ found = take limit all
         ∧ chunk <$> all
           ≡ₚ filter (λ c, bucketId c = bucket_id bucket ∧ (minScore <= score c)%R)
                     (chunkRows db)
         ∧ StronglySorted
             (λ a b, (score (chunk b) <= score (chunk a))%R
                     ∧ (score (chunk a) = score (chunk b) →
                        (lastAccessed (chunk b) ≤ lastAccessed (chunk a))%Z))
             all
         ∧ (∀ r, r ∈ found →
              similarity r = None
              ∧ bucketId (chunk r) = bucket_id bucket
              ∧ (minScore <= score (chunk r))%R)
         ∧ buckets db' = buckets db ∧ links db' = links db
         ∧ reflections db' = reflections db
         ∧ (∀ k, chunks db !! k = None → chunks db' !! k = None)
         ∧ (∀ k c, chunks db !! k = Some c →
              ∃ c', chunks db' !! k = Some c'
                    ∧ if decide (k ∈ (λ r, chunk_id (chunk r)) <$> found)
                      then lastAccessed c' = now
                           ∧ accessCount c' = S (accessCount c)
                           ∧ score c' = score c
                           ∧ sameContent c c'
                      else c' = c))
  ∧ (∀ bucket q,
       buckets db !! name = Some bucket →
       queryEmbedding = Some q → q ≠ [] →
       ∃ page found db',
         getMemoriesFromBucket now name None limit minScore db = (Ok page, db')
         ∧ getMemoriesFromBucket now name queryEmbedding limit minScore db
           = (Ok found, db')
         ∧ chunk <$> found ≡ₚ chunk <$> page
         ∧ (∀ r, r ∈ found →
              similarity r = Some (calculateCosineSimilarity q (embedding (chunk r))))
         ∧ StronglySorted
             (λ a b, (calculateCosineSimilarity q (embedding (chunk b))
                      <= calculateCosineSimilarity q (embedding (chunk a)))%R)
             found).
Proof.
  split; [apply getMemoriesFromBucket_unknown |]. split.
  - intros bucket Hbucket Hquery.
    destruct (getMemoriesFromBucket_accessedAt now name queryEmbedding limit minScore db
                bucket Hbucket) as (db' & Hrun & Hacc).
    assert (Hplain : returned queryEmbedding (pulled (bucket_id bucket) minScore limit db)
                     = plain <$> pulled (bucket_id bucket) minScore limit db)
      by (by destruct Hquery as [-> | ->]).
    rewrite Hplain in Hrun, Hacc.
    destruct (pulled_ranked (bucket_id bucket) minScore limit db)
      as (ranked & Hpulled & Hperm & Hsorted).
    exists (plain <$> ranked), (plain <$> pulled (bucket_id bucket) minScore limit db), db'.
    split; [exact Hrun |].
    split; [by rewrite Hpulled, fmap_take |].
    split; [by rewrite chunk_plain |].
    split; [by apply StronglySorted_fmap |].
    split; [| exact Hacc].
    intros r Hr. apply list_elem_of_fmap in Hr as (c & -> & Hc).
    apply elem_of_pulled in Hc as (_ & Hb & Hs). cbn.
    split; [done |]. split; [done |].
    cbn [nleb real_number] in Hs. by apply bool_decide_eq_true in Hs.
  - intros bucket q Hbucket -> Hq.
    destruct (getMemoriesFromBucket_run now name None limit minScore db bucket Hbucket)
      as (db1 & Hrun1 & Hb1 & Hl1 & Hr1 & Hlook1).
    destruct (getMemoriesFromBucket_run now name (Some q) limit minScore db bucket Hbucket)
      as (db2 & Hrun2 & Hb2 & Hl2 & Hr2 & Hlook2).
    assert (db2 = db1) as ->.
    { apply Db_eq; try congruence. apply map_eq. intros k.
      by rewrite Hlook1, Hlook2. }
    destruct (returned_sorted q (pulled (bucket_id bucket) minScore limit db) Hq)
      as [Hsorted Hsim].
    eexists _, _, db1. split; [exact Hrun1 |]. split; [exact Hrun2 |].
    split; [by rewrite !chunk_returned |]. done.
Qed.

(** A shelf of five chunks: in [semantic_stm], "a" and "b" with score 1,
    "b" accessed after "a", "c" with score 1.5 and "d" with score 0.05; in
    [semantic_ltm], "e" with score 2. *)
Section Shelf.
Context {N : Type} `{JsNumber N}.

Definition semantic_ltm : MemoryBucket :=
  {| bucket_id := "bucket-2"; bucket_name := "semantic_ltm";
     description := "Semantic Long-Term Memory"; bucketType := LTM |}.

Definition ltm_chunk (k : Id) (txt : string) (emb : list N) (s : N) (accessed : Z)
  : MemoryChunk N :=
  {| chunk_id := k; bucketId := "bucket-2"; text := txt; embedding := emb;
     metaVector := []; score := s; timestamp := 0; lastAccessed := accessed;
     source := "chat"; agentId := None; metadata := [];
     accessCount := 0; decayRate := MEMORY_DECAY_RATES_LTM |}.

Definition shelf_db : Db N :=
  {| buckets := {[ "semantic_stm" := semantic_stm; "semantic_ltm" := semantic_ltm ]};
     chunks := {[ "a" := stm_chunk "a" "first note" [numZ 0; numZ 1] (numZ 1) 1;
                  "b" := stm_chunk "b" "second note" [numZ 1; numZ 1] (numZ 1) 2;
                  "c" := stm_chunk "c" "third note" [numZ 1; numZ 0] (lit 15 10) 0;
                  "d" := stm_chunk "d" "faded note" [numZ 1; numZ 0] (lit 5 100) 3;
                  "e" := ltm_chunk "e" "old note" [numZ 1; numZ 0] (numZ 2) 0 ]};
     links := []; reflections := [] |}.
End Shelf.

Lemma getMemoriesFromBucket_ordered_witness :
  getMemoriesFromBucket 9 "no_such_bucket" None 2 default_minScore (shelf_db (N := R))
  = (Err (NotFound "Memory bucket no_such_bucket not found"), shelf_db)
  ∧ (∃ all found db',
       getMemoriesFromBucket 9 "semantic_stm" None 2 default_minScore
         (shelf_db (N := R)) = (Ok found, db')
       ∧ found = take 2 all
       ∧ chunk <$> all
         ≡ₚ filter (λ c, bucketId c = "bucket-1" ∧ (default_minScore <= score c)%R)
                   (chunkRows shelf_db)
       ∧ StronglySorted
           (λ a b, (score (chunk b) <= score (chunk a))%R
                   ∧ (score (chunk a) = score (chunk b) →
                      (lastAccessed (chunk b) ≤ lastAccessed (chunk a))%Z))
           all
       ∧ (∀ k c, chunks (shelf_db (N := R)) !! k = Some c →
            ∃ c', chunks db' !! k = Some c'
                  ∧ if decide (k ∈ (λ r, chunk_id (chunk r)) <$> found)
                    then lastAccessed c' = 9
                         ∧ accessCount c' = S (accessCount c)
                         ∧ score c' = score c
                         ∧ sameContent c c'
                    else c' = c))
  ∧ (∃ page found db',
       getMemoriesFromBucket 9 "semantic_stm" None 2 default_minScore
         (shelf_db (N := R)) = (Ok page, db')
       ∧ getMemoriesFromBucket 9 "semantic_stm" (Some [1%R; 0%R]) 2 default_minScore
           (shelf_db (N := R)) = (Ok found, db')
       ∧ chunk <$> found ≡ₚ chunk <$> page).
Proof.
  split; [| split].
  - apply (getMemoriesFromBucket_ordered 9 "no_such_bucket" None 2 default_minScore
             shelf_db).
    vm_compute. reflexivity.
  - destruct (getMemoriesFromBucket_ordered 9 "semantic_stm" None 2 default_minScore
                (shelf_db (N := R))) as (_ & Hfound & _).
    destruct (Hfound semantic_stm) as (all & found & db' & Hrun & Htake & Hperm & Hsorted
                                       & _ & _ & _ & _ & _ & Htouch).
    + vm_compute. reflexivity.
    + by left.
    + exists all, found, db'.
      exact (conj Hrun (conj Htake (conj Hperm (conj Hsorted Htouch)))).
  - destruct (getMemoriesFromBucket_ordered 9 "semantic_stm" (Some [1%R; 0%R]) 2
                default_minScore (shelf_db (N := R))) as (_ & _ & Hquery).
    destruct (Hquery semantic_stm [1%R; 0%R])
      as (page & found & db' & Hpage & Hrun & Hperm & _).
    + vm_compute. reflexivity.
    + reflexivity.
    + done.
    + exists page, found, db'. exact (conj Hpage (conj Hrun Hperm)).
Defined.

(** The same retrieval on binary64: of the four chunks of [semantic_stm],
    "d" is under the minimal score; "c" comes first, then "b", which has the
    score of "a" and a later access, and the limit of 2 leaves "a" out.  In
    the store "c" and "b" are accessed at 9, for the first time; "a", "d"
    and "e" are as they were. *)
Example getMemoriesFromBucket_shelf :
  ∃ db',
    getMemoriesFromBucket 9 "semantic_stm" None 2 default_minScore (shelf_db (N := float))
    = (Ok [plain (stm_chunk "c" "third note" [numZ 1; numZ 0] (lit 15 10) 0);
           plain (stm_chunk "b" "second note" [numZ 1; numZ 1] (numZ 1) 2)], db')
    ∧ (λ c, (score c, lastAccessed c, accessCount c)) <$> chunks db' !! "c"
      = Some (lit 15 10, 9, 1%nat)
    ∧ (λ c, (score c, lastAccessed c, accessCount c)) <$> chunks db' !! "b"
      = Some (numZ 1, 9, 1%nat)
    ∧ chunks db' !! "a" = chunks (shelf_db (N := float)) !! "a"
    ∧ chunks db' !! "d" = chunks (shelf_db (N := float)) !! "d"
    ∧ chunks db' !! "e" = chunks (shelf_db (N := float)) !! "e".
Proof.
  eexists. split; [vm_compute; reflexivity |].
  split; [vm_compute; reflexivity |]. split; [vm_compute; reflexivity |].
  split; [vm_compute; reflexivity |]. split; vm_compute; reflexivity.
Qed.

(** Two chunks of [semantic_stm]: "a" with score 1.5 and an embedding
    orthogonal to the query [1, 0]; "b" with score 1 and the embedding of
    the query. *)
Definition ranking_db : Db float :=
  {| buckets := {[ "semantic_stm" := semantic_stm ]};
     chunks := {[ "a" := stm_chunk "a" "orthogonal" [numZ 0; numZ 1] (lit 15 10) 0;
                  "b" := stm_chunk "b" "aligned" [numZ 1; numZ 0] (numZ 1) 0 ]};
     links := []; reflections := [] |}.

(** Counterexample to C4 as stated (binary64).  With the query embedding
    [1, 0] the call returns "b" (score 1, similarity 1) before "a" (score
    1.5, similarity 0): the result is ordered by similarity, and it is not
    non-increasing in score. *)
Lemma getMemoriesFromBucket_query_reorders :
  ∃ first second db',
    getMemoriesFromBucket 5 "semantic_stm" (Some [numZ 1; numZ 0]) 10 default_minScore
      ranking_db = (Ok [first; second], db')
    ∧ chunk_id (chunk first) = "b" ∧ chunk_id (chunk second) = "a"
    ∧ (score (chunk first) <? score (chunk second))%js = true.
Proof. eexists _, _, _. repeat split; vm_compute; reflexivity. Qed.

(** ** The gather phase *)

Section GatherLoop.
Context {N : Type} `{JsNumber N}.

(** The list [pulls] holds, bucket by bucket, what the successive calls of
    [getMemoriesFromBucket] with limit 50 returned, each call running in
    the store that the one before it left; [db'] is the last store. *)
Fixpoint retrievals (now : Z) (scope : list string) (db : Db N)
    (pulls : list (list (Retrieved (N := N)))) (db' : Db N) : Prop :=
  match scope, pulls with
  | [], [] => db' = db
  | bucket :: scope', pull :: pulls' =>
      (length pull ≤ 50)%nat
      ∧ ∃ db1, getMemoriesFromBucket now bucket None 50 default_minScore db
               = (Ok pull, db1)
               ∧ retrievals now scope' db1 pulls' db'
  | _, _ => False
  end.

Lemma gatherLoop_run (now : Z) (scope : list string) :
  ∀ (db : Db N) (allMemories : list Retrieved),
    Forall (λ bucket, is_Some (buckets db !! bucket)) scope →
    ∃ pulls db',
      gatherLoop now scope allMemories db
      = (Ok (allMemories ++ concat pulls)%list, db')
      ∧ retrievals now scope db pulls db'.
Proof.
  induction scope as [|bucket scope IH]; intros db acc Hscope.
  - exists [], db. cbn. by rewrite app_nil_r.
  - apply Forall_cons in Hscope as [[b Hb] Hscope].
    destruct (getMemoriesFromBucket_plain now bucket None 50 default_minScore db b Hb)
      as (db1 & Hrun & Hbuckets & _); [by left |].
    cbn [gatherLoop]. unfold bind. rewrite Hrun.
    destruct (IH db1 (acc ++ (plain <$> pulled (bucket_id b) default_minScore 50 db))%list)
      as (pulls & db' & Hloop & Hpulls).
    { by rewrite Hbuckets. }
    exists ((plain <$> pulled (bucket_id b) default_minScore 50 db) :: pulls), db'.
    split.
    + rewrite Hloop. cbn. by rewrite <- app_assoc.
    + cbn [retrievals]. split.
      * rewrite length_fmap. unfold pulled. rewrite length_take. lia.
      * by exists db1.
Qed.
End GatherLoop.

(** *** A sort whose comparator reads the clock *)
Section SortWithClockFacts.
Context {N : Type} `{JsNumber N} {A : Type} (compareAt : nat → A → A → N).




(** When the answer of the comparator is the same at every call, the result
    is that of the stable sort with that answer. *)
Section Steady.
Variable after : A → A → bool.
Hypothesis steady : ∀ k x y, (compareAt k x y >? numZ 0)%js = after x y.


End Steady.
End SortWithClockFacts.

Section GatherOrder.
Local Open Scope R_scope.









End GatherOrder.


(** A crowded store: 60 chunks "s0" to "s59" in [semantic_stm] and 50
    chunks "l0" to "l49" in [semantic_ltm], the chunk number [i] with score
    [i + 1], and one chunk "t0" with score 0.5 in [episodic_stm]; all were
    accessed at the same time.  The gather phase pulls 50 chunks of the
    first bucket, the 50 of the second and "t0": 101 chunks, one more than
    it returns. *)
Section Crowd.
Context {N : Type} `{JsNumber N}.

Definition episodic_stm : MemoryBucket :=
  {| bucket_id := "bucket-3"; bucket_name := "episodic_stm";
     description := "Episodic Short-Term Memory"; bucketType := STM |}.

Definition crowd_chunk (bucket : Id) (k : Id) (s : N) : MemoryChunk N :=
  {| chunk_id := k; bucketId := bucket; text := "note"; embedding := [];
     metaVector := []; score := s; timestamp := 0; lastAccessed := 0;
     source := "chat"; agentId := None; metadata := [];
     accessCount := 0; decayRate := MEMORY_DECAY_RATES_STM |}.

Definition crowd (bucket : Id) (tag : string) (n : nat) : list (MemoryChunk N) :=
  (λ i, crowd_chunk bucket (tag ++ Number_toString i) (numZ (Z.of_nat (S i)))) <$> seq 0 n.

Definition crowd_db : Db N :=
  {| buckets := {[ "semantic_stm" := semantic_stm; "semantic_ltm" := semantic_ltm;
                   "episodic_stm" := episodic_stm ]};
     chunks := list_to_map
                 ((λ c, (chunk_id c, c))
                    <$> (crowd "bucket-1" "s" 60 ++ crowd "bucket-2" "l" 50
                         ++ [crowd_chunk "bucket-3" "t0" (lit 5 10)])%list);
     links := []; reflections := [] |}.
End Crowd.


(** The gather phase over the shelf, on binary64 and with a clock that
    stands still: "c", "b" and "a" are pulled from [semantic_stm] and "e"
    from [semantic_ltm]; the merged list is put in the order of
    [0.7 * score + 0.3 * (lastAccessed - now)]: "e" (score 2, accessed at
    0: -1.3), "b" (1, at 2: -1.4), "c" (1.5, at 0: -1.65) and "a" (1, at 1:
    -1.7). *)
Example gather_shelf :
  ∃ memories db',
    gatherMemoriesForReflection (λ _, 9) 9 ["semantic_stm"; "semantic_ltm"]
      (shelf_db (N := float)) = (Ok memories, db')
    ∧ (λ m, chunk_id (chunk m)) <$> memories = ["e"; "b"; "c"; "a"].
Proof. eexists _, _. split; vm_compute; reflexivity. Qed.




(** The gather phase over the crowded store (binary64, a clock that stands
    still).  The 50 chunks of [semantic_stm] with the highest scores are
    pulled ("s59" down to "s10"; "s9" is not), all 50 of [semantic_ltm] and
    "t0": 101 chunks are merged.  The result has 100 elements, from "s59",
    the highest score, to "l0", the lowest but one: "t0", the lowest, is cut
    off. *)
Example gather_crowd :
  ∃ memories db',
    gatherMemoriesForReflection (λ _, 5) 5
      ["semantic_stm"; "semantic_ltm"; "episodic_stm"] (crowd_db (N := float))
    = (Ok memories, db')
    ∧ length memories = 100%nat
    ∧ (λ m, chunk_id (chunk m)) <$> memories !! 0%nat = Some "s59"
    ∧ (λ m, chunk_id (chunk m)) <$> memories !! 99%nat = Some "l0"
    ∧ existsb (λ m, String.eqb (chunk_id (chunk m)) "s10") memories = true
    ∧ existsb (λ m, String.eqb (chunk_id (chunk m)) "s9") memories = false
    ∧ existsb (λ m, String.eqb (chunk_id (chunk m)) "t0") memories = false.
Proof.
  eexists _, _. split; [vm_compute; reflexivity |].
  split; [vm_compute; reflexivity |]. split; [vm_compute; reflexivity |].
  split; [vm_compute; reflexivity |]. split; [vm_compute; reflexivity |].
  split; vm_compute; reflexivity.
Qed.

(** ** Discovery of connections *)

Section Discovery.
Context {N : Type} `{JsNumber N}.

(** The pairs of positions that the two loops visit, in the order of the
    visits. *)
Definition windowPairs (n : nat) : list (nat * nat) :=
  i ← seq 0 (n - 1); (λ j, (i, j)) <$> seq (i + 1) (Nat.min 9 (n - (i + 1))).

(** A link between the two chunks is stored, in one direction or the other. *)
Definition linked (db : Db N) (a b : Id) : Prop :=
  ∃ l, l ∈ links db ∧ ((sourceId l = a ∧ targetId l = b)
                       ∨ (sourceId l = b ∧ targetId l = a)).

(** The candidate of a pair of positions, when the pair has one. *)
Definition candidateAt (now : Z) (memories : list (Retrieved (N := N))) (db : Db N)
    (ij : nat * nat) : option (MemoryLink N) :=
  match memories !! ij.1, memories !! ij.2 with
  | Some mi, Some mj =>
      let similarity := calculateTextSimilarity (text (chunk mi)) (text (chunk mj)) in
      if (similarity >? lit 7 10)%js then
        match findFirstLinkBetween (chunk_id (chunk mi)) (chunk_id (chunk mj)) db with
        | (Ok None, _) => Some (candidateLink now ij.1 ij.2 mi mj similarity)
        | _ => None
        end
      else None
  | _, _ => None
  end.

Definition candidates (now : Z) (memories : list (Retrieved (N := N))) (db : Db N)
  : list (MemoryLink N) :=
  omap (candidateAt now memories db) (windowPairs (length memories)).

Lemma elem_of_windowPairs (n i j : nat) :
  (i, j) ∈ windowPairs n ↔ (i < j ∧ j < n ∧ j ≤ i + 9)%nat.
Proof.
  unfold windowPairs. rewrite list_elem_of_bind. split.
  - intros (i' & Hj & Hi). apply list_elem_of_fmap in Hj as (j' & [= <- <-] & Hj).
    apply elem_of_seq in Hi, Hj. lia.
  - intros (Hij & Hjn & Hw). exists i. split.
    + apply list_elem_of_fmap. exists j. split; [done |]. apply elem_of_seq. lia.
    + apply elem_of_seq. lia.
Qed.



Lemma findFirstLinkBetween_None (db : Db N) (a b : Id) :
  findFirstLinkBetween a b db = (Ok None, db) ↔ ¬ linked db a b.
Proof.
  unfold findFirstLinkBetween, linked. split.
  - intros [= Hfind] (l & Hl & Hends).
    apply list_elem_of_In in Hl.
    apply (find_none _ _ Hfind) in Hl.
    apply orb_false_iff in Hl as [H1 H2].
    apply andb_false_iff in H1, H2.
    rewrite !String.eqb_neq in H1, H2. naive_solver.
  - intros Hnone. f_equal. f_equal.
    destruct (List.find _ (links db)) as [l |] eqn:Hfind; [| done].
    exfalso. apply Hnone. apply find_some in Hfind as [Hl Hends].
    exists l. split; [by apply list_elem_of_In |].
    apply orb_true_iff in Hends.
    rewrite !andb_true_iff, !String.eqb_eq in Hends. done.
Qed.


Lemma connectionStep_run (now : Z) (memories : list (Retrieved (N := N)))
    (i j : nat) (acc : list (MemoryLink N)) (db : Db N) :
  connectionStep now memories i j acc db
  = (Ok (acc ++ option_list (candidateAt now memories db (i, j)))%list, db).
Proof.
  unfold connectionStep, candidateAt. cbn [fst snd].
  destruct (memories !! i) as [mi |]; [| by rewrite app_nil_r].
  destruct (memories !! j) as [mj |]; [| by rewrite app_nil_r].
  cbn zeta.
  destruct (calculateTextSimilarity _ _ >? lit 7 10)%js; [| by rewrite app_nil_r].
  unfold bind, findFirstLinkBetween.
  destruct (List.find _ (links db)); cbn; [by rewrite app_nil_r | done].
Qed.

Lemma innerLoop_run now (memories : list (Retrieved (N := N))) (i : nat)
    (js : list nat) :
  ∀ (acc : list (MemoryLink N)) (db : Db N),
    forLoop (connectionStep now memories i) js acc db
    = (Ok (acc ++ omap (candidateAt now memories db) ((λ j, (i, j)) <$> js))%list, db).
Proof.
  induction js as [|j js IH]; intros acc db; cbn.
  - by rewrite app_nil_r.
  - unfold bind. rewrite connectionStep_run, IH.
    destruct (candidateAt now memories db (i, j)); cbn;
      by rewrite <- ?app_assoc, ?app_nil_r.
Qed.

Lemma outerLoop_run now (memories : list (Retrieved (N := N))) (range : nat → list nat)
    (outer : list nat) :
  ∀ (acc : list (MemoryLink N)) (db : Db N),
    forLoop (λ i acc, forLoop (connectionStep now memories i) (range i) acc) outer acc db
    = (Ok (acc ++ omap (candidateAt now memories db)
                       (i ← outer; (λ j, (i, j)) <$> range i))%list, db).
Proof.
  induction outer as [|i outer IH]; intros acc db; cbn.
  - by rewrite app_nil_r.
  - unfold bind. rewrite innerLoop_run, IH.
    by rewrite omap_app, app_assoc.
Qed.

(** The two loops push the candidates of the visited pairs, in the order of
    the visits; the store is only read. *)
Lemma discoverMemoryConnections_run now (memories : list (Retrieved (N := N)))
    (db : Db N) :
  discoverMemoryConnections now memories db
  = (Ok (take 10 (candidates now memories db)), db).
Proof.
  unfold discoverMemoryConnections, bind.
  by rewrite (outerLoop_run now memories
                (λ i, seq (i + 1) (Nat.min 9 (length memories - (i + 1))))).
Qed.



(** The set of tokens of a text. *)
Definition tokens (t : string) : gset string :=
  list_to_set (split_whitespace (toLowerCase t)).

(** The similarity is the Jaccard index of the two token sets. *)
Lemma calculateTextSimilarity_jaccard (text1 text2 : string) :
  calculateTextSimilarity text1 text2
  = (numZ (Z.of_nat (size (tokens text1 ∩ tokens text2)))
     / numZ (Z.of_nat (size (tokens text1 ∪ tokens text2))))%js.
Proof.
  unfold calculateTextSimilarity. fold (tokens text1) (tokens text2).
  f_equal; do 2 f_equal; f_equal; apply set_eq; intros x.
  - rewrite elem_of_filter. set_solver.
  - rewrite elem_of_list_to_set, elem_of_app, !elem_of_elements. set_solver.
Qed.
End Discovery.

(** ** The words of a text *)

(** White space: tab, line feed, vertical tab, form feed, carriage return,
    space and no-break space. *)
Definition isSpace (c : ascii) : Prop :=
  nat_of_ascii c ∈ [9; 10; 11; 12; 13; 32; 160]%nat.

(** [d] is the lower-case form of [c]: the letter 32 above for the
    upper-case letters (A-Z, and U+00C0 to U+00DE without the sign U+00D7),
    and [c] itself otherwise. *)
Definition lowerCaseOf (c d : ascii) : Prop :=
  let n := nat_of_ascii c in
  nat_of_ascii d
  = if decide ((65 ≤ n ≤ 90) ∨ (192 ≤ n ≤ 214) ∨ (216 ≤ n ≤ 222))%nat
    then (n + 32)%nat else n.

(** [w] is a word of the text [t]: in the lower-case form of [t] it is a
    stretch without white space that has white space or nothing before it
    and white space or nothing after it; the empty word is a word only at
    the start or at the end of the text (of a text that starts or ends with
    white space, and of the empty text). *)
Definition wordOf (t w : string) : Prop :=
  ∃ pre post : list ascii,
    Forall2 lowerCaseOf (list_ascii_of_string t)
            (pre ++ list_ascii_of_string w ++ post)
    ∧ Forall (λ c, ¬ isSpace c) (list_ascii_of_string w)
    ∧ (pre = [] ∨ ∃ c, last pre = Some c ∧ isSpace c)
    ∧ (post = [] ∨ ∃ c, head post = Some c ∧ isSpace c)
    ∧ (w = "" → pre = [] ∨ post = []).

Section Words.
Local Abbreviation chars := list_ascii_of_string.

Lemma chars_inj (s1 s2 : string) : chars s1 = chars s2 → s1 = s2.
Proof.
  intros Heq. rewrite <- (string_of_list_ascii_of_string s1),
    <- (string_of_list_ascii_of_string s2). by rewrite Heq.
Qed.

Lemma chars_app (s1 s2 : string) : chars (s1 ++ s2) = (chars s1 ++ chars s2)%list.
Proof.
  induction s1 as [|c s1 IH]; [done |].
  change (String c s1 ++ s2) with (String c (s1 ++ s2)). cbn. by rewrite IH.
Qed.

Lemma is_whitespace_spec (c : ascii) : is_whitespace c = true ↔ isSpace c.
Proof.
  unfold is_whitespace, isSpace. generalize (nat_of_ascii c). intros n.
  rewrite !orb_true_iff, andb_true_iff, !Nat.leb_le, !Nat.eqb_eq.
  rewrite !elem_of_cons, elem_of_nil. lia.
Qed.

Lemma is_whitespace_false (c : ascii) : is_whitespace c = false ↔ ¬ isSpace c.
Proof. rewrite <- is_whitespace_spec. by destruct (is_whitespace c). Qed.

Lemma lower_unit_spec (c d : ascii) : lowerCaseOf c d ↔ d = lower_unit c.
Proof.
  unfold lowerCaseOf, lower_unit. cbn zeta.
  pose proof (nat_ascii_bounded c) as Hc. set (n := nat_of_ascii c) in *.
  assert (Hcode : nat_of_ascii
                    (if ((65 <=? n)%nat && (n <=? 90)%nat)
                        || ((192 <=? n)%nat && (n <=? 214)%nat)
                        || ((216 <=? n)%nat && (n <=? 222)%nat)
                     then ascii_of_nat (n + 32) else c)
                  = if decide ((65 ≤ n ≤ 90) ∨ (192 ≤ n ≤ 214) ∨ (216 ≤ n ≤ 222))%nat
                    then (n + 32)%nat else n).
  { case_decide as Hup.
    - assert (((65 <=? n)%nat && (n <=? 90)%nat)
              || ((192 <=? n)%nat && (n <=? 214)%nat)
              || ((216 <=? n)%nat && (n <=? 222)%nat) = true) as ->.
      { rewrite !orb_true_iff, !andb_true_iff, !Nat.leb_le. lia. }
      apply nat_ascii_embedding. lia.
    - assert (((65 <=? n)%nat && (n <=? 90)%nat)
              || ((192 <=? n)%nat && (n <=? 214)%nat)
              || ((216 <=? n)%nat && (n <=? 222)%nat) = false) as ->; [| done].
      apply not_true_iff_false. rewrite !orb_true_iff, !andb_true_iff, !Nat.leb_le. lia. }
  rewrite <- Hcode. split; [| by intros ->].
  intros Heq. rewrite <- (ascii_nat_embedding d), Heq. apply ascii_nat_embedding.
Qed.

Lemma toLowerCase_spec (t : string) (l : list ascii) :
  Forall2 lowerCaseOf (chars t) l ↔ l = chars (toLowerCase t).
Proof.
  revert l. induction t as [|c t IH]; intros l; cbn.
  - split; [by intros ->%Forall2_nil_inv_l | intros ->; constructor].
  - split.
    + intros (d & l' & Hd & Hl & ->)%Forall2_cons_inv_l.
      apply lower_unit_spec in Hd as ->. by apply IH in Hl as ->.
    + intros ->. constructor; [by apply lower_unit_spec | by apply IH].
Qed.

(** A piece of the list [L]: a stretch without white space between white
    space or the ends of [L]; [pieceAfter] leaves out the empty piece at the
    start. *)
Definition leftEdge (pre : list ascii) : Prop :=
  pre = [] ∨ ∃ c, last pre = Some c ∧ isSpace c.
Definition rightEdge (post : list ascii) : Prop :=
  post = [] ∨ ∃ c, head post = Some c ∧ isSpace c.
Definition piece (L W : list ascii) : Prop :=
  ∃ pre post, L = (pre ++ W ++ post)%list ∧ Forall (λ c, ¬ isSpace c) W
              ∧ leftEdge pre ∧ rightEdge post ∧ (W = [] → pre = [] ∨ post = []).
Definition pieceAfter (L W : list ascii) : Prop :=
  ∃ pre post, L = (pre ++ W ++ post)%list ∧ Forall (λ c, ¬ isSpace c) W
              ∧ leftEdge pre ∧ rightEdge post ∧ (W = [] → post = []).

Lemma leftEdge_plain (pre : list ascii) :
  Forall (λ c, ¬ isSpace c) pre → leftEdge pre → pre = [].
Proof.
  intros Hpre [-> | (c & Hlast & Hc)]; [done |].
  apply last_Some in Hlast as [l' ->]. apply Forall_app in Hpre as [_ Hc'].
  rewrite Forall_singleton in Hc'. contradiction.
Qed.

Lemma rightEdge_plain (post : list ascii) :
  Forall (λ c, ¬ isSpace c) post → rightEdge post → post = [].
Proof.
  intros Hpost [-> | (c & Hhead & Hc)]; [done |].
  destruct post as [|d post]; [done |]. injection Hhead as ->.
  by apply Forall_cons in Hpost as [? _].
Qed.

Lemma leftEdge_cons (c : ascii) (pre : list ascii) :
  isSpace c → leftEdge pre → leftEdge (c :: pre).
Proof.
  intros Hc [-> | (d & Hlast & Hd)]; right.
  - by exists c.
  - exists d. split; [| done]. destruct pre; [done |]. by rewrite last_cons, Hlast.
Qed.

Lemma leftEdge_tail (c : ascii) (pre : list ascii) : leftEdge (c :: pre) → leftEdge pre.
Proof.
  intros [? | (d & Hlast & Hd)]; [done |].
  destruct pre as [|e pre]; [by left |]. right. exists d. split; [| done].
  rewrite last_cons in Hlast.
  destruct (last (e :: pre)) eqn:Hl; [done | by apply last_None in Hl].
Qed.

Lemma leftEdge_app (P pre : list ascii) : leftEdge pre → pre ≠ [] → leftEdge (P ++ pre).
Proof.
  intros [-> | (d & Hlast & Hd)] Hne; [done |]. right. exists d.
  split; [| done]. by rewrite last_app, Hlast.
Qed.

Lemma leftEdge_drop (P pre : list ascii) : leftEdge (P ++ pre) → pre ≠ [] → leftEdge pre.
Proof.
  intros [Hnil | (d & Hlast & Hd)] Hne.
  - by apply app_eq_nil in Hnil as [_ ->].
  - right. exists d. split; [| done]. rewrite last_app in Hlast.
    destruct (last pre) eqn:Hl; [done |]. by apply last_None in Hl.
Qed.

Lemma splitLoop_pieces (s : string) :
  (∀ p, Forall (λ c, ¬ isSpace c) (chars p) →
        ∀ w, w ∈ splitLoop false p s ↔ piece (chars p ++ chars s) (chars w))
  ∧ (∀ w, w ∈ splitLoop true "" s ↔ pieceAfter (chars s) (chars w)).
Proof.
  induction s as [|c s [IHfalse IHtrue]].
  - split.
    + intros p Hp w. cbn [splitLoop chars]. rewrite app_nil_r, list_elem_of_singleton.
      split.
      * intros ->. exists [], []. rewrite app_nil_r. cbn.
        split; [done |]. split; [done |]. split; [by left |]. split; [by left | by left].
      * intros (pre & post & Heq & Hw & Hl & Hr & _).
        rewrite Heq in Hp. apply Forall_app in Hp as [Hpre Hp].
        apply Forall_app in Hp as [_ Hpost].
        apply leftEdge_plain in Hl as ->; [| done].
        apply rightEdge_plain in Hr as ->; [| done].
        rewrite app_nil_r in Heq. cbn in Heq. by apply chars_inj.
    + intros w. cbn [splitLoop chars]. rewrite list_elem_of_singleton. split.
      * intros ->. exists [], []. cbn.
        split; [done |]. split; [done |]. split; [by left |]. split; [by left | done].
      * intros (pre & post & Heq & _). symmetry in Heq.
        apply app_eq_nil in Heq as [_ Heq]. apply app_eq_nil in Heq as [Heq _].
        by apply chars_inj.
  - destruct (is_whitespace c) eqn:Hws.
    + (* white space *)
      pose proof (proj1 (is_whitespace_spec c) Hws) as Hc. split.
      * intros p Hp w. cbn [splitLoop chars]. rewrite Hws.
        rewrite elem_of_cons, IHtrue. split.
        -- intros [-> | (pre & post & Heq & Hw & Hl & Hr & Hempty)].
           ++ exists [], (c :: chars s). cbn.
              split; [done |]. split; [done |]. split; [by left |].
              split; [right; by exists c | by left].
           ++ exists (chars p ++ c :: pre)%list, post.
              split; [rewrite Heq; by rewrite <- app_assoc |]. split; [done |].
              split; [apply leftEdge_app; [by apply leftEdge_cons | done] |].
              split; [done |]. intros HW. right. by apply Hempty.
        -- intros (pre & post & Heq & Hw & Hl & Hr & Hempty).
           apply app_eq_app in Heq as [l [[Hp' Hrest] | [Hpre Hrest]]].
           ++ (* the piece starts in the accumulated word *)
              rewrite Hp' in Hp. apply Forall_app in Hp as [Hpre Hl'].
              apply leftEdge_plain in Hl as ->; [| done]. cbn in Hp'. subst l.
              apply app_eq_app in Hrest as [m [[HW Hpost] | [HP Hpost]]].
              ** destruct m as [|d m].
                 { rewrite app_nil_r in HW. left. by apply chars_inj. }
                 cbn in Hpost. injection Hpost as <- _. rewrite HW in Hw.
                 apply Forall_app in Hw as [_ Hw]. by apply Forall_cons in Hw as [? _].
              ** destruct m as [|d m].
                 { rewrite app_nil_r in HP. left. by apply chars_inj. }
                 rewrite HP in Hl'. apply Forall_app in Hl' as [_ Hm].
                 apply Forall_cons in Hm as [Hd _].
                 destruct Hr as [Hnil | (e & Hhead & He)];
                   [by rewrite Hpost in Hnil |].
                 rewrite Hpost in Hhead. cbn in Hhead. by injection Hhead as ->.
           ++ (* the piece starts after the white space *)
              destruct l as [|d l].
              ** rewrite app_nil_r in Hpre. subst pre. cbn in Hrest.
                 apply leftEdge_plain in Hl; [| done].
                 destruct (chars w) as [|e W] eqn:HW.
                 { cbn in Hrest. destruct (Hempty eq_refl) as [_ | Hpost].
                   - left. apply chars_inj. by rewrite HW, Hl.
                   - by rewrite Hpost in Hrest. }
                 cbn in Hrest. injection Hrest as <- _.
                 by apply Forall_cons in Hw as [? _].
              ** cbn in Hrest. injection Hrest as <- Hs. right.
                 exists l, post. split; [done |]. split; [done |].
                 split; [| split; [done |]].
                 { rewrite Hpre in Hl. apply leftEdge_drop in Hl; [| done].
                   by apply leftEdge_tail in Hl. }
                 intros HW. destruct (Hempty HW) as [Hnil | Hpost]; [| done].
                 rewrite Hpre in Hnil. by apply app_eq_nil in Hnil as [_ ?].
      * intros w. cbn [splitLoop chars]. rewrite Hws.
        rewrite IHtrue. split.
        -- intros (pre & post & Heq & Hw & Hl & Hr & Hempty).
           exists (c :: pre), post. split; [by rewrite Heq |]. split; [done |].
           split; [by apply leftEdge_cons | done].
        -- intros (pre & post & Heq & Hw & Hl & Hr & Hempty).
           destruct pre as [|d pre].
           ++ cbn in Heq. destruct (chars w) as [|e W] eqn:HW.
              ** cbn in Heq. by rewrite (Hempty eq_refl) in Heq.
              ** cbn in Heq. injection Heq as -> _. by apply Forall_cons in Hw as [? _].
           ++ cbn in Heq. injection Heq as <- Heq.
              exists pre, post. split; [done |]. split; [done |].
              split; [by apply leftEdge_tail in Hl | done].
    + (* a character of a word *)
      pose proof (proj1 (is_whitespace_false c) Hws) as Hc. split.
      * intros p Hp w. cbn [splitLoop chars]. rewrite Hws.
        rewrite IHfalse.
        -- rewrite chars_app. cbn. by rewrite <- app_assoc.
        -- rewrite chars_app. apply Forall_app. split; [done |]. by apply Forall_singleton.
      * intros w. cbn [splitLoop chars]. rewrite Hws.
        change ("" ++ String c "") with (String c "").
        rewrite IHfalse by (by apply Forall_singleton). cbn. split.
        -- intros (pre & post & Heq & Hw & Hl & Hr & Hempty).
           exists pre, post. split; [done |]. split; [done |]. split; [done |].
           split; [done |]. intros HW. destruct (Hempty HW) as [-> | ?]; [| done].
           rewrite HW in Heq. cbn in Heq.
           destruct Hr as [? | (e & Hhead & He)]; [done |].
           rewrite <- Heq in Hhead. cbn in Hhead. by injection Hhead as ->.
        -- intros (pre & post & Heq & Hw & Hl & Hr & Hempty).
           exists pre, post. split; [done |]. split; [done |]. split; [done |].
           split; [done |]. intros HW. right. by apply Hempty.
Qed.

Lemma elem_of_split_whitespace (s w : string) :
  w ∈ split_whitespace s ↔ piece (chars s) (chars w).
Proof.
  unfold split_whitespace.
  destruct (splitLoop_pieces s) as [Hfalse _]. by rewrite Hfalse.
Qed.

(** The tokens of a text are its words. *)
Lemma elem_of_tokens (t w : string) : w ∈ tokens t ↔ wordOf t w.
Proof.
  unfold tokens. rewrite elem_of_list_to_set, elem_of_split_whitespace.
  unfold piece, wordOf. split.
  - intros (pre & post & Heq & Hw & Hl & Hr & Hempty).
    exists pre, post. split; [by apply toLowerCase_spec |].
    split; [done |]. split; [done |]. split; [done |]. intros ->. by apply Hempty.
  - intros (pre & post & Heq & Hw & Hl & Hr & Hempty).
    exists pre, post. split; [symmetry; by apply toLowerCase_spec |].
    split; [done |]. split; [done |]. split; [done |]. intros HW. apply Hempty.
    by apply chars_inj.
Qed.
End Words.

Section OneCandidate.
Context {N : Type} `{JsNumber N}.

End OneCandidate.



Example similarity_five_sixths :
  calculateTextSimilarity "the cat sat on the mat" "The cat sat on the mat today"
  = lit 5 6 :> float.
Proof. vm_compute. reflexivity. Qed.

Example similarity_scenario_C :
  calculateTextSimilarity "the cat sat on the mat" "a cat sits on a mat"
  = lit 3 7 :> float
  ∧ discoverMemoryConnections 0
      [plain (stm_chunk "m0" "the cat sat on the mat" [] (numZ 1) 0);
       plain (stm_chunk "m1" "a cat sits on a mat" [] (numZ 1) 0)]
      (empty_db (N := float))
    = (Ok [], empty_db).
Proof. split; vm_compute; reflexivity. Qed.

(** Letters and white space above 127.  The upper-case letter U+00C9 (201)
    has the lower-case form U+00E9 (233), so that a text in capitals has
    the words of its lower-case form; the no-break space U+00A0 (160)
    separates words, and at the start of a text it leaves the empty word
    before it. *)
Definition E_acute : string := String (ascii_of_nat 201) "".
Definition e_acute : string := String (ascii_of_nat 233) "".
Definition no_break_space : string := String (ascii_of_nat 160) "".

Example similarity_capitals :
  calculateTextSimilarity ("CAF" ++ E_acute ++ " au lait") ("caf" ++ e_acute ++ " au lait")
  = numZ 1 :> float.
Proof. vm_compute. reflexivity. Qed.

Example similarity_no_break_space :
  split_whitespace ("a " ++ no_break_space ++ "x") = ["a"; "x"]
  ∧ split_whitespace (no_break_space ++ "x a") = [""; "x"; "a"]
  ∧ calculateTextSimilarity ("a " ++ no_break_space ++ "x") (no_break_space ++ "x a")
    = lit 2 3 :> float.
Proof. split; [| split]; vm_compute; reflexivity. Qed.




(** ** The score of a stored chunk *)

Section ScoreInvariant.
Local Open Scope R_scope.
Variable Math_pow : R → R → R.

(** Every stored chunk has a score that is not negative and a decay rate
    strictly between 0 and 1. *)
Definition scoresValid (db : Db R) : Prop :=
  ∀ k c, chunks db !! k = Some c → 0 <= score c ∧ 0 < decayRate c < 1.

Definition boostNonNegative (step : Z * Operation R) : Prop :=
  match step with
  | (_, OpBoost _ boost) => 0 <= boost
  | _ => True
  end.

Lemma addMemoryChunk_valid now bucketName text embedding metaVector source (db : Db R) :
  scoresValid db →
  scoresValid (addMemoryChunk now bucketName text embedding metaVector source
                 None [] db).2.
Proof.
  intros Hdb. unfold addMemoryChunk, bind, findUniqueBucket.
  destruct (buckets db !! bucketName) as [bucket |]; [| done].
  unfold createChunk. cbn [snd]. intros k c. cbn [chunks set_chunks].
  destruct (decide (k = fresh (dom (chunks db)))) as [-> | Hne].
  - rewrite lookup_insert_eq. intros [= <-]. cbn.
    unfold MEMORY_DECAY_RATES_STM, MEMORY_DECAY_RATES_LTM, MEMORY_DECAY_RATES_RL, lit.
    destruct (bucketType bucket); cbn; lra.
  - rewrite lookup_insert_ne by done. apply Hdb.
Qed.

Lemma boostMemory_valid now chunkId boost (db : Db R) :
  0 <= boost → scoresValid db → scoresValid (boostMemory now chunkId boost db).2.
Proof.
  intros Hboost Hdb. unfold boostMemory, updateChunk.
  destruct (chunks db !! chunkId) as [c0 |] eqn:Hc0; [| done].
  cbn [snd]. intros k c. cbn [chunks set_chunks].
  destruct (decide (k = chunkId)) as [-> | Hne].
  - rewrite lookup_insert_eq. intros [= <-]. cbn.
    destruct (Hdb chunkId c0 Hc0). split; lra.
  - rewrite lookup_insert_ne by done. apply Hdb.
Qed.

Lemma applyMemoryDecay_valid now (db : Db R) :
  scoresValid db → scoresValid (applyMemoryDecay Math_pow now db).2.
Proof.
  intros Hdb.
  destruct (applyMemoryDecay_run Math_pow now db)
    as (cnt & db' & -> & _ & _ & _ & _ & _ & _ & Hchunks).
  cbn [snd]. intros k c. rewrite Hchunks, lookup_omap.
  destruct (chunks db !! k) as [c0 |] eqn:Hc0; [| done]. cbn.
  destruct (Hdb k c0 Hc0) as [Hs Hr].
  unfold decayOutcome, nneb, lit. cbn [nltb neqb ndiv numZ real_number].
  generalize (decayedScore Math_pow now c0). intros newScore.
  destruct (bool_decide (newScore < 5 / 100)) eqn:Hlow; [done |].
  apply bool_decide_eq_false in Hlow.
  destruct (negb _); intros [= <-]; [| done].
  cbn [score decayRate set_score]. split; lra.
Qed.
End ScoreInvariant.

(** C8, as amended.  Over every sequence of [addMemoryChunk] (score 1.0),
    [boostMemory] with an amount that is not negative, and [applyMemoryDecay],
    from a store where it holds: every chunk in the store has a score of at
    least 0 and a decay rate strictly between 0 and 1.  (Numbers are reals;
    [Math.pow] is any function.) *)
Theorem score_never_negative (Math_pow : R → R → R) (steps : list (Z * Operation R))
    (db : Db R) :
  scoresValid db →
  Forall boostNonNegative steps →
  scoresValid (runOperations Math_pow steps db).
Proof.
  intros Hdb Hsteps. revert db Hdb. unfold runOperations.
  induction Hsteps as [|[now op] steps Hstep _ IH]; intros db Hdb; [done |].
  cbn [foldl]. apply IH. destruct op as [bucketName text emb meta source | k boost |].
  - by apply addMemoryChunk_valid.
  - by apply boostMemory_valid.
  - by apply applyMemoryDecay_valid.
Qed.

Lemma score_never_negative_witness :
  scoresValid (runOperations real_pow
                 [(0, OpAddChunk "semantic_stm" "note" [] [] "chat");
                  (hours 1, OpBoost "0" (lit 1 10));
                  (hours 100, OpApplyDecay)]
                 empty_db).
Proof.
  apply score_never_negative.
  - intros k c Hc. unfold empty_db in Hc. cbn [chunks] in Hc.
    by rewrite lookup_empty in Hc.
  - repeat constructor. unfold lit. cbn. lra.
Defined.

(** Counterexample to C8 as stated (binary64): a chunk is added, with score
    1.0, and boosted by -2; it is in the store with score -1. *)
Lemma negative_boost_negative_score :
  ∃ c, chunks (runOperations float_pow
                 [(0, OpAddChunk "semantic_stm" "note" [] [] "chat");
                  (hours 1, OpBoost "0" (numZ (-2)))]
                 empty_db) !! "0" = Some c
       ∧ score c = numZ (-1)
       ∧ (score c <? numZ 0)%js = true.
Proof. eexists. repeat split; vm_compute; reflexivity. Qed.

(** * Further properties of the services *)

(** ** Initialisation of the buckets *)

Section Initialisation.
Context {N : Type} `{JsNumber N}.

(** The bucket that [initializeBucket] creates in [db]. *)
Definition newBucket (config : BucketConfig) (db : Db N) : MemoryBucket :=
  {| bucket_id := fresh (bucketIds db);
     bucket_name := config_name config;
     description := config_description config;
     bucketType := config_bucketType config |}.

(** The store after the loop body: a configured bucket that is missing is
    created. *)
Definition registerBucket (db : Db N) (config : BucketConfig) : Db N :=
  match buckets db !! config_name config with
  | Some _ => db
  | None => set_buckets (<[config_name config := newBucket config db]> (buckets db)) db
  end.

Lemma initializeBucket_run (config : BucketConfig) (db : Db N) :
  initializeBucket config db = (Ok tt, registerBucket db config).
Proof.
  unfold initializeBucket, try_catch, bind, findUniqueBucket, registerBucket, createBucket.
  destruct (buckets db !! config_name config) eqn:Hc; cbn; [done |].
  by rewrite Hc.
Qed.

Lemma forEach_initializeBucket (configs : list BucketConfig) :
  ∀ db : Db N,
    forEach initializeBucket configs db = (Ok tt, foldl registerBucket db configs).
Proof.
  induction configs as [|config configs IH]; intros db; [done |].
  cbn [forEach foldl]. unfold bind. by rewrite initializeBucket_run, IH.
Qed.

Lemma elem_of_bucketIds (db : Db N) (i : Id) :
  i ∈ bucketIds db ↔ ∃ name bucket, buckets db !! name = Some bucket ∧ bucket_id bucket = i.
Proof.
  unfold bucketIds. rewrite elem_of_list_to_set, list_elem_of_fmap. split.
  - intros (b & -> & Hb). apply list_elem_of_fmap in Hb as ([name b'] & -> & Hb).
    apply elem_of_map_to_list in Hb. by exists name, b'.
  - intros (name & b & Hb & <-). exists b. split; [done |].
    apply list_elem_of_fmap. exists (name, b). split; [done |].
    by apply elem_of_map_to_list.
Qed.

Lemma registerBucket_tables (db : Db N) config :
  chunks (registerBucket db config) = chunks db
  ∧ links (registerBucket db config) = links db
  ∧ reflections (registerBucket db config) = reflections db.
Proof. unfold registerBucket. by destruct (buckets db !! _). Qed.

Lemma registerBucket_keeps (db : Db N) config name bucket :
  buckets db !! name = Some bucket →
  buckets (registerBucket db config) !! name = Some bucket.
Proof.
  intros Hb. unfold registerBucket.
  destruct (buckets db !! config_name config) eqn:Hc; [done |]. cbn.
  rewrite lookup_insert_ne; [done |]. congruence.
Qed.

Lemma registerBucket_other (db : Db N) config name :
  name ≠ config_name config →
  buckets (registerBucket db config) !! name = buckets db !! name.
Proof.
  intros Hne. unfold registerBucket.
  destruct (buckets db !! config_name config) eqn:Hc; [done |]. cbn.
  by rewrite lookup_insert_ne.
Qed.

Lemma registerBucket_new (db : Db N) config :
  buckets db !! config_name config = None →
  buckets (registerBucket db config) !! config_name config = Some (newBucket config db).
Proof.
  intros Hc. unfold registerBucket. rewrite Hc. cbn. by rewrite lookup_insert_eq.
Qed.

Lemma registerBucket_ids (db : Db N) config :
  bucketIds db ⊆ bucketIds (registerBucket db config).
Proof.
  intros i. rewrite !elem_of_bucketIds. intros (name & b & Hb & Hi).
  exists name, b. split; [| done]. by apply registerBucket_keeps.
Qed.

Lemma registerBuckets_tables (configs : list BucketConfig) :
  ∀ db : Db N,
    chunks (foldl registerBucket db configs) = chunks db
    ∧ links (foldl registerBucket db configs) = links db
    ∧ reflections (foldl registerBucket db configs) = reflections db.
Proof.
  induction configs as [|config configs IH]; intros db; [done |]. cbn [foldl].
  destruct (IH (registerBucket db config)) as (-> & -> & ->).
  apply registerBucket_tables.
Qed.

Lemma registerBuckets_keep (configs : list BucketConfig) :
  ∀ (db : Db N) name bucket,
    buckets db !! name = Some bucket →
    buckets (foldl registerBucket db configs) !! name = Some bucket.
Proof.
  induction configs as [|config configs IH]; intros db name bucket Hb; [done |].
  cbn [foldl]. by apply IH, registerBucket_keeps.
Qed.

Lemma registerBuckets_other (configs : list BucketConfig) :
  ∀ (db : Db N) name,
    name ∉ config_name <$> configs →
    buckets (foldl registerBucket db configs) !! name = buckets db !! name.
Proof.
  induction configs as [|config configs IH]; intros db name Hname; [done |].
  cbn [foldl]. rewrite fmap_cons, not_elem_of_cons in Hname.
  destruct Hname as [Hne Hname]. rewrite IH by done. by apply registerBucket_other.
Qed.

Lemma registerBuckets_new (configs : list BucketConfig) :
  ∀ (db : Db N) config,
    NoDup (config_name <$> configs) →
    config ∈ configs →
    buckets db !! config_name config = None →
    ∃ bucket,
      buckets (foldl registerBucket db configs) !! config_name config = Some bucket
      ∧ bucket_name bucket = config_name config
      ∧ description bucket = config_description config
      ∧ bucketType bucket = config_bucketType config
      ∧ bucket_id bucket ∉ bucketIds db.
Proof.
  induction configs as [|c configs IH]; intros db config Hnd Hin Hnone.
  - by apply elem_of_nil in Hin.
  - rewrite fmap_cons in Hnd. apply NoDup_cons in Hnd as [Hc Hnd].
    cbn [foldl]. apply elem_of_cons in Hin as [-> | Hin].
    + exists (newBucket c db). split.
      * by apply registerBuckets_keep, registerBucket_new.
      * repeat split; try done. cbn. apply is_fresh.
    + assert (Hne : config_name config ≠ config_name c).
      { intros Heq. apply Hc. rewrite <- Heq. by apply list_elem_of_fmap_2. }
      destruct (IH (registerBucket db c) config Hnd Hin)
        as (b & Hb & Hn & Hd & Ht & Hi).
      { by rewrite registerBucket_other. }
      exists b. repeat split; try done.
      intros Hold. by apply Hi, registerBucket_ids.
Qed.

Lemma registerBuckets_registered (configs : list BucketConfig) :
  ∀ (db : Db N) config,
    config ∈ configs →
    is_Some (buckets (foldl registerBucket db configs) !! config_name config).
Proof.
  induction configs as [|c configs IH]; intros db config Hin.
  - by apply elem_of_nil in Hin.
  - cbn [foldl]. apply elem_of_cons in Hin as [-> | Hin]; [| by apply IH].
    destruct (buckets db !! config_name c) as [b |] eqn:Hc.
    + exists b. by apply registerBuckets_keep, registerBucket_keeps.
    + eexists. by apply registerBuckets_keep, registerBucket_new.
Qed.

Lemma registerBuckets_noop (configs : list BucketConfig) (db : Db N) :
  (∀ config, config ∈ configs → is_Some (buckets db !! config_name config)) →
  foldl registerBucket db configs = db.
Proof.
  induction configs as [|c configs IH]; intros Hall; [done |]. cbn [foldl].
  assert (Hc : registerBucket db c = db).
  { unfold registerBucket. destruct (Hall c) as [b ->]; [left | done]. }
  rewrite Hc. apply IH. intros config Hin. apply Hall. by right.
Qed.

Lemma bucketConfigs_names : config_name <$> bucketConfigs = MEMORY_BUCKET_NAMES.
Proof. reflexivity. Qed.

Lemma NoDup_MEMORY_BUCKET_NAMES : NoDup MEMORY_BUCKET_NAMES.
Proof. unfold MEMORY_BUCKET_NAMES. repeat (constructor; [set_solver |]). constructor. Qed.
End Initialisation.

(** X1.  [initializeMemoryBuckets] returns on every store and touches
    only the bucket table.  The names it configures are the ten names of
    [MEMORY_BUCKET_NAMES]; after the call each of them is a stored bucket.
    A bucket that was stored stays as it was (also one with a configured
    name: it is not overwritten), a name outside the ten is as before, and
    a configured bucket that was missing is created with its configured
    name, description and type, under an id that no bucket had. *)
Theorem initializeMemoryBuckets_registers {N : Type} `{JsNumber N} (db : Db N) :
  ∃ db',
    initializeMemoryBuckets db = (Ok tt, db')
    ∧ chunks db' = chunks db ∧ links db' = links db
    ∧ reflections db' = reflections db
    ∧ config_name <$> bucketConfigs = MEMORY_BUCKET_NAMES
    ∧ (∀ name, name ∈ MEMORY_BUCKET_NAMES → is_Some (buckets db' !! name))
    ∧ (∀ name bucket, buckets db !! name = Some bucket →
                      buckets db' !! name = Some bucket)
    ∧ (∀ name, name ∉ MEMORY_BUCKET_NAMES → buckets db' !! name = buckets db !! name)
    ∧ (∀ config, config ∈ bucketConfigs →
         buckets db !! config_name config = None →
         ∃ bucket,
           buckets db' !! config_name config = Some bucket
           ∧ bucket_name bucket = config_name config
           ∧ description bucket = config_description config
           ∧ bucketType bucket = config_bucketType config
           ∧ bucket_id bucket ∉ bucketIds db).
Proof.
  exists (foldl registerBucket db bucketConfigs).
  split; [apply forEach_initializeBucket |].
  destruct (registerBuckets_tables bucketConfigs db) as (Hc & Hl & Hr).
  split; [done |]. split; [done |]. split; [done |]. split; [done |].
  split; [| split; [| split]].
  - intros name Hname. rewrite <- bucketConfigs_names in Hname.
    apply list_elem_of_fmap in Hname as (config & -> & Hin).
    by apply registerBuckets_registered.
  - intros name bucket. apply registerBuckets_keep.
  - intros name Hname. apply registerBuckets_other. by rewrite bucketConfigs_names.
  - intros config Hin Hnone. apply registerBuckets_new; try done.
    rewrite bucketConfigs_names. apply NoDup_MEMORY_BUCKET_NAMES.
Qed.

(** X2.  [initializeMemoryBuckets] is idempotent: a second call returns
    and leaves the store that the first call left. *)
Theorem initializeMemoryBuckets_idempotent {N : Type} `{JsNumber N} (db : Db N) :
  initializeMemoryBuckets (initializeMemoryBuckets db).2
  = (Ok tt, (initializeMemoryBuckets db).2).
Proof.
  unfold initializeMemoryBuckets. rewrite !forEach_initializeBucket. cbn [snd].
  f_equal. apply registerBuckets_noop. intros config Hin.
  by apply registerBuckets_registered.
Qed.

(** ** Sequences of service calls *)

Inductive ServiceCall (N : Type) :=
| CallInitialize
| CallAddChunk (bucketName text : string) (embedding metaVector : list N)
               (source : string) (agentId : option string)
               (metadata : list (string * string))
| CallGetMemories (bucketName : string) (queryEmbedding : option (list N))
                  (limit : nat) (minScore : N)
| CallSearch (query : string) (queryEmbedding : list N)
             (buckets : option (list string)) (limit : nat)
| CallCreateLink (source target : Id) (type : LinkType) (strength : N)
                 (metadata : list (string * MetaValue N))
| CallBoost (chunkId : Id) (boost : N)
| CallApplyDecay.
Arguments CallInitialize {N}. Arguments CallAddChunk {N}.
Arguments CallGetMemories {N}. Arguments CallSearch {N}.
Arguments CallCreateLink {N}. Arguments CallBoost {N}.
Arguments CallApplyDecay {N}.

Section ServiceCalls.
Context {N : Type} `{JsNumber N}.
Variable Math_pow : N → N → N.

(** The store after a call of [MemoryService] at time [now], whether the
    call returned or threw. *)
Definition runCall (db : Db N) (step : Z * ServiceCall N) : Db N :=
  match step with
  | (now, CallInitialize) => (initializeMemoryBuckets db).2
  | (now, CallAddChunk bucketName text embedding metaVector source agentId metadata) =>
      (addMemoryChunk now bucketName text embedding metaVector source agentId
                      metadata db).2
  | (now, CallGetMemories bucketName queryEmbedding limit minScore) =>
      (getMemoriesFromBucket now bucketName queryEmbedding limit minScore db).2
  | (now, CallSearch query queryEmbedding buckets limit) =>
      (searchMemories now query queryEmbedding buckets limit db).2
  | (now, CallCreateLink source target type strength metadata) =>
      (createMemoryLink now source target type strength metadata db).2
  | (now, CallBoost chunkId boost) => (boostMemory now chunkId boost db).2
  | (now, CallApplyDecay) => (applyMemoryDecay Math_pow now db).2
  end.

Definition runCalls (steps : list (Z * ServiceCall N)) (db : Db N) : Db N :=
  foldl runCall db steps.

(** Bucket ids are pairwise distinct, and every chunk is in a stored
    bucket. *)
Definition bucketsDistinct (db : Db N) : Prop :=
  ∀ name1 name2 bucket1 bucket2,
    buckets db !! name1 = Some bucket1 → buckets db !! name2 = Some bucket2 →
    bucket_id bucket1 = bucket_id bucket2 → name1 = name2.

Definition chunksOwned (db : Db N) : Prop :=
  ∀ k c, chunks db !! k = Some c → bucketId c ∈ bucketIds db.

Definition consistent (db : Db N) : Prop := bucketsDistinct db ∧ chunksOwned db.

(** [db'] has the buckets of [db], and its chunks are chunks of [db] in the
    bucket where they were. *)
Definition sameOwners (db db' : Db N) : Prop :=
  buckets db' = buckets db
  ∧ ∀ k c', chunks db' !! k = Some c' →
            ∃ c, chunks db !! k = Some c ∧ bucketId c' = bucketId c.

Lemma sameOwners_refl (db : Db N) : sameOwners db db.
Proof. split; [done |]. intros k c Hc. by exists c. Qed.

Lemma sameOwners_trans (db1 db2 db3 : Db N) :
  sameOwners db1 db2 → sameOwners db2 db3 → sameOwners db1 db3.
Proof.
  intros [Hb12 Hc12] [Hb23 Hc23]. split; [congruence |].
  intros k c3 Hc3. destruct (Hc23 k c3 Hc3) as (c2 & Hc2 & Heq2).
  destruct (Hc12 k c2 Hc2) as (c1 & Hc1 & Heq1). exists c1. split; [done | congruence].
Qed.

Lemma sameOwners_consistent (db db' : Db N) :
  sameOwners db db' → consistent db → consistent db'.
Proof.
  intros [Hb Hc] [Hdistinct Howned]. split.
  - unfold bucketsDistinct. rewrite Hb. apply Hdistinct.
  - intros k c' Hc'. destruct (Hc k c' Hc') as (c & Hk & ->).
    apply elem_of_bucketIds. rewrite Hb. by apply elem_of_bucketIds, (Howned k).
Qed.

Lemma updateChunk_sameOwners (k : Id) (data : MemoryChunk N → MemoryChunk N) (db : Db N) :
  (∀ c, bucketId (data c) = bucketId c) →
  sameOwners db (updateChunk k data db).2.
Proof.
  intros Hdata. unfold updateChunk.
  destruct (chunks db !! k) as [c |] eqn:Hk; [| apply sameOwners_refl].
  split; [done |]. cbn. intros k' c' Hc'.
  destruct (decide (k' = k)) as [-> | Hne].
  - rewrite lookup_insert_eq in Hc'. injection Hc' as <-. by exists c.
  - rewrite lookup_insert_ne in Hc' by done. by exists c'.
Qed.

Lemma getMemoriesFromBucket_sameOwners now name queryEmbedding limit minScore (db : Db N) :
  sameOwners db (getMemoriesFromBucket now name queryEmbedding limit minScore db).2.
Proof.
  destruct (buckets db !! name) as [bucket |] eqn:Hbucket.
  - destruct (getMemoriesFromBucket_run now name queryEmbedding limit minScore db
                bucket Hbucket) as (db' & -> & Hb & _ & _ & Hlook).
    split; [done |]. cbn [snd]. intros k c'. rewrite Hlook.
    case_decide; [| by exists c'].
    destruct (chunks db !! k) as [c |]; [| done]. intros [= <-]. by exists c.
  - rewrite getMemoriesFromBucket_unknown by done. apply sameOwners_refl.
Qed.

Lemma searchLoop_sameOwners now (names : list string) queryEmbedding perBucket :
  ∀ (allResults : list (Retrieved (N := N))) (db : Db N),
    sameOwners db (searchLoop now names queryEmbedding perBucket allResults db).2.
Proof.
  induction names as [|name names IH]; intros acc db; [apply sameOwners_refl |].
  cbn [searchLoop]. unfold bind.
  pose proof (getMemoriesFromBucket_sameOwners now name (Some queryEmbedding)
                perBucket default_minScore db) as Hstep.
  destruct (getMemoriesFromBucket _ _ _ _ _ db) as [[results | e] db1]; [| done].
  eapply sameOwners_trans; [exact Hstep | apply IH].
Qed.

Lemma searchMemories_sameOwners now query queryEmbedding names limit (db : Db N) :
  sameOwners db (searchMemories now query queryEmbedding names limit db).2.
Proof.
  unfold searchMemories, bind.
  pose proof (searchLoop_sameOwners now (default MEMORY_BUCKET_NAMES names) queryEmbedding
                (ceilDiv limit (length (default MEMORY_BUCKET_NAMES names))) [] db) as Hloop.
  by destruct (searchLoop _ _ _ _ _ db) as [[allResults | e] db1].
Qed.

Lemma applyMemoryDecay_sameOwners now (db : Db N) :
  sameOwners db (applyMemoryDecay Math_pow now db).2.
Proof.
  destruct (applyMemoryDecay_run Math_pow now db)
    as (cnt & db' & -> & _ & _ & _ & Hb & _ & _ & Hchunks).
  split; [done |]. cbn [snd]. intros k c'. rewrite Hchunks, lookup_omap.
  destruct (chunks db !! k) as [c |]; [| done]. cbn. intros Hc'. exists c.
  split; [done |]. unfold decayOutcome in Hc'. by repeat case_match; simplify_eq.
Qed.

(** The chunk that [addMemoryChunk] creates in [db] for a bucket. *)
Definition addedChunk (now : Z) (bucket : MemoryBucket) (text : string)
    (embedding metaVector : list N) (source : string) (agentId : option string)
    (metadata : list (string * string)) (db : Db N) : MemoryChunk N :=
  {| chunk_id := fresh (dom (chunks db)); bucketId := bucket_id bucket; text := text;
     embedding := embedding; metaVector := metaVector; score := numZ 1;
     timestamp := now; lastAccessed := now; source := source;
     agentId := agentId; metadata := metadata; accessCount := 0;
     decayRate := match bucketType bucket with
                  | STM => MEMORY_DECAY_RATES_STM
                  | LTM => MEMORY_DECAY_RATES_LTM
                  | _ => MEMORY_DECAY_RATES_RL
                  end |}.

Lemma addMemoryChunk_run now name text embedding metaVector source agentId metadata
    (db : Db N) (bucket : MemoryBucket) :
  buckets db !! name = Some bucket →
  let c := addedChunk now bucket text embedding metaVector source agentId metadata db in
  addMemoryChunk now name text embedding metaVector source agentId metadata db
  = (Ok c, set_chunks (<[chunk_id c := c]> (chunks db)) db)
  ∧ chunks db !! chunk_id c = None.
Proof.
  intros Hbucket c. unfold addMemoryChunk, bind, findUniqueBucket. rewrite Hbucket.
  split; [done |]. apply not_elem_of_dom, is_fresh.
Qed.

Lemma addMemoryChunk_unknown now name text embedding metaVector source agentId metadata
    (db : Db N) :
  buckets db !! name = None →
  addMemoryChunk now name text embedding metaVector source agentId metadata db
  = (Err (bucketNotFound name), db).
Proof.
  intros Hbucket. unfold addMemoryChunk, bind, findUniqueBucket. by rewrite Hbucket.
Qed.

Lemma addMemoryChunk_consistent now name text embedding metaVector source agentId metadata
    (db : Db N) :
  consistent db →
  consistent (addMemoryChunk now name text embedding metaVector source agentId
                metadata db).2.
Proof.
  intros [Hdistinct Howned].
  destruct (buckets db !! name) as [bucket |] eqn:Hbucket.
  - destruct (addMemoryChunk_run now name text embedding metaVector source agentId
                metadata db bucket Hbucket) as [-> _].
    split; [done |]. cbn [snd]. intros k c'. cbn [chunks set_chunks].
    set (c := addedChunk _ _ _ _ _ _ _ _ _).
    destruct (decide (k = chunk_id c)) as [-> | Hne].
    + rewrite lookup_insert_eq. intros [= <-]. cbn [bucketId c addedChunk].
      apply elem_of_bucketIds. by exists name, bucket.
    + rewrite lookup_insert_ne by done. apply Howned.
  - rewrite addMemoryChunk_unknown by done. done.
Qed.

Lemma registerBucket_consistent (db : Db N) config :
  consistent db → consistent (registerBucket db config).
Proof.
  intros [Hdistinct Howned]. split.
  - intros n1 n2 b1 b2. unfold registerBucket.
    destruct (buckets db !! config_name config) eqn:Hc; [apply Hdistinct |].
    cbn [buckets set_buckets].
    assert (Hfresh : ∀ n b, buckets db !! n = Some b →
                            bucket_id b ≠ fresh (bucketIds db)).
    { intros n b Hb Heq. apply (is_fresh (bucketIds db)). rewrite <- Heq.
      apply elem_of_bucketIds. by exists n, b. }
    destruct (decide (n1 = config_name config)) as [-> | Hn1];
      destruct (decide (n2 = config_name config)) as [-> | Hn2];
      rewrite ?lookup_insert_eq, ?lookup_insert_ne by done; try done.
    + intros [= <-] Hb2 Heq. cbn in Heq. symmetry in Heq. by apply Hfresh in Hb2.
    + intros Hb1 [= <-] Heq. cbn in Heq. by apply Hfresh in Hb1.
    + apply Hdistinct.
  - intros k c Hc. apply registerBucket_ids.
    destruct (registerBucket_tables db config) as (Hchunks & _).
    rewrite Hchunks in Hc. by apply (Howned k).
Qed.

Lemma initializeMemoryBuckets_consistent (db : Db N) :
  consistent db → consistent (initializeMemoryBuckets db).2.
Proof.
  unfold initializeMemoryBuckets. rewrite forEach_initializeBucket. cbn [snd].
  generalize bucketConfigs. intros configs. revert db.
  induction configs as [|config configs IH]; intros db Hdb; [done |].
  cbn [foldl]. by apply IH, registerBucket_consistent.
Qed.

Lemma runCall_consistent (db : Db N) (step : Z * ServiceCall N) :
  consistent db → consistent (runCall db step).
Proof.
  intros Hdb. destruct step as [now call]. destruct call; cbn [runCall].
  - by apply initializeMemoryBuckets_consistent.
  - by apply addMemoryChunk_consistent.
  - eapply sameOwners_consistent; [apply getMemoriesFromBucket_sameOwners | done].
  - eapply sameOwners_consistent; [apply searchMemories_sameOwners | done].
  - done.
  - eapply sameOwners_consistent; [| done]. apply updateChunk_sameOwners. by intros c.
  - eapply sameOwners_consistent; [apply applyMemoryDecay_sameOwners | done].
Qed.

(** *** Counting *)

Lemma count_one {A : Type} `{EqDecision A} (a : A) (ids : list A) :
  NoDup ids → a ∈ ids →
  sum_list ((λ i, if decide (a = i) then 1 else 0)%nat <$> ids) = 1%nat.
Proof.
  induction 1 as [|i ids Hi Hnd IH]; intros Hin; [by apply elem_of_nil in Hin |].
  cbn. case_decide as Heq.
  - subst i. f_equal.
    clear IH Hin Hnd. induction ids as [|j ids IH]; [done |]. cbn.
    apply not_elem_of_cons in Hi as [Hne Hi]. rewrite decide_False by done.
    by apply IH.
  - apply elem_of_cons in Hin as [-> | Hin]; [done |]. by apply IH.
Qed.

Lemma count_partition {A B : Type} `{EqDecision B} (f : A → B) (ids : list B) (l : list A) :
  NoDup ids → (∀ x, x ∈ l → f x ∈ ids) →
  sum_list ((λ i, length (filter (λ x, f x = i) l)) <$> ids) = length l.
Proof.
  intros Hnd. induction l as [|x l IH]; intros Hin.
  - cbn. clear. by induction ids.
  - assert (Hsplit :
      sum_list ((λ i, length (filter (λ x', f x' = i) (x :: l))) <$> ids)
      = (sum_list ((λ i, if decide (f x = i) then 1 else 0)%nat <$> ids)
         + sum_list ((λ i, length (filter (λ x', f x' = i) l)) <$> ids))%nat).
    { clear. induction ids as [|i ids IHids]; [done |].
      cbn [fmap list_fmap sum_list sum_list_with]. rewrite IHids.
      unfold Datatypes.id. rewrite filter_cons.
      destruct (decide (f x = i)); cbn [length]; lia. }
    rewrite Hsplit, IH by (intros y Hy; apply Hin; by right).
    rewrite count_one; [done | done |]. apply Hin. left.
Qed.
End ServiceCalls.

(** A store without a bucket, a chunk, a link or a reflection. *)
Definition blank_db {N : Type} : Db N :=
  {| buckets := ∅; chunks := ∅; links := []; reflections := [] |}.

Lemma blank_db_consistent {N : Type} `{JsNumber N} : consistent (blank_db (N := N)).
Proof.
  split.
  - intros n1 n2 b1 b2 Hb1. unfold blank_db in Hb1. cbn [buckets] in Hb1.
    by rewrite lookup_empty in Hb1.
  - intros k c Hc. unfold blank_db in Hc. cbn [chunks] in Hc.
    by rewrite lookup_empty in Hc.
Qed.

(** X5.  The calls of [MemoryService] keep the store consistent: from a store
    where the bucket ids are pairwise distinct and every chunk has the id
    of a stored bucket as [bucketId], every sequence of calls of
    [initializeMemoryBuckets], [addMemoryChunk], [getMemoriesFromBucket],
    [searchMemories], [createMemoryLink], [boostMemory] and
    [applyMemoryDecay], returning or throwing, leaves such a store.  (Any
    number implementation, any [Math.pow].) *)
Theorem memory_service_keeps_store_consistent {N : Type} `{JsNumber N}
    (Math_pow : N → N → N) (steps : list (Z * ServiceCall N)) (db : Db N) :
  consistent db → consistent (runCalls Math_pow steps db).
Proof.
  unfold runCalls. revert db.
  induction steps as [|step steps IH]; intros db Hdb; [done |].
  cbn [foldl]. by apply IH, runCall_consistent.
Qed.

Lemma memory_service_keeps_store_consistent_witness :
  consistent (runCalls float_pow
                [(0, CallInitialize);
                 (1, CallAddChunk "diary_rl" "note" [] [] "chat" None []);
                 (2, CallGetMemories "diary_rl" None 10 default_minScore);
                 (hours 2000, CallApplyDecay)]
                blank_db).
Proof.
  apply memory_service_keeps_store_consistent. apply blank_db_consistent.
Defined.

Section Stats.
Context {N : Type} `{JsNumber N}.

Lemma NoDup_bucket_ids (db : Db N) :
  bucketsDistinct db →
  NoDup ((λ row : string * MemoryBucket, bucket_id row.2) <$> map_to_list (buckets db)).
Proof.
  intros Hdistinct. apply NoDup_fmap_2_strong; [| apply NoDup_map_to_list].
  intros [n1 b1] [n2 b2] H1 H2 Heq. cbn in Heq.
  apply elem_of_map_to_list in H1, H2.
  pose proof (Hdistinct n1 n2 b1 b2 H1 H2 Heq) as ->. congruence.
Qed.
End Stats.

(** X6.  [getMemoryStats] only reads.  It reports the sizes of the chunk,
    link and reflection tables and one entry for each bucket; in a
    consistent store the chunk counts of the buckets add up to
    [totalChunks]. *)
Theorem getMemoryStats_counts_add_up {N : Type} `{JsNumber N} (db : Db N) :
  consistent db →
  ∃ stats,
    getMemoryStats db = (Ok stats, db)
    ∧ totalChunks stats = size (chunks db)
    ∧ totalLinks stats = length (links db)
    ∧ totalReflections stats = length (reflections db)
    ∧ length (stats_buckets stats) = size (buckets db)
    ∧ sum_list (chunkCount <$> stats_buckets stats) = totalChunks stats.
Proof.
  intros [Hdistinct Howned]. eexists. split; [reflexivity |].
  cbn [totalChunks totalLinks totalReflections stats_buckets].
  split; [done |]. split; [done |]. split; [done |].
  split; [by rewrite length_fmap, length_map_to_list |].
  rewrite <- list_fmap_compose.
  transitivity
    (sum_list ((λ i, length (filter (λ c : MemoryChunk N, bucketId c = i) (chunkRows db)))
               <$> ((λ row : string * MemoryBucket, bucket_id row.2)
                    <$> map_to_list (buckets db)))).
  { rewrite <- list_fmap_compose. reflexivity. }
  rewrite count_partition; [| by apply NoDup_bucket_ids |].
  - unfold chunkRows. by rewrite length_fmap, length_map_to_list.
  - intros c Hc. apply elem_of_chunkRows in Hc as (c0 & Hc0 & ->).
    cbn [bucketId set_chunk_id].
    apply Howned, elem_of_bucketIds in Hc0 as (name & bucket & Hb & <-).
    apply list_elem_of_fmap. exists (name, bucket). split; [done |].
    by apply elem_of_map_to_list.
Qed.

Lemma getMemoryStats_counts_add_up_witness :
  ∃ stats,
    getMemoryStats (scenario_db (N := float)) = (Ok stats, scenario_db)
    ∧ totalChunks stats = 1%nat
    ∧ sum_list (chunkCount <$> stats_buckets stats) = totalChunks stats.
Proof.
  destruct (getMemoryStats_counts_add_up (scenario_db (N := float)))
    as (stats & Hrun & Htotal & _ & _ & _ & Hsum).
  - split.
    + intros n1 n2 b1 b2 H1 H2 _. unfold scenario_db in H1, H2. cbn [buckets] in H1, H2.
      apply lookup_singleton_Some in H1 as [<- _].
      by apply lookup_singleton_Some in H2 as [<- _].
    + intros k c Hc. unfold scenario_db in Hc. cbn [chunks] in Hc.
      apply lookup_singleton_Some in Hc as [_ <-].
      apply elem_of_bucketIds. exists "semantic_stm", semantic_stm. split; [| done].
      unfold scenario_db. cbn [buckets]. by rewrite lookup_singleton_eq.
  - exists stats. split; [exact Hrun |]. split; [| exact Hsum].
    rewrite Htotal. unfold scenario_db. cbn [chunks]. by rewrite map_size_singleton.
Defined.

(** X4.  After [initializeMemoryBuckets], on any store, [addMemoryChunk]
    returns for each of the ten configured bucket names; the chunk is
    stored under an id that was free and the other chunks are kept.  In a
    bucket that the initialisation created, the chunk decays at 0.99 when
    the bucket is of type STM, at 0.999 when it is LTM, and at the RL rate
    0.995 for the types RL, DOCS and MISC. *)
Theorem addMemoryChunk_in_configured_bucket {N : Type} `{JsNumber N}
    (now : Z) (text : string) (embedding metaVector : list N) (source : string)
    (agentId : option string) (metadata : list (string * string)) (db : Db N) :
  Forall (λ config,
            ∃ c db',
              addMemoryChunk now (config_name config) text embedding metaVector source
                agentId metadata (initializeMemoryBuckets db).2 = (Ok c, db')
              ∧ chunks db !! chunk_id c = None
              ∧ chunks db' = <[chunk_id c := c]> (chunks db)
              ∧ (buckets db !! config_name config = None →
                 decayRate c = match config_bucketType config with
                               | STM => MEMORY_DECAY_RATES_STM
                               | LTM => MEMORY_DECAY_RATES_LTM
                               | RL | DOCS | MISC => MEMORY_DECAY_RATES_RL
                               end))
         bucketConfigs.
Proof.
  apply Forall_forall. intros config Hin.
  unfold initializeMemoryBuckets. rewrite forEach_initializeBucket. cbn [snd].
  set (db1 := foldl registerBucket db bucketConfigs).
  destruct (registerBuckets_tables bucketConfigs db) as (Hchunks & _). fold db1 in Hchunks.
  destruct (registerBuckets_registered bucketConfigs db config Hin) as [bucket Hbucket].
  fold db1 in Hbucket.
  destruct (addMemoryChunk_run now (config_name config) text embedding metaVector source
              agentId metadata db1 bucket Hbucket) as [Hrun Hfresh].
  eexists _, _. split; [exact Hrun |]. rewrite <- Hchunks. split; [exact Hfresh |].
  split; [done |]. intros Hnone. cbn [decayRate addedChunk].
  destruct (registerBuckets_new bucketConfigs db config) as (b & Hb & _ & _ & Htype & _);
    [| done | done |].
  { rewrite bucketConfigs_names. apply NoDup_MEMORY_BUCKET_NAMES. }
  fold db1 in Hb. rewrite Hbucket in Hb. injection Hb as <-. rewrite Htype.
  by destruct (config_bucketType config).
Qed.

(** X3.  [addMemoryChunk] for a name that is not a stored bucket throws
    [Memory bucket <name> not found] and leaves the store as it was.  For
    a stored bucket it returns the new chunk: it carries the arguments,
    the id of the bucket, score 1, access count 0 and the time of the call
    as [timestamp] and [lastAccessed]; it is stored under an id that was
    free; every other chunk and the other tables are untouched, so the
    chunk table has one more row. *)
Theorem addMemoryChunk_stores_or_rejects {N : Type} `{JsNumber N}
    (now : Z) (name txt : string) (emb meta : list N) (src : string)
    (agent : option string) (md : list (string * string)) (db : Db N) :
  match buckets db !! name with
  | None =>
      addMemoryChunk now name txt emb meta src agent md db
      = (Err (NotFound ("Memory bucket " ++ name ++ " not found")), db)
  | Some bucket =>
      ∃ c db',
        addMemoryChunk now name txt emb meta src agent md db
        = (Ok c, db')
        ∧ chunks db !! chunk_id c = None
        ∧ chunks db' !! chunk_id c = Some c
        ∧ (∀ k, k ≠ chunk_id c → chunks db' !! k = chunks db !! k)
        ∧ size (chunks db') = S (size (chunks db))
        ∧ buckets db' = buckets db ∧ links db' = links db
        ∧ reflections db' = reflections db
        ∧ bucketId c = bucket_id bucket ∧ text c = txt
        ∧ embedding c = emb ∧ metaVector c = meta
        ∧ source c = src ∧ agentId c = agent
        ∧ metadata c = md
        ∧ score c = numZ 1 ∧ accessCount c = 0%nat
        ∧ timestamp c = now ∧ lastAccessed c = now
  end.
Proof.
  destruct (buckets db !! name) as [bucket |] eqn:Hbucket.
  - destruct (addMemoryChunk_run now name txt emb meta src agent md db bucket Hbucket) as [Hrun Hfresh].
    eexists _, _. split; [exact Hrun |]. split; [exact Hfresh |].
    cbn [chunks set_chunks buckets links reflections].
    split; [by rewrite lookup_insert_eq |].
    split; [intros k Hk; by rewrite lookup_insert_ne |].
    split; [by rewrite map_size_insert_None |]. done.
  - by apply addMemoryChunk_unknown.
Qed.

Section Links.
Context {N : Type} `{JsNumber N}.

(** The link joins the two chunks, in one direction or the other. *)
Definition joins (a b : Id) (l : MemoryLink N) : Prop :=
  (sourceId l = a ∧ targetId l = b) ∨ (sourceId l = b ∧ targetId l = a).

#[export] Instance joins_dec a b l : Decision (joins a b l).
Proof. unfold joins. apply _. Defined.

Lemma elem_of_linkKeys (db : Db N) (k : string) :
  k ∈ linkKeys db ↔ ∃ l, l ∈ links db ∧ link_id l = StoredLink k.
Proof.
  unfold linkKeys. rewrite elem_of_list_to_set, list_elem_of_omap. split.
  - intros (l & Hl & Hk). exists l. split; [done |].
    destruct (link_id l); by simplify_eq.
  - intros (l & Hl & Hk). exists l. split; [done |]. by rewrite Hk.
Qed.

Lemma linked_createMemoryLink now a b type strength metadata (db : Db N) x y :
  linked (createMemoryLink now a b type strength metadata db).2 x y
  ↔ linked db x y ∨ (x = a ∧ y = b) ∨ (x = b ∧ y = a).
Proof.
  unfold linked, createMemoryLink, createLink. cbn [snd links set_links]. split.
  - intros (l & Hl & Hends). apply elem_of_app in Hl as [Hl | Hl].
    + left. by exists l.
    + right. apply list_elem_of_singleton in Hl. subst l. cbn in Hends. naive_solver.
  - intros [(l & Hl & Hends) | Hnew].
    + exists l. split; [| done]. apply elem_of_app. by left.
    + eexists. split; [apply elem_of_app; right; by apply list_elem_of_singleton |].
      cbn. naive_solver.
Qed.

Lemma find_app {A : Type} (p : A → bool) (l1 l2 : list A) :
  List.find p (l1 ++ l2)
  = match List.find p l1 with
    | Some x => Some x
    | None => List.find p l2
    end.
Proof. induction l1 as [|x l1 IH]; [done |]. cbn. by destruct (p x). Qed.

Lemma candidateAt_createMemoryLink now' now a b type strength metadata
    (memories : list (Retrieved (N := N))) (db : Db N) ij :
  candidateAt now' memories (createMemoryLink now a b type strength metadata db).2 ij
  = match candidateAt now' memories db ij with
    | Some l => if decide (joins a b l) then None else Some l
    | None => None
    end.
Proof.
  unfold candidateAt.
  destruct (memories !! ij.1) as [mi |]; [| done].
  destruct (memories !! ij.2) as [mj |]; [| done]. cbn zeta.
  destruct (calculateTextSimilarity _ _ >? lit 7 10)%js; [| done].
  set (x := chunk_id (chunk mi)). set (y := chunk_id (chunk mj)).
  unfold findFirstLinkBetween, createMemoryLink, createLink.
  cbn [snd links set_links]. rewrite find_app.
  destruct (List.find _ (links db)) as [l |]; [done |].
  cbn [List.find sourceId targetId]. unfold joins. cbn [sourceId targetId candidateLink].
  fold x y.
  destruct (decide ((x = a ∧ y = b) ∨ (x = b ∧ y = a))) as [Hj | Hj].
  - assert (Hp : (String.eqb a x && String.eqb b y) || (String.eqb a y && String.eqb b x)
                 = true).
    { apply orb_true_iff. rewrite !andb_true_iff, !String.eqb_eq. naive_solver. }
    by rewrite Hp.
  - assert (Hp : (String.eqb a x && String.eqb b y) || (String.eqb a y && String.eqb b x)
                 = false).
    { apply orb_false_iff. rewrite !andb_false_iff, !String.eqb_neq.
      destruct (decide (a = x)), (decide (b = y)), (decide (a = y)), (decide (b = x));
        naive_solver. }
    by rewrite Hp.
Qed.

Lemma candidates_createMemoryLink now' now a b type strength metadata
    (memories : list (Retrieved (N := N))) (db : Db N) :
  candidates now' memories (createMemoryLink now a b type strength metadata db).2
  = filter (λ l, ¬ joins a b l) (candidates now' memories db).
Proof.
  unfold candidates. induction (windowPairs (length memories)) as [|ij pairs IH]; [done |].
  cbn [omap list_omap]. rewrite candidateAt_createMemoryLink, IH.
  destruct (candidateAt now' memories db ij) as [l |]; [| done].
  rewrite filter_cons. by repeat case_decide.
Qed.
End Links.

(** The link that [createMemoryLink] stores under [key]. *)
Definition storedLink {N : Type} (key : string) (now : Z) (a b : Id) (type : LinkType)
    (strength : N) (metadata : list (string * MetaValue N)) : MemoryLink N :=
  {| link_id := StoredLink key; sourceId := a; targetId := b;
     strength := strength; linkType := type; link_metadata := metadata;
     createdAt := now |}.

(** X7.  [createMemoryLink] always returns: it appends a link with the given
    ends, type, strength and metadata, under an id that no stored link
    has, and touches nothing else; it does not look for an equal link.
    [getMemoryLinks] only reads.  For every chunk id [k], the links that
    [getMemoryLinks k] returns after the creation are those it returned
    before, followed by the new link among the outgoing links when [k] is
    its source, and among the incoming links when [k] is its target (both,
    for a link from [k] to [k]); the link comes with the chunk stored at
    its other end, if there is one. *)
Theorem createMemoryLink_then_getMemoryLinks {N : Type} `{JsNumber N}
    (now : Z) (a b : Id) (type : LinkType) (strength : N)
    (metadata : list (string * MetaValue N)) (k : Id) (db : Db N) :
  ∃ key db' before after,
    createMemoryLink now a b type strength metadata db
    = (Ok (storedLink key now a b type strength metadata), db')
    ∧ (StoredLink key ∉ link_id <$> links db)
    ∧ links db' = (links db ++ [storedLink key now a b type strength metadata])%list
    ∧ buckets db' = buckets db ∧ chunks db' = chunks db
    ∧ reflections db' = reflections db
    ∧ getMemoryLinks k db = (Ok before, db)
    ∧ getMemoryLinks k db' = (Ok after, db')
    ∧ outgoing after
      = (outgoing before
         ++ if decide (a = k)
            then [{| included_link := storedLink key now a b type strength metadata;
                     included := findChunk db b |}]
            else [])%list
    ∧ incoming after
      = (incoming before
         ++ if decide (b = k)
            then [{| included_link := storedLink key now a b type strength metadata;
                     included := findChunk db a |}]
            else [])%list.
Proof.
  eexists (fresh (linkKeys db)), _, _, _.
  split; [reflexivity |]. split.
  { intros Hin. apply (is_fresh (linkKeys db)), elem_of_linkKeys.
    apply list_elem_of_fmap in Hin as (l & Hid & Hl). by exists l. }
  split; [reflexivity |]. split; [reflexivity |]. split; [reflexivity |].
  split; [reflexivity |]. split; [reflexivity |]. split; [reflexivity |].
  cbn [outgoing incoming links set_links].
  rewrite !filter_app, !fmap_app, !filter_cons, !filter_nil.
  cbn [sourceId targetId storedLink]. split; by case_decide.
Qed.

(** X8.  Once [createMemoryLink] has stored a link between [a] and [b],
    [discoverMemoryConnections] proposes no connection between the two, in
    either direction: it returns the first 10 of the candidates it had
    before the link was stored, less those that join [a] and [b]. *)
Theorem discoverMemoryConnections_skips_created_link {N : Type} `{JsNumber N}
    (now now' : Z) (a b : Id) (type : LinkType) (strength : N)
    (metadata : list (string * MetaValue N))
    (memories : list (Retrieved (N := N))) (db : Db N) :
  ∃ l db' found,
    createMemoryLink now a b type strength metadata db = (Ok l, db')
    ∧ discoverMemoryConnections now' memories db' = (Ok found, db')
    ∧ found = take 10 (filter (λ l, ¬ joins a b l) (candidates now' memories db))
    ∧ ∀ l', l' ∈ found →
            ¬ ((sourceId l' = a ∧ targetId l' = b) ∨ (sourceId l' = b ∧ targetId l' = a)).
Proof.
  eexists _, _, _. split; [reflexivity |].
  split; [apply discoverMemoryConnections_run |].
  pose proof (candidates_createMemoryLink now' now a b type strength metadata memories db)
    as Hcand.
  unfold createMemoryLink, createLink in Hcand. cbn [snd] in Hcand.
  split; [by rewrite Hcand |].
  intros l' Hl'. rewrite Hcand in Hl'. apply (subseteq_take 10) in Hl'.
  by apply list_elem_of_filter in Hl' as [Hj _].
Qed.

Section Search.
Context {N : Type} `{JsNumber N}.

(** [db'] is [db] after some chunks were accessed: the time of the last
    access and the access count may differ. *)
Definition accessed (db db' : Db N) : Prop :=
  buckets db' = buckets db
  ∧ ∀ k c', chunks db' !! k = Some c' →
            ∃ c, chunks db !! k = Some c
                 ∧ score c' = score c ∧ bucketId c' = bucketId c.

Lemma accessed_refl (db : Db N) : accessed db db.
Proof. split; [done |]. intros k c Hc. by exists c. Qed.

Lemma accessed_trans (db1 db2 db3 : Db N) :
  accessed db1 db2 → accessed db2 db3 → accessed db1 db3.
Proof.
  intros [Hb12 Hc12] [Hb23 Hc23]. split; [congruence |].
  intros k c3 Hc3. destruct (Hc23 k c3 Hc3) as (c2 & Hc2 & Hs2 & Hi2).
  destruct (Hc12 k c2 Hc2) as (c1 & Hc1 & Hs1 & Hi1). exists c1.
  split; [done |]. split; congruence.
Qed.

(** The chunk of a result was read from bucket [bucket] of [db], where its
    score was at least [default_minScore]. *)
Definition readFrom (db : Db N) (bucket : MemoryBucket) (r : Retrieved (N := N)) : Prop :=
  ∃ c, chunks db !! chunk_id (chunk r) = Some c
       ∧ bucketId c = bucket_id bucket
       ∧ (default_minScore <=? score c)%js = true
       ∧ score (chunk r) = score c
       ∧ bucketId (chunk r) = bucket_id bucket.

Lemma getMemoriesFromBucket_results now name queryEmbedding limit (db : Db N) bucket :
  buckets db !! name = Some bucket →
  ∃ results db',
    getMemoriesFromBucket now name queryEmbedding limit default_minScore db
    = (Ok results, db')
    ∧ accessed db db'
    ∧ (length results ≤ limit)%nat
    ∧ ∀ r, r ∈ results → readFrom db bucket r.
Proof.
  intros Hbucket.
  destruct (getMemoriesFromBucket_run now name queryEmbedding limit default_minScore db
              bucket Hbucket) as (db' & Hrun & Hb & _ & _ & Hlook).
  eexists _, db'. split; [exact Hrun |]. split; [| split].
  - split; [done |]. intros k c'. rewrite Hlook.
    case_decide; [| by exists c'].
    destruct (chunks db !! k) as [c |]; [| done]. intros [= <-]. by exists c.
  - rewrite <- (length_fmap chunk), chunk_returned. unfold pulled.
    rewrite length_take. lia.
  - intros r Hr.
    assert (Hc : chunk r ∈ pulled (bucket_id bucket) default_minScore limit db)
      by (rewrite <- (chunk_returned queryEmbedding); by apply list_elem_of_fmap_2).
    apply elem_of_pulled in Hc as (Hrow & Hid & Hscore).
    apply elem_of_chunkRows in Hrow as (c & Hc & Heq).
    exists c. rewrite Heq in *. cbn [chunk_id bucketId score set_chunk_id] in *.
    done.
Qed.

Lemma readFrom_accessed (db db1 : Db N) bucket r :
  accessed db db1 → readFrom db1 bucket r → readFrom db bucket r.
Proof.
  intros [_ Hc] (c1 & Hc1 & Hid & Hscore & Hs & Hb).
  destruct (Hc _ _ Hc1) as (c & Hk & Hs' & Hi').
  exists c. split; [done |]. split; [congruence |]. split; [congruence |].
  split; congruence.
Qed.

(** The names of a list that are names of the bucket with id [i]. *)
Definition namesOf (db : Db N) (i : Id) (names : list string) : list string :=
  filter (λ name, bucket_id <$> buckets db !! name = Some i) names.

Lemma searchLoop_run now (names : list string) queryEmbedding perBucket :
  ∀ (db : Db N) (allResults : list Retrieved),
    Forall (λ name, is_Some (buckets db !! name)) names →
    ∃ results db',
      searchLoop now names queryEmbedding perBucket allResults db
      = (Ok (allResults ++ results)%list, db')
      ∧ accessed db db'
      ∧ (∀ r, r ∈ results →
              ∃ name bucket, name ∈ names ∧ buckets db !! name = Some bucket
                             ∧ readFrom db bucket r)
      ∧ ∀ i, (length (filter (λ r, bucketId (chunk r) = i) results)
              ≤ perBucket * length (namesOf db i names))%nat.
Proof.
  induction names as [|name names IH]; intros db acc Hnames.
  - exists [], db. rewrite app_nil_r. split; [done |]. split; [apply accessed_refl |].
    split; [| by cbn; lia]. intros r Hr. by apply elem_of_nil in Hr.
  - apply Forall_cons in Hnames as [[bucket Hbucket] Hnames].
    destruct (getMemoriesFromBucket_results now name (Some queryEmbedding) perBucket
                db bucket Hbucket) as (found & db1 & Hrun & Hacc & Hlen & Hread).
    cbn [searchLoop]. unfold bind. rewrite Hrun.
    destruct (IH db1 (acc ++ found)%list) as (rest & db' & Hloop & Hacc' & Hrest & Hcount).
    { destruct Hacc as [-> _]. done. }
    exists (found ++ rest)%list, db'. split; [by rewrite Hloop, app_assoc |].
    split; [by eapply accessed_trans |]. split.
    + intros r Hr. apply elem_of_app in Hr as [Hr | Hr].
      * exists name, bucket. split; [left |]. split; [done |]. by apply Hread.
      * destruct (Hrest r Hr) as (name' & bucket' & Hin & Hb' & Hr').
        exists name', bucket'. split; [by right |].
        destruct Hacc as [Hbuckets Hchunks]. rewrite Hbuckets in Hb'.
        split; [done |]. eapply readFrom_accessed; [| exact Hr']. by split.
    + intros i. rewrite filter_app, length_app.
      assert (Hnames' : namesOf db1 i names = namesOf db i names).
      { unfold namesOf. destruct Hacc as [-> _]. done. }
      specialize (Hcount i). rewrite Hnames' in Hcount.
      unfold namesOf at 1. rewrite filter_cons. fold (namesOf db i names).
      rewrite Hbucket. cbn [fmap option_fmap option_map].
      case_decide as Hi.
      * cbn [length]. pose proof (length_filter (λ r, bucketId (chunk r) = i) found). lia.
      * assert (Hnone : filter (λ r : Retrieved, bucketId (chunk r) = i) found = []).
        { destruct (filter _ found) as [|r others] eqn:Hfilter; [done |]. exfalso.
          assert (Hr : r ∈ filter (λ r : Retrieved, bucketId (chunk r) = i) found)
            by (rewrite Hfilter; left).
          apply list_elem_of_filter in Hr as [Hri Hr].
          destruct (Hread r Hr) as (c & _ & _ & _ & _ & Hb). congruence. }
        rewrite Hnone. cbn [length]. lia.
Qed.

Lemma namesOf_length (db : Db N) (i : Id) (names : list string) :
  NoDup names → bucketsDistinct db → (length (namesOf db i names) ≤ 1)%nat.
Proof.
  intros Hnd Hdistinct.
  destruct (namesOf db i names) as [|n1 [|n2 rest]] eqn:Hnames; cbn; try lia.
  exfalso.
  assert (Hnd' : NoDup (namesOf db i names)) by (by apply NoDup_filter).
  assert (H1 : n1 ∈ namesOf db i names) by (rewrite Hnames; left).
  assert (H2 : n2 ∈ namesOf db i names) by (rewrite Hnames; right; left).
  rewrite Hnames in Hnd'. apply NoDup_cons in Hnd' as [Hne _].
  apply Hne. apply list_elem_of_filter in H1 as [H1 _], H2 as [H2 _].
  destruct (buckets db !! n1) as [b1 |] eqn:Hb1; [| done].
  destruct (buckets db !! n2) as [b2 |] eqn:Hb2; [| done].
  cbn in H1, H2. injection H1 as H1. injection H2 as H2.
  assert (n1 = n2) as -> by (eapply Hdistinct; [done | done | congruence]). left.
Qed.

Lemma searchLoop_unknown now (before after : list string) (name : string)
    queryEmbedding perBucket (db : Db N) (allResults : list Retrieved) :
  Forall (λ name, is_Some (buckets db !! name)) before →
  buckets db !! name = None →
  ∃ found db1,
    searchLoop now before queryEmbedding perBucket allResults db = (Ok found, db1)
    ∧ searchLoop now (before ++ name :: after) queryEmbedding perBucket allResults db
      = (Err (bucketNotFound name), db1).
Proof.
  revert db allResults.
  induction before as [|b before IH]; intros db acc Hbefore Hname.
  - exists acc, db. split; [done |]. cbn [app searchLoop]. unfold bind.
    by rewrite getMemoriesFromBucket_unknown.
  - apply Forall_cons in Hbefore as [[bucket Hbucket] Hbefore].
    destruct (getMemoriesFromBucket_results now b (Some queryEmbedding) perBucket
                db bucket Hbucket) as (found & db1 & Hrun & [Hb _] & _).
    destruct (IH db1 (acc ++ found)%list) as (found' & db2 & Hloop & Hfail).
    { by rewrite Hb. }
    { by rewrite Hb. }
    exists found', db2. cbn [app searchLoop]. unfold bind. rewrite Hrun. done.
Qed.
End Search.

(** X9.  When every bucket to search is stored, [searchMemories] returns at
    most [limit] results.  Each result is a chunk of the store, read from
    one of the searched buckets, whose score was at least 0.1.  When
    moreover the names to search are distinct and the bucket ids are
    distinct, no bucket contributes more than
    [ceil (limit / number of buckets)] results, however well its chunks
    match: with the ten default buckets and [limit = 20], two per
    bucket. *)
Theorem searchMemories_bounded {N : Type} `{JsNumber N}
    (now : Z) (query : string) (queryEmbedding : list N)
    (names : option (list string)) (limit : nat) (db : Db N) :
  Forall (λ name, is_Some (buckets db !! name)) (default MEMORY_BUCKET_NAMES names) →
  ∃ results db',
    searchMemories now query queryEmbedding names limit db = (Ok results, db')
    ∧ (length results ≤ limit)%nat
    ∧ (∀ r, r ∈ results →
            ∃ name bucket c,
              name ∈ default MEMORY_BUCKET_NAMES names
              ∧ buckets db !! name = Some bucket
              ∧ chunks db !! chunk_id (chunk r) = Some c
              ∧ bucketId c = bucket_id bucket
              ∧ (default_minScore <=? score c)%js = true
              ∧ score (chunk r) = score c)
    ∧ (NoDup (default MEMORY_BUCKET_NAMES names) → bucketsDistinct db →
       ∀ i, (length (filter (λ r, bucketId (chunk r) = i) results)
             ≤ ceilDiv limit (length (default MEMORY_BUCKET_NAMES names)))%nat).
Proof.
  intros Hnames. unfold searchMemories, bind.
  set (bucketsToSearch := default MEMORY_BUCKET_NAMES names) in *.
  destruct (searchLoop_run now bucketsToSearch queryEmbedding
              (ceilDiv limit (length bucketsToSearch)) db [] Hnames)
    as (all & db' & -> & _ & Hread & Hcount).
  cbn [app]. eexists _, db'. split; [reflexivity |].
  assert (Hsub : take limit (Array_sort (λ a b, (rankKey b - rankKey a)%js) all) ⊆+ all).
  { etrans; [apply submseteq_take |]. unfold Array_sort. by rewrite stable_sort_perm. }
  split; [rewrite length_take; lia |]. split.
  - intros r Hr. eapply elem_of_submseteq in Hr; [| exact Hsub].
    destruct (Hread r Hr) as (name & bucket & Hin & Hb & c & Hc & Hid & Hs & Hs' & _).
    by exists name, bucket, c.
  - intros Hnd Hdistinct i.
    pose proof (namesOf_length db i bucketsToSearch Hnd Hdistinct) as Hone.
    specialize (Hcount i).
    assert (Hle : (length (filter (λ r : Retrieved, bucketId (chunk r) = i)
                     (take limit (Array_sort (λ a b, (rankKey b - rankKey a)%js) all)))
                   ≤ length (filter (λ r : Retrieved, bucketId (chunk r) = i) all))%nat).
    { unfold Array_sort.
      set (sorted := stable_sort _ all).
      assert (Hperm : sorted ≡ₚ all) by apply stable_sort_perm.
      rewrite <- Hperm. rewrite <- (take_drop limit sorted) at 2.
      rewrite filter_app, length_app. lia. }
    nia.
Qed.

(** X10.  A search stops at the first name that is not a stored bucket and
    throws [Memory bucket <name> not found]; the store is then the store
    that the retrievals from the buckets before that name left (their
    chunks stay marked as accessed), not the store of before the call. *)
Theorem searchMemories_unknown_bucket {N : Type} `{JsNumber N}
    (now : Z) (query : string) (queryEmbedding : list N)
    (names : option (list string)) (limit : nat) (db : Db N)
    (before after : list string) (name : string) :
  default MEMORY_BUCKET_NAMES names = (before ++ name :: after)%list →
  Forall (λ name, is_Some (buckets db !! name)) before →
  buckets db !! name = None →
  ∃ found db1,
    searchLoop now before queryEmbedding
      (ceilDiv limit (length (before ++ name :: after))) [] db = (Ok found, db1)
    ∧ searchMemories now query queryEmbedding names limit db
      = (Err (NotFound ("Memory bucket " ++ name ++ " not found")), db1).
Proof.
  intros Hnames Hbefore Hname. unfold searchMemories, bind. rewrite Hnames.
  destruct (searchLoop_unknown now before after name queryEmbedding
              (ceilDiv limit (length (before ++ name :: after))) db [] Hbefore Hname)
    as (found & db1 & Hloop & Hfail).
  exists found, db1. split; [done |]. by rewrite Hfail.
Qed.

Lemma searchMemories_bounded_witness :
  ∃ results db',
    searchMemories 5 "query" [numZ 1; numZ 0] (Some ["semantic_stm"]) 20 ranking_db
    = (Ok results, db')
    ∧ (length results ≤ 20)%nat.
Proof.
  destruct (searchMemories_bounded 5 "query" [numZ 1; numZ 0] (Some ["semantic_stm"]) 20
              ranking_db) as (results & db' & Hrun & Hlen & _).
  - constructor; [| constructor]. eexists. vm_compute. reflexivity.
  - exists results, db'. exact (conj Hrun Hlen).
Defined.

Lemma searchMemories_unknown_bucket_witness :
  ∃ found db1,
    searchLoop 5 ["semantic_stm"] [numZ 1; numZ 0] (ceilDiv 20 2) [] ranking_db
    = (Ok found, db1)
    ∧ searchMemories 5 "query" [numZ 1; numZ 0] (Some ["semantic_stm"; "attic"]) 20
        ranking_db
      = (Err (NotFound "Memory bucket attic not found"), db1).
Proof.
  apply (searchMemories_unknown_bucket 5 "query" [numZ 1; numZ 0]
           (Some ["semantic_stm"; "attic"]) 20 ranking_db ["semantic_stm"] [] "attic").
  - reflexivity.
  - constructor; [| constructor]. eexists. vm_compute. reflexivity.
  - vm_compute. reflexivity.
Defined.

(** ** Ranking of a search *)

Section SearchSimilarity.
Context {N : Type} `{JsNumber N}.

(** What a retrieval attaches to the chunks it returns: the similarity to
    the query, when the query is not empty. *)
Definition attached (q : list N) (r : Retrieved (N := N)) : Prop :=
  similarity r = if decide (q = []) then None
                 else Some (calculateCosineSimilarity q (embedding (chunk r))).

Lemma returned_attached (q : list N) (found : list (MemoryChunk N)) (r : Retrieved) :
  r ∈ returned (Some q) found → attached q r.
Proof.
  unfold returned, attached. destruct q as [|x q]; cbn.
  - by intros (c & -> & _)%list_elem_of_fmap.
  - unfold Array_sort. rewrite stable_sort_perm.
    by intros (c & -> & _)%list_elem_of_fmap.
Qed.

Lemma searchLoop_attached now (names : list string) (q : list N) perBucket :
  ∀ (db db' : Db N) (allResults results : list Retrieved),
    searchLoop now names q perBucket allResults db = (Ok results, db') →
    Forall (attached q) allResults → Forall (attached q) results.
Proof.
  induction names as [|name names IH]; intros db db' acc results; cbn [searchLoop].
  - by intros [= <- <-].
  - unfold bind.
    destruct (buckets db !! name) as [bucket |] eqn:Hbucket.
    + destruct (getMemoriesFromBucket_run now name (Some q) perBucket default_minScore
                  db bucket Hbucket) as (db1 & -> & _).
      intros Hloop Hacc. apply (IH _ _ _ _ Hloop).
      apply Forall_app. split; [done |].
      apply Forall_forall. intros r Hr. by eapply returned_attached.
    + by rewrite getMemoriesFromBucket_unknown.
Qed.
End SearchSimilarity.

(** The key that ranks a chunk in a search with the query [q]: its
    similarity to the query when that is not 0, its score otherwise. *)
Definition mixedKey (q : list R) (c : MemoryChunk R) : R :=
  if decide (calculateCosineSimilarity q (embedding c) = 0%R) then score c
  else calculateCosineSimilarity q (embedding c).

Lemma rankKey_mixedKey (q : list R) (r : Retrieved (N := R)) :
  attached q r → rankKey r = mixedKey q (chunk r).
Proof.
  unfold attached, rankKey, mixedKey, orElse. intros ->.
  destruct (decide (q = [])) as [-> | Hq].
  - rewrite decide_True; [done |].
    rewrite calculateCosineSimilarity_real. case_decide as Hok; [| done].
    destruct Hok as (_ & Hq & _). by destruct Hq.
  - cbn [truthy real_number]. by case_decide; case_bool_decide.
Qed.

(** Two chunks of [semantic_stm]: "a" with score 1.5 and an embedding
    orthogonal to the query [1, 0]; "b" with score 3 and the embedding of
    the query. *)
Definition mixed_db : Db float :=
  {| buckets := {[ "semantic_stm" := semantic_stm ]};
     chunks := {[ "a" := stm_chunk "a" "orthogonal" [numZ 0; numZ 1] (lit 15 10) 0;
                  "b" := stm_chunk "b" "aligned" [numZ 1; numZ 0] (numZ 3) 0 ]};
     links := []; reflections := [] |}.

(** C10.  When every bucket to search is stored, [searchMemories] returns
    its results in descending order of one key: the similarity of the chunk
    to the query when that similarity is not 0, and the score of the chunk
    when the similarity is 0 or, the query being empty, was not attached
    (numbers as reals).  So similarities and scores are compared with each
    other: in [mixed_db] (binary64), with the query [1, 0], chunk "a"
    (similarity 0, score 1.5) is returned before chunk "b" (similarity 1,
    the embedding of the query itself, score 3), which has the higher
    similarity and the higher score: the order is neither that of the
    similarities nor that of the scores. *)
Theorem searchMemories_ranks_score_against_similarity :
  (∀ (now : Z) (query : string) (q : list R) (names : option (list string))
     (limit : nat) (db : Db R),
     Forall (λ name, is_Some (buckets db !! name)) (default MEMORY_BUCKET_NAMES names) →
     ∃ results db',
       searchMemories now query q names limit db = (Ok results, db')
       ∧ (∀ r, r ∈ results →
               similarity r
               = if decide (q = []) then None
                 else Some (calculateCosineSimilarity q (embedding (chunk r))))
       ∧ StronglySorted
           (λ a b,
              (if decide (calculateCosineSimilarity q (embedding (chunk b)) = 0)
               then score (chunk b)
               else calculateCosineSimilarity q (embedding (chunk b)))
              <= (if decide (calculateCosineSimilarity q (embedding (chunk a)) = 0)
                  then score (chunk a)
                  else calculateCosineSimilarity q (embedding (chunk a))))%R
           results)
  ∧ (∃ first second db',
       searchMemories 5 "query" [numZ 1; numZ 0] (Some ["semantic_stm"]) 20 mixed_db
       = (Ok [first; second], db')
       ∧ chunk_id (chunk first) = "a"
       ∧ similarity first = Some (numZ 0)
       ∧ score (chunk first) = lit 15 10
       ∧ chunk_id (chunk second) = "b"
       ∧ similarity second = Some (numZ 1)
       ∧ score (chunk second) = numZ 3
       ∧ (score (chunk first) <? score (chunk second))%js = true
       ∧ rankKey first = score (chunk first)
       ∧ rankKey second = numZ 1
       ∧ (rankKey second <? rankKey first)%js = true)
  ∧ (∃ first second db',
       searchMemories 5 "query" [] (Some ["semantic_stm"]) 20 mixed_db
       = (Ok [first; second], db')
       ∧ chunk_id (chunk first) = "b" ∧ chunk_id (chunk second) = "a"
       ∧ similarity first = None ∧ rankKey first = score (chunk first)
       ∧ similarity second = None ∧ rankKey second = score (chunk second)
       ∧ (rankKey second <? rankKey first)%js = true).
Proof.
  split; [| split].
  - intros now query q names limit db Hnames.
    unfold searchMemories, bind.
    set (bucketsToSearch := default MEMORY_BUCKET_NAMES names) in *.
    destruct (searchLoop_run now bucketsToSearch q
                (ceilDiv limit (length bucketsToSearch)) db [] Hnames)
      as (all & db' & Hloop & _).
    pose proof (searchLoop_attached now bucketsToSearch q _ db db' [] _ Hloop
                  (Forall_nil_2 _)) as Hatt.
    rewrite Hloop. cbn [app] in *. eexists _, db'. split; [reflexivity |].
    assert (Hin : ∀ r, r ∈ take limit (Array_sort (λ a b, (rankKey b - rankKey a)%js) all) →
                       attached q r).
    { intros r Hr. apply (subseteq_take limit) in Hr. unfold Array_sort in Hr.
      rewrite stable_sort_perm in Hr. by eapply Forall_forall in Hatt. }
    split; [exact Hin |].
    assert (Hkeys : Forall (λ r : Retrieved (N := R), rankKey r = mixedKey q (chunk r))
                      (take limit (Array_sort (λ a b, (rankKey b - rankKey a)%js) all))).
    { apply Forall_forall. intros r Hr. by apply rankKey_mixedKey, Hin. }
    apply (StronglySorted_key_eq rankKey (λ r, mixedKey q (chunk r)) _ Hkeys).
    apply StronglySorted_take, (Array_sort_by_key rankKey).
  - eexists _, _, _. split; [vm_compute; reflexivity |].
    split; [vm_compute; reflexivity |]. split; [vm_compute; reflexivity |].
    split; [vm_compute; reflexivity |]. split; [vm_compute; reflexivity |].
    split; [vm_compute; reflexivity |]. split; [vm_compute; reflexivity |].
    split; [vm_compute; reflexivity |]. split; [vm_compute; reflexivity |].
    split; vm_compute; reflexivity.
  - eexists _, _, _. split; [vm_compute; reflexivity |].
    split; [vm_compute; reflexivity |]. split; [vm_compute; reflexivity |].
    split; [vm_compute; reflexivity |]. split; [vm_compute; reflexivity |].
    split; [vm_compute; reflexivity |]. split; vm_compute; reflexivity.
Qed.

Lemma searchMemories_ranks_score_against_similarity_witness :
  ∃ results db',
    searchMemories 9 "query" [1%R; 0%R] (Some ["semantic_stm"; "semantic_ltm"]) 20
      (shelf_db (N := R)) = (Ok results, db')
    ∧ StronglySorted
        (λ a b,
           (if decide (calculateCosineSimilarity [1; 0] (embedding (chunk b)) = 0)
            then score (chunk b)
            else calculateCosineSimilarity [1; 0] (embedding (chunk b)))
           <= (if decide (calculateCosineSimilarity [1; 0] (embedding (chunk a)) = 0)
               then score (chunk a)
               else calculateCosineSimilarity [1; 0] (embedding (chunk a))))%R
        results.
Proof.
  destruct searchMemories_ranks_score_against_similarity as [Hsorted _].
  destruct (Hsorted 9 "query" [1%R; 0%R] (Some ["semantic_stm"; "semantic_ltm"]) 20%nat
              (shelf_db (N := R))) as (results & db' & Hrun & _ & Hs).
  - constructor; [| constructor; [| constructor]]; eexists; vm_compute; reflexivity.
  - exists results, db'. exact (conj Hrun Hs).
Defined.

Section JustAccessed.
Local Open Scope R_scope.

(** Over the reals, a decay run at the time of the last access of a chunk
    deletes it when its score is below 0.05 and leaves it as it is
    otherwise. *)
Lemma decayOutcome_just_accessed (now : Z) (c : MemoryChunk R) :
  lastAccessed c = now →
  decayOutcome real_pow now c = if bool_decide (score c < 5 / 100) then None else Some c.
Proof.
  intros <-. unfold decayOutcome. rewrite decayedScore_no_elapsed.
  unfold lit, nneb. cbn [nltb neqb ndiv numZ real_number].
  destruct (bool_decide (score c < 5 / 100)); [done |].
  by rewrite bool_decide_eq_true_2.
Qed.
End JustAccessed.

(** X11.  [boostMemory] on an id that is not stored throws and leaves the store
    as it was.  On a stored chunk it adds the boost to the score, sets
    [lastAccessed] to the time of the call and increments [accessCount];
    a decay run at that same time then deletes the chunk when the boosted
    score is below 0.05 and otherwise leaves it exactly as the boost left
    it.  (Numbers are reals.) *)
Theorem boostMemory_then_decay (now : Z) (k : Id) (boost : R) (db : Db R) :
  match chunks db !! k with
  | None =>
      boostMemory now k boost db = (Err (NotFound "Record to update not found"), db)
  | Some c =>
      ∃ db1 cnt db2,
        boostMemory now k boost db = (Ok tt, db1)
        ∧ chunks db1 = <[k := boosted now boost c]> (chunks db)
        ∧ score (boosted now boost c) = (score c + boost)%R
        ∧ lastAccessed (boosted now boost c) = now
        ∧ accessCount (boosted now boost c) = S (accessCount c)
        ∧ applyMemoryDecay real_pow now db1 = (Ok cnt, db2)
        ∧ chunks db2 !! k
          = if bool_decide (score c + boost < 5 / 100)%R then None
            else Some (boosted now boost c)
  end.
Proof.
  destruct (chunks db !! k) as [c |] eqn:Hc.
  - destruct (applyMemoryDecay_run real_pow now
                (set_chunks (<[k := boosted now boost c]> (chunks db)) db))
      as (cnt & db2 & Hrun & _ & _ & _ & _ & _ & _ & Hchunks).
    eexists _, cnt, db2. split.
    { unfold boostMemory, updateChunk. rewrite Hc. reflexivity. }
    split; [reflexivity |]. split; [reflexivity |]. split; [reflexivity |].
    split; [reflexivity |]. split; [exact Hrun |].
    rewrite Hchunks, lookup_omap. cbn [chunks set_chunks].
    rewrite lookup_insert_eq. cbn. by rewrite decayOutcome_just_accessed.
  - unfold boostMemory, updateChunk. by rewrite Hc.
Qed.

(** X12.  With a [minScore] of at least 0.05 (the default is 0.1), every
    chunk that [getMemoriesFromBucket] returns is left by a decay run at
    the same time exactly as the retrieval left it: in the store, with the
    score it was returned with, [lastAccessed] the time of the call and
    one access more.  (Numbers are reals.) *)
Theorem getMemoriesFromBucket_shields_from_decay (now : Z) (name : string)
    (queryEmbedding : option (list R)) (limit : nat) (minScore : R) (db : Db R) :
  (5 / 100 <= minScore)%R →
  is_Some (buckets db !! name) →
  ∃ results db1 cnt db2,
    getMemoriesFromBucket now name queryEmbedding limit minScore db = (Ok results, db1)
    ∧ applyMemoryDecay real_pow now db1 = (Ok cnt, db2)
    ∧ ∀ r, r ∈ results →
           ∃ c, chunks db1 !! chunk_id (chunk r) = Some c
                ∧ chunks db2 !! chunk_id (chunk r) = Some c
                ∧ score c = score (chunk r)
                ∧ lastAccessed c = now
                ∧ accessCount c = S (accessCount (chunk r)).
Proof.
  intros Hmin [bucket Hbucket].
  destruct (getMemoriesFromBucket_run now name queryEmbedding limit minScore db
              bucket Hbucket) as (db1 & Hrun & _ & _ & _ & Hlook).
  destruct (applyMemoryDecay_run real_pow now db1)
    as (cnt & db2 & Hdecay & _ & _ & _ & _ & _ & _ & Hchunks).
  eexists _, db1, cnt, db2. split; [exact Hrun |]. split; [exact Hdecay |].
  intros r Hr.
  assert (Hc : chunk r ∈ pulled (bucket_id bucket) minScore limit db)
    by (rewrite <- (chunk_returned queryEmbedding); by apply list_elem_of_fmap_2).
  pose proof Hc as Hrow. apply elem_of_pulled in Hrow as (Hrow & _ & Hscore).
  apply elem_of_chunkRows in Hrow as (c & Hk & Heq).
  assert (Hin : chunk_id (chunk r) ∈ chunk_id <$> pulled (bucket_id bucket) minScore limit db)
    by (by apply list_elem_of_fmap_2).
  assert (Hid : chunk_id (chunk r) = chunk_id (set_chunk_id (chunk_id (chunk r)) c))
    by done.
  exists (touch now c).
  assert (H1 : chunks db1 !! chunk_id (chunk r) = Some (touch now c)).
  { rewrite Hlook, decide_True by done.
    rewrite Heq in Hk. cbn [chunk_id set_chunk_id] in Hk. rewrite Heq.
    cbn [chunk_id set_chunk_id]. by rewrite Hk. }
  split; [exact H1 |]. split.
  - rewrite Hchunks, lookup_omap, H1. cbn.
    rewrite decayOutcome_just_accessed by done.
    rewrite bool_decide_eq_false_2; [done |].
    rewrite Heq in Hscore. cbn [score set_chunk_id touch nleb real_number] in *.
    apply bool_decide_eq_true in Hscore. lra.
  - rewrite Heq. done.
Qed.

Lemma getMemoriesFromBucket_shields_from_decay_witness :
  ∃ results db1 cnt db2,
    getMemoriesFromBucket (hours 100) "semantic_stm" None 10 default_minScore
      (scenario_db (N := R)) = (Ok results, db1)
    ∧ applyMemoryDecay real_pow (hours 100) db1 = (Ok cnt, db2)
    ∧ ∀ r, r ∈ results →
           ∃ c, chunks db1 !! chunk_id (chunk r) = Some c
                ∧ chunks db2 !! chunk_id (chunk r) = Some c
                ∧ score c = score (chunk r)
                ∧ lastAccessed c = hours 100
                ∧ accessCount c = S (accessCount (chunk r)).
Proof.
  apply (getMemoriesFromBucket_shields_from_decay (hours 100) "semantic_stm" None 10
           default_minScore (scenario_db (N := R))).
  - unfold default_minScore, lit. cbn. lra.
  - exists semantic_stm. unfold scenario_db. cbn [buckets]. by rewrite lookup_singleton_eq.
Defined.

(** ** The scores after a decay run *)

Section DecayBounds.
Local Open Scope R_scope.

(** A power of a rate in ]0, 1[ with an exponent that is not negative is at
    most 1. *)
Lemma real_pow_le_1 (rate h : R) : 0 < rate < 1 → 0 <= h → real_pow rate h <= 1.
Proof.
  intros Hrate Hh. unfold real_pow, Rpower.
  rewrite <- exp_0. destruct (Req_dec h 0) as [-> | Hne].
  { rewrite Rmult_0_l. lra. }
  apply Rlt_le, exp_increasing.
  assert (Hln : ln rate < 0).
  { rewrite <- ln_1. apply ln_increasing; lra. }
  nra.
Qed.

Lemma real_pow_pos (rate h : R) : 0 < real_pow rate h.
Proof. unfold real_pow, Rpower. apply exp_pos. Qed.

Lemma decayedScore_le (now : Z) (c : MemoryChunk R) :
  0 <= score c → 0 < decayRate c < 1 → (lastAccessed c ≤ now)%Z →
  0 <= decayedScore real_pow now c <= score c.
Proof.
  intros Hs Hr Ht. unfold decayedScore. cbn [numZ nmul ndiv real_number].
  set (h := IZR (now - lastAccessed c) / (1000 * 60 * 60)).
  assert (Hh : 0 <= h).
  { unfold h. apply Rmult_le_pos; [apply IZR_le; lia | lra]. }
  pose proof (real_pow_le_1 (decayRate c) h Hr Hh).
  pose proof (real_pow_pos (decayRate c) h). nra.
Qed.
End DecayBounds.

(** X13.  Over the reals, after a decay run every stored chunk has a score
    of at least 0.05.  A chunk with a score that is not negative, a decay
    rate strictly between 0 and 1 and a last access no later than the run
    comes out with at most the score it had; when its score was below
    0.05 it is deleted. *)
Theorem applyMemoryDecay_lowers_scores (now : Z) (db : Db R) :
  ∃ cnt db',
    applyMemoryDecay real_pow now db = (Ok cnt, db')
    ∧ (∀ k c', chunks db' !! k = Some c' → (5 / 100 <= score c')%R)
    ∧ (∀ k c c', chunks db !! k = Some c → chunks db' !! k = Some c' →
         (0 <= score c)%R → (0 < decayRate c < 1)%R → (lastAccessed c ≤ now)%Z →
         (score c' <= score c)%R)
    ∧ (∀ k c, chunks db !! k = Some c →
         (0 <= score c < 5 / 100)%R → (0 < decayRate c < 1)%R → (lastAccessed c ≤ now)%Z →
         chunks db' !! k = None).
Proof.
  destruct (applyMemoryDecay_run real_pow now db)
    as (cnt & db' & Hrun & _ & _ & _ & _ & _ & _ & Hchunks).
  exists cnt, db'. split; [done |].
  assert (Hout : ∀ c c', decayOutcome real_pow now c = Some c' →
            (5 / 100 <= score c')%R
            ∧ (score c' = decayedScore real_pow now c)).
  { intros c c'. unfold decayOutcome, nneb, lit. cbn [nltb neqb ndiv numZ real_number].
    generalize (decayedScore real_pow now c). intros d.
    destruct (bool_decide (d < 5 / 100)%R) eqn:Hlow; [done |].
    apply bool_decide_eq_false, Rnot_lt_le in Hlow.
    destruct (bool_decide (d = score c)) eqn:Hsame; cbn [negb].
    - apply bool_decide_eq_true in Hsame. intros [= <-]. split; lra.
    - intros [= <-]. cbn [score set_score]. split; lra. }
  split; [| split].
  - intros k c'. rewrite Hchunks, lookup_omap.
    destruct (chunks db !! k) as [c |]; [| done]. cbn. intros Hc'.
    by apply Hout in Hc' as [Hfloor _].
  - intros k c c' Hc. rewrite Hchunks, lookup_omap, Hc. cbn.
    intros Hc' Hs Hr Ht. apply Hout in Hc' as [_ ->].
    by apply decayedScore_le.
  - intros k c Hc Hs Hr Ht. rewrite Hchunks, lookup_omap, Hc. cbn.
    destruct (decayOutcome real_pow now c) as [c' |] eqn:Hc'; [| done].
    apply Hout in Hc' as [Hfloor Heq].
    destruct (decayedScore_le now c) as [_ Hle]; [lra | done | done |]. lra.
Qed.

(** ** Similarity of two texts *)

Lemma lower_unit_idemp (c : ascii) : lower_unit (lower_unit c) = lower_unit c.
Proof. destruct c as [[] [] [] [] [] [] [] []]; reflexivity. Qed.

Lemma toLowerCase_idemp (s : string) : toLowerCase (toLowerCase s) = toLowerCase s.
Proof. induction s as [|c s IH]; [done |]. cbn. by rewrite lower_unit_idemp, IH. Qed.

Lemma splitLoop_nonempty (inRun : bool) (piece s : string) : splitLoop inRun piece s ≠ [].
Proof.
  revert inRun piece. induction s as [|c s IH]; intros inRun piece; cbn; [done |].
  destruct (is_whitespace c); [| apply IH]. destruct inRun; [apply IH | done].
Qed.

Lemma tokens_nonempty (t : string) : (0 < size (tokens t))%nat.
Proof.
  unfold tokens, split_whitespace.
  pose proof (splitLoop_nonempty false EmptyString (toLowerCase t)) as Hne.
  destruct (splitLoop _ _ _) as [|w ws]; [done |].
  rewrite list_to_set_cons, size_union_alt, size_singleton. lia.
Qed.

(** X14.  [calculateTextSimilarity]
    is symmetric, for every number implementation.  A text has at least
    one token (the empty text has the empty token), so the size of the
    union it divides by is never 0.  Over the reals the similarity lies in
    [0, 1]; it is 1 exactly when the two texts have the same set of tokens,
    that is the same words: the stretches without white space of their
    lower-case forms.  So it is for a text and its lower-case form.  (The
    texts are those of code units below 256.) *)
Theorem calculateTextSimilarity_symmetric_bounded :
  (∀ {N : Type} `{JsNumber N} (text1 text2 : string),
     calculateTextSimilarity (N := N) text1 text2 = calculateTextSimilarity text2 text1)
  ∧ (∀ text1 text2 : string,
       (0 < size (tokens text1 ∪ tokens text2))%nat
       ∧ (0 <= calculateTextSimilarity (N := R) text1 text2 <= 1)%R
       ∧ (calculateTextSimilarity (N := R) text1 text2 = 1%R
          ↔ tokens text1 = tokens text2)
       ∧ (calculateTextSimilarity (N := R) text1 text2 = 1%R
          ↔ ∀ w, wordOf text1 w ↔ wordOf text2 w))
  ∧ (∀ text1 : string,
       calculateTextSimilarity (N := R) text1 (toLowerCase text1) = 1%R).
Proof.
  assert (Hpos : ∀ text1 text2, (0 < size (tokens text1 ∪ tokens text2))%nat).
  { intros text1 text2. pose proof (tokens_nonempty text1).
    pose proof (union_subseteq_l (tokens text1) (tokens text2)) as Hsub.
    apply subseteq_size in Hsub. lia. }
  assert (Hone : ∀ text1 text2,
            calculateTextSimilarity (N := R) text1 text2 = 1%R
            ↔ tokens text1 = tokens text2).
  { intros text1 text2. rewrite calculateTextSimilarity_jaccard.
    cbn [numZ ndiv real_number]. rewrite <- !INR_IZR_INZ.
    pose proof (Hpos text1 text2) as Hu. apply lt_INR in Hu. cbn in Hu.
    split.
    - intros Heq.
      assert (Hsize : size (tokens text1 ∩ tokens text2)
                      = size (tokens text1 ∪ tokens text2)).
      { apply INR_eq. apply (Rmult_eq_compat_r (INR (size (tokens text1 ∪ tokens text2))))
          in Heq. unfold Rdiv in Heq. rewrite Rmult_assoc, Rinv_l in Heq by lra. lra. }
      assert (Hsets : tokens text1 ∩ tokens text2 ≡ tokens text1 ∪ tokens text2).
      { apply set_subseteq_size_equiv; [set_solver | lia]. }
      apply set_eq. intros x. set_solver.
    - intros Heq. rewrite Heq.
      replace (tokens text2 ∩ tokens text2) with (tokens text2) by (apply set_eq; set_solver).
      replace (tokens text2 ∪ tokens text2) with (tokens text2) by (apply set_eq; set_solver).
      rewrite Heq in Hu.
      replace (tokens text2 ∪ tokens text2) with (tokens text2) in Hu
        by (apply set_eq; set_solver).
      unfold Rdiv. rewrite Rinv_r; [done | lra]. }
  split; [| split; [| ]].
  - intros N HN text1 text2. rewrite !calculateTextSimilarity_jaccard.
    f_equal; do 2 f_equal; f_equal; apply set_eq; set_solver.
  - intros text1 text2. split; [apply Hpos |].
    split; [| split; [apply Hone |]].
    2:{ rewrite Hone. split.
        - intros Heq w. by rewrite <- !elem_of_tokens, Heq.
        - intros Hwords. apply set_eq. intros w. by rewrite !elem_of_tokens. }
    rewrite calculateTextSimilarity_jaccard.
    cbn [numZ ndiv real_number]. rewrite <- !INR_IZR_INZ.
    pose proof (Hpos text1 text2) as Hu. apply lt_INR in Hu. cbn in Hu.
    assert (Hle : (size (tokens text1 ∩ tokens text2)
                   ≤ size (tokens text1 ∪ tokens text2))%nat)
      by (apply subseteq_size; set_solver).
    apply le_INR in Hle.
    pose proof (pos_INR (size (tokens text1 ∩ tokens text2))) as Hi.
    split.
    + apply Rmult_le_pos; [done |]. apply Rlt_le, Rinv_0_lt_compat. done.
    + apply (Rmult_le_reg_r (INR (size (tokens text1 ∪ tokens text2)))); [done |].
      unfold Rdiv. rewrite Rmult_assoc, Rinv_l by lra. lra.
  - intros text1. apply Hone. unfold tokens. by rewrite toLowerCase_idemp.
Qed.

(** ** The counts of a decay run and the statistics *)

Section DecayCounts.
Context {N : Type} `{JsNumber N}.
Variable Math_pow : N → N → N.
Variable now : Z.

Lemma size_omap_split {A B : Type} (f : A → option B) (m : gmap string A) :
  (size (omap f m) + length (filter (λ kx, f kx.2 = None) (map_to_list m)) = size m)%nat.
Proof.
  induction m as [|k x m Hk Hfirst IH] using map_first_key_ind.
  - rewrite omap_empty, map_to_list_empty, map_size_empty. reflexivity.
  - rewrite map_to_list_insert_first_key by done. rewrite filter_cons. cbn [snd].
    rewrite map_size_insert_None by done.
    destruct (f x) as [y |] eqn:Hfx.
    + rewrite (omap_insert_Some f m k x y Hfx).
      rewrite map_size_insert_None by (by rewrite lookup_omap, Hk).
      rewrite decide_False by done. lia.
    + rewrite (omap_insert_None f m k x Hfx).
      rewrite delete_id by (by rewrite lookup_omap, Hk).
      rewrite decide_True by done. cbn [length]. lia.
Qed.

Lemma length_filter_rows (P : MemoryChunk N → Prop) `{∀ c, Decision (P c)} (db : Db N) :
  (∀ k c, P (set_chunk_id k c) ↔ P c) →
  length (filter P (chunkRows db))
  = length (filter (λ kc : string * MemoryChunk N, P kc.2) (map_to_list (chunks db))).
Proof.
  intros Hid. unfold chunkRows.
  induction (map_to_list (chunks db)) as [|[k c] rows IH]; [done |].
  rewrite fmap_cons, !filter_cons. cbn [fst snd].
  destruct (decide (P (set_chunk_id k c))) as [Hp | Hp];
    destruct (decide (P c)) as [Hc | Hc]; cbn [length]; rewrite ?IH; try done.
  - by apply Hid in Hp.
  - by apply (Hid k) in Hc.
Qed.

Lemma decayOutcome_None (c : MemoryChunk N) :
  decayOutcome Math_pow now c = None ↔ evicted Math_pow now c.
Proof.
  unfold decayOutcome, evicted.
  destruct (decayedScore Math_pow now c <? lit 5 100)%js; cbn; [done |].
  by destruct (nneb _ _).
Qed.

Lemma disjoint_filters {A : Type} (P Q : A → Prop) `{∀ x, Decision (P x)}
    `{∀ x, Decision (Q x)} (l : list A) :
  (∀ x, P x → Q x → False) →
  (length (filter P l) + length (filter Q l) ≤ length l)%nat.
Proof.
  intros Hdisj. induction l as [|x l IH]; [done |].
  rewrite !filter_cons. repeat case_decide; cbn [length]; try lia.
  exfalso. by eapply Hdisj.
Qed.
End DecayCounts.

(** X27.  The counts that
    [applyMemoryDecay] returns account for the chunk table: [processed] is
    the number of chunks before the run, the number of chunks after the run
    is [processed - deleted], and [decayed] and [deleted] count different
    chunks.  [getMemoryStats] after the run reports [processed - deleted]
    chunks, and the links and reflections of before: a decay run deletes no
    link and no reflection.  (Every number implementation, any
    [Math.pow].) *)
Theorem applyMemoryDecay_counts_match_store {N : Type} `{JsNumber N}
    (Math_pow : N → N → N) (now : Z) (db : Db N) :
  ∃ cnt db' stats,
    applyMemoryDecay Math_pow now db = (Ok cnt, db')
    ∧ processed cnt = size (chunks db)
    ∧ (size (chunks db') + deleted cnt = processed cnt)%nat
    ∧ (decayed cnt + deleted cnt ≤ processed cnt)%nat
    ∧ getMemoryStats db' = (Ok stats, db')
    ∧ totalChunks stats = (processed cnt - deleted cnt)%nat
    ∧ totalLinks stats = length (links db)
    ∧ totalReflections stats = length (reflections db).
Proof.
  destruct (applyMemoryDecay_run Math_pow now db)
    as (cnt & db' & Hrun & Hp & Hd & He & _ & Hl & Hr & Hchunks).
  assert (Hdeleted : deleted cnt
            = length (filter (λ kc : string * MemoryChunk N,
                                decayOutcome Math_pow now kc.2 = None)
                             (map_to_list (chunks db)))).
  { rewrite He. rewrite (length_filter_rows (evicted Math_pow now) db) by done.
    f_equal. apply list_filter_iff. intros [k c]. cbn [snd].
    symmetry. apply decayOutcome_None. }
  pose proof (size_omap_split (decayOutcome Math_pow now) (chunks db)) as Hsize.
  rewrite <- Hchunks, <- Hdeleted in Hsize.
  eexists cnt, db', _. split; [exact Hrun |]. split; [exact Hp |].
  split; [lia |]. split.
  { rewrite Hp, Hd, He.
    assert (Hrows : size (chunks db) = length (chunkRows db))
      by (unfold chunkRows; by rewrite length_fmap, length_map_to_list).
    rewrite Hrows. apply disjoint_filters. unfold rescored. tauto. }
  split; [reflexivity |]. cbn [totalChunks totalLinks totalReflections].
  split; [lia |]. by rewrite Hl, Hr.
Qed.

(** ** A memory that is gathered twice *)

(** X28.  Two positions of the
    list, at most 9 apart, whose texts have the same words (the stretches
    without white space of their lower-case forms) and whose chunks are not
    linked, give a candidate of strength 1.  The discovery compares
    positions, not chunks: a memory that is in the list twice (a bucket
    named twice in the scope) is proposed a link from its chunk to the same
    chunk.  (Numbers are reals; the texts are those of code units below
    256.) *)
Theorem discoverMemoryConnections_same_tokens (now : Z)
    (memories : list (Retrieved (N := R))) (db : Db R) (i j : nat)
    (mi mj : Retrieved (N := R)) :
  (i < j ≤ i + 9)%nat →
  memories !! i = Some mi → memories !! j = Some mj →
  (∀ w, wordOf (text (chunk mi)) w ↔ wordOf (text (chunk mj)) w) →
  ¬ linked db (chunk_id (chunk mi)) (chunk_id (chunk mj)) →
  ∃ l,
    l ∈ candidates now memories db
    ∧ discoverMemoryConnections now memories db
      = (Ok (take 10 (candidates now memories db)), db)
    ∧ link_id l = TempLink now i j
    ∧ sourceId l = chunk_id (chunk mi) ∧ targetId l = chunk_id (chunk mj)
    ∧ strength l = 1%R
    ∧ (mi = mj → sourceId l = targetId l).
Proof.
  intros [Hij Hw] Hmi Hmj Hwords Hnone.
  assert (Htokens : tokens (text (chunk mi)) = tokens (text (chunk mj))).
  { apply set_eq. intros w. by rewrite !elem_of_tokens. }
  assert (Hsim : calculateTextSimilarity (N := R) (text (chunk mi)) (text (chunk mj)) = 1%R).
  { rewrite calculateTextSimilarity_jaccard, Htokens.
    replace (tokens (text (chunk mj)) ∩ tokens (text (chunk mj)))
      with (tokens (text (chunk mj))) by (apply set_eq; set_solver).
    replace (tokens (text (chunk mj)) ∪ tokens (text (chunk mj)))
      with (tokens (text (chunk mj))) by (apply set_eq; set_solver).
    cbn [numZ ndiv real_number]. rewrite <- INR_IZR_INZ.
    pose proof (tokens_nonempty (text (chunk mj))) as Hpos.
    apply lt_INR in Hpos. cbn in Hpos. unfold Rdiv. rewrite Rinv_r; [done | lra]. }
  exists (candidateLink now i j mi mj 1%R).
  split.
  - unfold candidates. apply list_elem_of_omap. exists (i, j). split.
    + apply elem_of_windowPairs. apply lookup_lt_Some in Hmj. lia.
    + unfold candidateAt. cbn [fst snd]. rewrite Hmi, Hmj. cbn zeta. rewrite Hsim.
      assert (Hgt : (1%R >? lit 7 10)%js = true).
      { unfold ngtb, lit. cbn [nltb ndiv numZ real_number].
        apply bool_decide_eq_true. lra. }
      rewrite Hgt. apply findFirstLinkBetween_None in Hnone. by rewrite Hnone.
  - split; [apply discoverMemoryConnections_run |].
    cbn [candidateLink link_id sourceId targetId strength].
    repeat split. by intros ->.
Qed.

Lemma discoverMemoryConnections_same_tokens_witness :
  let m : Retrieved (N := R) := plain (stm_chunk "m0" "the cat sat" [] 1%R 0) in
  ∃ l,
    l ∈ candidates 5 [m; m] (empty_db (N := R))
    ∧ sourceId l = "m0" ∧ targetId l = "m0" ∧ strength l = 1%R.
Proof.
  intros m.
  destruct (discoverMemoryConnections_same_tokens 5 [m; m] (empty_db (N := R))
              0%nat 1%nat m m) as (l & Hl & _ & _ & Hs & Ht & Hone & _).
  - lia.
  - reflexivity.
  - reflexivity.
  - reflexivity.
  - intros (l & Hl & _). cbn in Hl. by apply elem_of_nil in Hl.
  - exists l. exact (conj Hl (conj Hs (conj Ht Hone))).
Defined.

(** ** Recommendations *)

Definition reviewAdvice : string :=
  "Consider reviewing and reinforcing important memories that are showing signs of decay".
Definition learningAdvice : string :=
  "Continue reinforcing learning-related memories through active recall and application".
Definition diversifyAdvice : string :=
  "Consider diversifying information sources to build a more comprehensive knowledge base".

Section Recommendations.
Context {N : Type} `{JsNumber N}.

(** The recommendations for a list of memories, one test after the
    other. *)
Definition recommended (memories : list (Retrieved (N := N))) : list string :=
  let lowScores := filter (λ m, (score (chunk m) <? lit 5 10)%js) memories in
  let learning :=
    filter (λ m, includes (text (chunk m)) "learn" || includes (text (chunk m)) "study"
                 || includes (text (chunk m)) "practice") memories in
  let sources : gset string := list_to_set ((λ m, source (chunk m)) <$> memories) in
  ((if decide (10 < length lowScores)%nat then [reviewAdvice] else [])
   ++ (if decide (0 < length learning)%nat then [learningAdvice] else [])
   ++ (if decide (size sources < 3)%nat then [diversifyAdvice] else []))%list.

Lemma recommended_length (memories : list (Retrieved (N := N))) :
  (length (recommended memories) ≤ 3)%nat.
Proof. unfold recommended. cbn zeta. repeat case_decide; cbn; lia. Qed.

(** The cut at 5 recommendations never cuts. *)
Lemma generateRecommendations_run (insights : list string)
    (memories : list (Retrieved (N := N))) (db : Db N) :
  generateRecommendations insights memories db = (Ok (recommended memories), db).
Proof.
  unfold generateRecommendations, ret. cbn zeta. f_equal. f_equal.
  rewrite <- (take_ge (recommended memories) 5)
    by (pose proof (recommended_length memories); lia).
  f_equal. unfold recommended, push. cbn zeta.
  set (lowScores := filter (λ m : Retrieved, (score (chunk m) <? lit 5 10)%js) memories).
  set (learning := filter (λ m : Retrieved, Is_true (includes _ _ || _ || _)) memories).
  set (sources := list_to_set _).
  destruct (Nat.ltb_spec 10 (length lowScores));
    destruct (decide (10 < length lowScores)%nat); try lia;
    destruct (Nat.ltb_spec 0 (length learning));
    destruct (decide (0 < length learning)%nat); try lia;
    destruct (Nat.ltb_spec (size sources) 3);
    destruct (decide (size sources < 3)%nat); try lia; reflexivity.
Qed.
End Recommendations.

(** X18.  [generateRecommendations] returns without touching the store and
    without looking at the insights.  Its result holds, in this order,
    the advice to review when more than 10 memories have a score below
    0.5, the advice on learning when the text of some memory contains
    [learn], [study] or [practice], and the advice to diversify when the
    memories have fewer than 3 distinct sources: a sublist of the three,
    so the cut at 5 never cuts.  With at most 10 memories there is no
    advice to review, and with no memory the result is the advice to
    diversify alone. *)
Theorem generateRecommendations_at_most_three {N : Type} `{JsNumber N}
    (insights : list string) (memories : list (Retrieved (N := N))) (db : Db N) :
  let lowScores := filter (λ m, (score (chunk m) <? lit 5 10)%js) memories in
  let learning :=
    filter (λ m, includes (text (chunk m)) "learn" || includes (text (chunk m)) "study"
                 || includes (text (chunk m)) "practice") memories in
  let sources : gset string := list_to_set ((λ m, source (chunk m)) <$> memories) in
  ∃ recommendations,
    generateRecommendations insights memories db = (Ok recommendations, db)
    ∧ generateRecommendations [] memories db = (Ok recommendations, db)
    ∧ recommendations
      = ((if decide (10 < length lowScores)%nat then [reviewAdvice] else [])
         ++ (if decide (0 < length learning)%nat then [learningAdvice] else [])
         ++ (if decide (size sources < 3)%nat then [diversifyAdvice] else []))%list
    ∧ recommendations `sublist_of` [reviewAdvice; learningAdvice; diversifyAdvice]
    ∧ ((length memories ≤ 10)%nat → reviewAdvice ∉ recommendations)
    ∧ (memories = [] → recommendations = [diversifyAdvice]).
Proof.
  intros lowScores learning sources. exists (recommended memories).
  split; [apply generateRecommendations_run |].
  split; [apply generateRecommendations_run |]. split; [done |].
  unfold recommended. cbn zeta. fold lowScores learning sources.
  split; [| split].
  - repeat case_decide; cbn [app];
      repeat first [apply sublist_nil_l | apply sublist_skip | apply sublist_cons].
  - intros Hfew. rewrite decide_False.
    + repeat case_decide; cbn [app]; rewrite ?elem_of_cons, ?elem_of_nil;
        unfold reviewAdvice, learningAdvice, diversifyAdvice; intros Hin;
        repeat destruct Hin as [Hin | Hin]; done.
    + pose proof (length_filter (λ m : Retrieved, (score (chunk m) <? lit 5 10)%js)
                    memories) as Hle. fold lowScores in Hle. lia.
  - intros Hnil. unfold lowScores, learning, sources. rewrite Hnil. done.
Qed.

(** ** Analysis of the memories *)

Lemma prefix_of_take {A : Type} (l1 l2 : list A) (n : nat) :
  l1 `prefix_of` l2 → (length l1 ≤ n)%nat → l1 `prefix_of` take n l2.
Proof.
  intros [k ->] Hlen. rewrite take_app_ge by done.
  by apply prefix_app_r.
Qed.

Section Analysis.
Context {N : Type} `{JsNumber N}.
Variable identifyPatterns : list (Retrieved (N := N)) → list string.
Variable analyzeTopicClusters : list (Retrieved (N := N)) → list string → list string.
Variable performMetacognitiveAnalysis : list (Retrieved (N := N)) → list string.

(** The insights before the cut, for a depth. *)
Definition analysed (now : Z) (memories : list (Retrieved (N := N)))
    (depth : ReflectionDepth) (focusAreas : list string) : list string :=
  let base := (identifyPatterns memories ++ analyzeTemporalPatterns now memories
               ++ analyzeTopicClusters memories focusAreas)%list in
  match depth with
  | shallow => base
  | medium => (base ++ performDeepAnalysis memories)%list
  | deep => (base ++ performDeepAnalysis memories
             ++ performMetacognitiveAnalysis memories)%list
  end.

Definition insightLimit (depth : ReflectionDepth) : nat :=
  match depth with shallow => 5 | medium => 10 | deep => 15 end.

Lemma analyzeMemories_run now memories depth focusAreas (db : Db N) :
  analyzeMemories identifyPatterns analyzeTopicClusters performMetacognitiveAnalysis
    now memories depth focusAreas db
  = (Ok (take (insightLimit depth) (analysed now memories depth focusAreas)), db).
Proof.
  unfold analyzeMemories, analysed, insightLimit, ret. cbn zeta. cbn [app].
  destruct depth; by rewrite <- ?app_assoc.
Qed.
End Analysis.

(** X15.  [analyzeMemories] returns without touching the store, whatever
    the analyses of patterns, topics and metacognition return.  The
    insights are cut at 5 for the depth [shallow], at 10 for [medium] and
    at 15 for [deep]; the shallow insights are the first 5 of the pattern,
    temporal and topic insights; the medium analysis appends the deeper
    analysis to these before the cut, the deep analysis the metacognitive
    one as well.  So the shallow result is a prefix of the medium result,
    which is a prefix of the deep result. *)
Theorem analyzeMemories_depth {N : Type} `{JsNumber N}
    (identifyPatterns : list (Retrieved (N := N)) → list string)
    (analyzeTopicClusters : list (Retrieved (N := N)) → list string → list string)
    (performMetacognitiveAnalysis : list (Retrieved (N := N)) → list string)
    (now : Z) (memories : list (Retrieved (N := N))) (focusAreas : list string)
    (db : Db N) :
  let analyze :=
    analyzeMemories identifyPatterns analyzeTopicClusters performMetacognitiveAnalysis
      now memories in
  let base := (identifyPatterns memories ++ analyzeTemporalPatterns now memories
               ++ analyzeTopicClusters memories focusAreas)%list in
  ∃ atShallow atMedium atDeep,
    analyze shallow focusAreas db = (Ok atShallow, db)
    ∧ analyze medium focusAreas db = (Ok atMedium, db)
    ∧ analyze deep focusAreas db = (Ok atDeep, db)
    ∧ atShallow = take 5 base
    ∧ atMedium = take 10 (base ++ performDeepAnalysis memories)
    ∧ atDeep = take 15 (base ++ performDeepAnalysis memories
                        ++ performMetacognitiveAnalysis memories)
    ∧ (length atShallow ≤ 5)%nat ∧ (length atMedium ≤ 10)%nat
    ∧ (length atDeep ≤ 15)%nat
    ∧ atShallow `prefix_of` atMedium
    ∧ atMedium `prefix_of` atDeep.
Proof.
  intros analyze base. unfold analyze. rewrite !analyzeMemories_run.
  unfold analysed, insightLimit. cbn zeta. fold base.
  eexists _, _, _. split; [reflexivity |]. split; [reflexivity |].
  split; [reflexivity |]. split; [reflexivity |]. split; [reflexivity |].
  split; [reflexivity |].
  split; [rewrite length_take; lia |]. split; [rewrite length_take; lia |].
  split; [rewrite length_take; lia |]. split.
  - apply prefix_of_take; [| rewrite length_take; lia].
    etrans; [apply prefix_take |]. by apply prefix_app_r.
  - apply prefix_of_take; [| rewrite length_take; lia].
    etrans; [apply prefix_take |]. rewrite app_assoc. by apply prefix_app_r.
Qed.

Section Temporal.
Context {N : Type} `{JsNumber N}.

Lemma week_count (now : Z) (memories : list (Retrieved (N := N))) :
  length (filter (λ m, now - timestamp (chunk m) < 7 * (24 * 60 * 60 * 1000))%Z memories)
  = (length (filter (λ m, now - timestamp (chunk m) < 24 * 60 * 60 * 1000)%Z memories)
     + length (filter (λ m, 24 * 60 * 60 * 1000 ≤ now - timestamp (chunk m)
                            < 7 * (24 * 60 * 60 * 1000))%Z memories))%nat.
Proof.
  induction memories as [|m memories IH]; [done |].
  rewrite !filter_cons. repeat case_decide; cbn [length]; lia.
Qed.
End Temporal.

(** The two insights of the temporal analysis. *)
Definition recentInsight (n : nat) : string :=
  Number_toString n ++ " new memories formed in the last 24 hours".
Definition weekInsight (n : nat) : string :=
  "Memory formation has been consistent over the past week ("
  ++ Number_toString n ++ " additional memories)".

(** X16.  [analyzeTemporalPatterns] reports the number of memories created
    less than 24 hours before [now] (a timestamp after [now] counts) when
    there is one, and then the number of memories created at least a day
    and less than 7 days before [now] when there is one: the difference of
    the two counts it takes is that number.  It reports nothing else. *)
Theorem analyzeTemporalPatterns_counts {N : Type} `{JsNumber N}
    (now : Z) (memories : list (Retrieved (N := N))) :
  let day := 24 * 60 * 60 * 1000 in
  let recent := length (filter (λ m, now - timestamp (chunk m) < day) memories) in
  let earlier :=
    length (filter (λ m, day ≤ now - timestamp (chunk m) < 7 * day) memories) in
  analyzeTemporalPatterns now memories
  = ((if decide (0 < recent)%nat then [recentInsight recent] else [])
     ++ (if decide (0 < earlier)%nat then [weekInsight earlier] else []))%list.
Proof.
  intros day recent earlier. unfold analyzeTemporalPatterns, push. cbn zeta.
  pose proof (week_count now memories) as Hweek. fold day recent earlier in Hweek.
  fold day. fold recent. rewrite Hweek.
  replace (recent + earlier - recent)%nat with earlier by lia.
  destruct (Nat.ltb_spec 0 recent); destruct (decide (0 < recent)%nat); try lia;
    destruct (Nat.ltb_spec recent (recent + earlier));
    destruct (decide (0 < earlier)%nat); try lia; reflexivity.
Qed.

(** ** The deeper analysis *)

(** The insight on the memories that resist decay, and the insight on the
    most accessed memory. *)
Definition resistantInsight (n : nat) : string :=
  Number_toString n
  ++ " memories show strong resistance to decay, indicating high importance".

Definition mostAccessedInsight (txt : string) (n : nat) : string :=
  "Most frequently accessed memory: " ++ double_quote ++ txt ++ "..." ++ double_quote
  ++ " (" ++ Number_toString n ++ " accesses)".

Section DeepAnalysis.
Context {N : Type} `{JsNumber N}.

Definition toPattern (m : Retrieved (N := N)) : AccessPattern :=
  {| pattern_text := substring 0 50 (text (chunk m));
     pattern_accessCount := accessCount (chunk m) |}.

Lemma accessPatterns_filter (memories : list (Retrieved (N := N))) :
  ∀ acc, foldl accessPatternStep acc memories
         = (acc ++ (toPattern <$> filter (λ m, (1 < accessCount (chunk m))%nat) memories))%list.
Proof.
  induction memories as [|m memories IH]; intros acc; cbn [foldl].
  - by rewrite app_nil_r.
  - rewrite IH, filter_cons. unfold accessPatternStep, push.
    destruct (Nat.ltb_spec 1 (accessCount (chunk m))); case_decide; try lia; [| done].
    by rewrite fmap_cons, <- app_assoc.
Qed.

Lemma sortByAccessCount_head (l : list AccessPattern) :
  l ≠ [] →
  ∃ p others, sortByAccessCount l = p :: others
              ∧ p ∈ l
              ∧ ∀ q, q ∈ l → (pattern_accessCount q ≤ pattern_accessCount p)%nat.
Proof.
  intros Hne. unfold sortByAccessCount.
  set (after := λ a b : AccessPattern, (pattern_accessCount a <? pattern_accessCount b)%nat).
  pose proof (stable_sort_perm after l) as Hperm.
  assert (Hsorted : StronglySorted (λ a b, after a b = false) (stable_sort after l)).
  { apply stable_sort_sorted; unfold after.
    - intros x y Hxy. apply Nat.ltb_lt in Hxy. apply Nat.ltb_ge. lia.
    - intros x y z. rewrite !Nat.ltb_ge. lia. }
  destruct (stable_sort after l) as [|p others].
  { apply Permutation_nil_l in Hperm. by subst l. }
  exists p, others. split; [done |]. split; [rewrite <- Hperm; left |].
  intros q Hq. rewrite <- Hperm in Hq. apply elem_of_cons in Hq as [-> | Hq]; [done |].
  apply StronglySorted_inv in Hsorted as [_ Hall].
  rewrite Forall_forall in Hall. specialize (Hall q Hq). unfold after in Hall.
  by apply Nat.ltb_ge in Hall.
Qed.
End DeepAnalysis.

(** X17.  [performDeepAnalysis] returns at most two insights.  When no
    memory was accessed more than once there is no insight on accesses;
    otherwise the first insight names a memory with the highest access
    count of all, by the first 50 characters of its text and its count.
    The last insight counts the memories with a score above 1.5 and more
    than 2 accesses, when there are any; it never comes alone. *)
Theorem performDeepAnalysis_most_accessed {N : Type} `{JsNumber N}
    (memories : list (Retrieved (N := N))) :
  let resistant :=
    length (filter (λ m, (score (chunk m) >? lit 15 10)%js
                         && (2 <? accessCount (chunk m))%nat) memories) in
  ∃ accessed,
    performDeepAnalysis memories
    = (accessed
       ++ if decide (0 < resistant)%nat then [resistantInsight resistant] else [])%list
    ∧ (((∀ m, m ∈ memories → (accessCount (chunk m) ≤ 1)%nat) ∧ accessed = [])
       ∨ ∃ m, m ∈ memories
              ∧ (1 < accessCount (chunk m))%nat
              ∧ (∀ m', m' ∈ memories →
                       (accessCount (chunk m') ≤ accessCount (chunk m))%nat)
              ∧ accessed = [mostAccessedInsight (substring 0 50 (text (chunk m)))
                                                (accessCount (chunk m))])
    ∧ ((0 < resistant)%nat → accessed ≠ []).
Proof.
  intros resistant. unfold performDeepAnalysis. cbn zeta. fold resistant.
  rewrite accessPatterns_filter. cbn [app].
  set (repeated := filter (λ m : Retrieved, (1 < accessCount (chunk m))%nat) memories).
  assert (Htail : ∀ l : list string,
            (if (0 <? resistant)%nat
             then push l (resistantInsight resistant)
             else l)
            = (l ++ if decide (0 < resistant)%nat then [resistantInsight resistant]
                    else [])%list).
  { intros l. unfold push.
    destruct (Nat.ltb_spec 0 resistant); case_decide; try lia; [done |].
    by rewrite app_nil_r. }
  destruct repeated as [|m0 repeated'] eqn:Hrep.
  - cbn [fmap list_fmap sortByAccessCount stable_sort foldr]. rewrite Htail.
    exists []. split; [done |]. split.
    + left. split; [| done]. intros m Hm.
      destruct (decide (1 < accessCount (chunk m))%nat) as [Hgt |]; [| lia].
      assert (Hin : m ∈ repeated) by (by apply list_elem_of_filter).
      rewrite Hrep in Hin. by apply elem_of_nil in Hin.
    + intros Hres. exfalso. unfold resistant in Hres.
      destruct (filter _ memories) as [|m others] eqn:Hfilter; [cbn in Hres; lia |].
      assert (Hm : m ∈ filter (λ m : Retrieved,
                     Is_true ((score (chunk m) >? lit 15 10)%js
                              && (2 <? accessCount (chunk m))%nat)) memories)
        by (rewrite Hfilter; left).
      apply list_elem_of_filter in Hm as [Hm Hin].
      apply andb_prop_elim in Hm as [_ Hm]. apply Is_true_true, Nat.ltb_lt in Hm.
      assert (Hin' : m ∈ repeated) by (apply list_elem_of_filter; split; [lia | done]).
      rewrite Hrep in Hin'. by apply elem_of_nil in Hin'.
  - destruct (sortByAccessCount_head (toPattern <$> (m0 :: repeated')))
      as (p & others & Hsort & Hp & Hmax); [done |].
    rewrite Hsort, Htail.
    apply list_elem_of_fmap in Hp as (m & -> & Hm).
    rewrite <- Hrep in Hm. apply list_elem_of_filter in Hm as [Hgt Hm].
    eexists. split; [reflexivity |]. split; [| done].
    right. exists m. split; [done |]. split; [done |]. split; [| done].
    intros m' Hm'.
    destruct (decide (1 < accessCount (chunk m'))%nat) as [Hgt' |]; [| lia].
    assert (Hin : toPattern m' ∈ toPattern <$> (m0 :: repeated')).
    { apply list_elem_of_fmap_2. rewrite <- Hrep. by apply list_elem_of_filter. }
    by apply Hmax in Hin.
Qed.

(** ** Saving the reflections *)

(** The reflection stored for a memory. *)
Definition reflectionOf {N : Type} (insights : list string) (conductor : string)
    (memory : Retrieved (N := N)) : MemoryReflection :=
  {| reflection_chunkId := chunk_id (chunk memory);
     reflection := join "; " insights;
     reflection_insights := insights;
     conductorId := conductor |}.

Lemma forEach_createReflection {N : Type} `{JsNumber N} (insights : list string)
    (conductor : string) (memories : list (Retrieved (N := N))) :
  ∀ db : Db N,
    forEach (λ memory, createReflection (reflectionOf insights conductor memory))
            memories db
    = (Ok tt, {| buckets := buckets db; chunks := chunks db; links := links db;
                 reflections := (reflections db
                                 ++ (reflectionOf insights conductor <$> memories))%list |}).
Proof.
  induction memories as [|m memories IH]; intros db.
  - cbn. rewrite app_nil_r. by destruct db.
  - cbn [forEach]. unfold bind. unfold createReflection at 1. rewrite IH.
    unfold add_reflection. cbn. by rewrite <- app_assoc.
Qed.

Lemma saveReflections_run {N : Type} `{JsNumber N}
    (memories : list (Retrieved (N := N))) (insights : list string)
    (conductor : string) (db : Db N) :
  saveReflections memories insights conductor db
  = (Ok tt, {| buckets := buckets db; chunks := chunks db; links := links db;
               reflections :=
                 (reflections db
                  ++ (reflectionOf insights conductor <$> take 20 memories))%list |}).
Proof. apply (forEach_createReflection insights conductor). Qed.

(** X19.  [saveReflections] always returns.  It appends one reflection
    for each of the first 20 memories, in their order, and none for the
    others; each carries the id of its memory, the list of insights, the
    insights joined by ["; "] as text, and the conductor.  The stored
    reflections and the other tables are kept. *)
Theorem saveReflections_appends {N : Type} `{JsNumber N}
    (memories : list (Retrieved (N := N))) (insights : list string)
    (conductor : string) (db : Db N) :
  ∃ db',
    saveReflections memories insights conductor db = (Ok tt, db')
    ∧ reflections db'
      = (reflections db ++ (reflectionOf insights conductor <$> take 20 memories))%list
    ∧ length (reflections db')
      = (length (reflections db) + Nat.min 20 (length memories))%nat
    ∧ buckets db' = buckets db ∧ chunks db' = chunks db ∧ links db' = links db.
Proof.
  eexists. split; [apply saveReflections_run |].
  cbn [reflections buckets chunks links]. split; [done |]. split; [| done].
  by rewrite length_app, length_fmap, length_take.
Qed.

(** ** The confidence of a reflection over memories *)

(** X20.  Over the reals, for at least one memory and scores that are
    not negative, the confidence lies in [0, 1].  It is 1 exactly when
    there are at least 50 memories and at least 10 insights and the mean
    score is at least 2; with at most 5 insights (the depth [shallow]) it
    is at most 0.85. *)
Theorem calculateConfidenceScore_saturates (memories : list (Retrieved (N := R)))
    (insights : list string) :
  memories ≠ [] →
  Forall (λ m, (0 <= score (chunk m))%R) memories →
  (0 <= calculateConfidenceScore memories insights <= 1)%R
  ∧ (calculateConfidenceScore memories insights = 1%R
     ↔ (50 ≤ length memories)%nat ∧ (10 ≤ length insights)%nat
       ∧ (2 * INR (length memories) <= scoreSum memories)%R)
  ∧ ((length insights ≤ 5)%nat →
     (calculateConfidenceScore memories insights <= 85 / 100)%R).
Proof.
  intros Hne Hall.
  destruct (calculateConfidenceScore_nonempty memories insights Hne Hall) as [Heq Hbounds].
  cbn zeta in Heq. split; [done |]. rewrite Heq. clear Heq Hbounds.
  assert (Hn : (0 < INR (length memories))%R).
  { destruct memories; [done |]. apply lt_0_INR. cbn. lia. }
  pose proof (scoreSum_nonneg memories Hall) as Hsum.
  set (n := INR (length memories)) in *. set (k := INR (length insights)).
  set (mean := (scoreSum memories / n)%R).
  assert (Hk : (0 <= k)%R) by apply pos_INR.
  assert (Hmean : (0 <= mean)%R).
  { unfold mean. apply Rmult_le_pos; [done |]. apply Rlt_le, Rinv_0_lt_compat. done. }
  assert (H50 : INR 50 = 50%R)
    by (rewrite INR_IZR_INZ; by change (Z.of_nat 50) with 50%Z).
  assert (H10 : INR 10 = 10%R)
    by (rewrite INR_IZR_INZ; by change (Z.of_nat 10) with 10%Z).
  assert (H5 : INR 5 = 5%R)
    by (rewrite INR_IZR_INZ; by change (Z.of_nat 5) with 5%Z).
  assert (Hn50 : (50 ≤ length memories)%nat ↔ (1 <= n / 50)%R).
  { unfold n. split.
    - intros Hle. apply le_INR in Hle. rewrite H50 in Hle. lra.
    - intros Hle. apply INR_le. rewrite H50. lra. }
  assert (Hk10 : (10 ≤ length insights)%nat ↔ (1 <= k / 10)%R).
  { unfold k. split.
    - intros Hle. apply le_INR in Hle. rewrite H10 in Hle. lra.
    - intros Hle. apply INR_le. rewrite H10. lra. }
  assert (Hmean2 : (2 * n <= scoreSum memories)%R ↔ (1 <= mean / 2)%R).
  { unfold mean. split.
    - intros Hle. apply (Rmult_le_reg_r (2 * n)); [lra |]. field_simplify; lra.
    - intros Hle. apply (Rmult_le_compat_r (2 * n)) in Hle; [| lra].
      field_simplify in Hle; lra. }
  split.
  - rewrite Hn50, Hk10, Hmean2.
    unfold Rmin. repeat destruct (Rle_dec _ _); split; intros; lra.
  - intros Hfew. apply le_INR in Hfew. fold k in Hfew. rewrite H5 in Hfew.
    unfold Rmin. repeat destruct (Rle_dec _ _); lra.
Qed.

Lemma calculateConfidenceScore_saturates_witness :
  (0 <= calculateConfidenceScore [plain (scenario_chunk (N := R))] [] <= 1)%R.
Proof.
  destruct (calculateConfidenceScore_saturates [plain (scenario_chunk (N := R))] [])
    as [Hbounds _].
  - discriminate.
  - constructor; [| constructor]. cbn. lra.
  - exact Hbounds.
Defined.

(** ** A whole reflection *)

Section ReflectionRun.
Context {N : Type} `{JsNumber N}.

Lemma getMemoriesFromBucket_tables now name queryEmbedding limit minScore (db : Db N) :
  let db' := (getMemoriesFromBucket now name queryEmbedding limit minScore db).2 in
  buckets db' = buckets db ∧ links db' = links db ∧ reflections db' = reflections db.
Proof.
  destruct (buckets db !! name) as [bucket |] eqn:Hbucket.
  - by destruct (getMemoriesFromBucket_run now name queryEmbedding limit minScore db
                   bucket Hbucket) as (db' & -> & Hb & Hl & Hr & _).
  - by rewrite getMemoriesFromBucket_unknown.
Qed.

Lemma gatherLoop_tables now (scope : list string) :
  ∀ (db : Db N) (allMemories : list Retrieved),
    let db' := (gatherLoop now scope allMemories db).2 in
    buckets db' = buckets db ∧ links db' = links db ∧ reflections db' = reflections db.
Proof.
  induction scope as [|bucket scope IH]; intros db acc; [done |].
  cbn [gatherLoop]. unfold bind.
  pose proof (getMemoriesFromBucket_tables now bucket None 50 default_minScore db) as Hstep.
  destruct (getMemoriesFromBucket now bucket None 50 default_minScore db)
    as [[memories | e] db1]; [| done].
  cbn [snd] in Hstep. destruct Hstep as (Hb & Hl & Hr).
  destruct (IH db1 (acc ++ memories)%list) as (Hb' & Hl' & Hr').
  cbn zeta. split; [congruence |]. split; congruence.
Qed.

Lemma gatherLoop_unknown now (before after : list string) (name : string) :
  ∀ (db : Db N) (allMemories : list Retrieved),
    Forall (λ bucket, is_Some (buckets db !! bucket)) before →
    buckets db !! name = None →
    ∃ gathered db1,
      gatherLoop now before allMemories db = (Ok gathered, db1)
      ∧ gatherLoop now (before ++ name :: after) allMemories db
        = (Err (bucketNotFound name), db1).
Proof.
  induction before as [|b before IH]; intros db acc Hbefore Hname.
  - exists acc, db. split; [done |]. cbn [app gatherLoop]. unfold bind.
    by rewrite getMemoriesFromBucket_unknown.
  - apply Forall_cons in Hbefore as [[bucket Hbucket] Hbefore].
    destruct (getMemoriesFromBucket_run now b None 50 default_minScore db bucket Hbucket)
      as (db1 & Hrun & Hb & _).
    destruct (IH db1 (acc ++ returned None (pulled (bucket_id bucket) default_minScore 50 db))%list)
      as (gathered & db2 & Hloop & Hfail).
    { by rewrite Hb. }
    { by rewrite Hb. }
    exists gathered, db2. cbn [app gatherLoop]. unfold bind. rewrite Hrun. done.
Qed.
End ReflectionRun.

(** X21.  When the scope of a request names a bucket that is not stored,
    [generateReflection] returns the degraded result, whatever the
    analysis and the recommendations are: the gather phase throws at that
    name.  No reflection is saved and no link or bucket changes; the
    store is the one that the retrievals from the buckets before that name
    left. *)
Theorem generateReflection_unknown_bucket {N : Type} `{JsNumber N}
    (analyze : list (Retrieved (N := N)) → ReflectionDepth → list string → M N (list string))
    (recommend : list string → list (Retrieved (N := N)) → M N (list string))
    (Date_now : nat → Z) (now : Z) (request : ReflectionRequest) (conductor : string)
    (db : Db N) (before after : list string) (name : string) :
  memoryScope request = (before ++ name :: after)%list →
  Forall (λ bucket, is_Some (buckets db !! bucket)) before →
  buckets db !! name = None →
  ∃ gathered db1,
    gatherLoop now before [] db = (Ok gathered, db1)
    ∧ generateReflection Date_now analyze recommend now request conductor db
      = (Ok degradedResult, db1)
    ∧ reflections db1 = reflections db ∧ links db1 = links db
    ∧ buckets db1 = buckets db.
Proof.
  intros Hscope Hbefore Hname.
  destruct (gatherLoop_unknown now before after name db [] Hbefore Hname)
    as (gathered & db1 & Hloop & Hfail).
  exists gathered, db1. split; [done |].
  pose proof (gatherLoop_tables now before db []) as Htables.
  rewrite Hloop in Htables. cbn in Htables. destruct Htables as (Hb & Hl & Hr).
  split; [| done].
  unfold generateReflection, generateReflectionWith, try_catch, reflectionPipeline.
  unfold bind at 1. unfold gatherMemoriesForReflection, bind at 1.
  by rewrite Hscope, Hfail.
Qed.

Lemma generateReflection_unknown_bucket_witness :
  ∃ db1,
    generateReflection (λ _, 5) (λ _ _ _, ret []) (λ _ _, ret []) 5
      {| triggerType := "manual"; memoryScope := ["semantic_stm"; "attic"];
         reflectionDepth := shallow; focusAreas := [] |}
      "conductor" (scenario_db (N := float))
    = (Ok degradedResult, db1)
    ∧ reflections db1 = [].
Proof.
  destruct (generateReflection_unknown_bucket (λ _ _ _, ret []) (λ _ _, ret [])
              (λ _, 5) 5
              {| triggerType := "manual"; memoryScope := ["semantic_stm"; "attic"];
                 reflectionDepth := shallow; focusAreas := [] |}
              "conductor" (scenario_db (N := float)) ["semantic_stm"] [] "attic")
    as (gathered & db1 & _ & Hrun & Hr & _).
  - reflexivity.
  - constructor; [| constructor]. eexists. vm_compute. reflexivity.
  - vm_compute. reflexivity.
  - exists db1. split; [exact Hrun | exact Hr].
Defined.

(** X22.  When every bucket of the scope is stored, [generateReflection]
    returns the result of its five phases, not the degraded one: with
    [memories] the at most 100 gathered memories, the insights are those
    of [analyzeMemories] (at most 15), the new connections the first 10
    candidates of the discovery, the recommendations those of
    [generateRecommendations] (at most 3), and the confidence that of
    [calculateConfidenceScore].  After the retrievals of the gather phase
    the only change of the store is one reflection for each of the first
    20 memories: the discovered connections are returned, not stored. *)
Theorem generateReflection_returns_analysis {N : Type} `{JsNumber N}
    (identifyPatterns : list (Retrieved (N := N)) → list string)
    (analyzeTopicClusters : list (Retrieved (N := N)) → list string → list string)
    (performMetacognitiveAnalysis : list (Retrieved (N := N)) → list string)
    (Date_now : nat → Z) (now : Z) (request : ReflectionRequest) (conductor : string)
    (db : Db N) :
  let analyze :=
    analyzeMemories identifyPatterns analyzeTopicClusters performMetacognitiveAnalysis
      now in
  Forall (λ bucket, is_Some (buckets db !! bucket)) (memoryScope request) →
  ∃ memories db1 result db',
    gatherMemoriesForReflection Date_now now (memoryScope request) db
    = (Ok memories, db1)
    ∧ generateReflection Date_now analyze generateRecommendations now request
        conductor db
      = (Ok result, db')
    ∧ analyze memories (reflectionDepth request) (focusAreas request) db1
      = (Ok (insights result), db1)
    ∧ newConnections result = take 10 (candidates now memories db1)
    ∧ generateRecommendations (insights result) memories db1
      = (Ok (recommendations result), db1)
    ∧ confidenceScore result = calculateConfidenceScore memories (insights result)
    ∧ (length memories ≤ 100)%nat
    ∧ (length (insights result) ≤ 15)%nat
    ∧ (length (newConnections result) ≤ 10)%nat
    ∧ (length (recommendations result) ≤ 3)%nat
    ∧ buckets db' = buckets db ∧ chunks db' = chunks db1 ∧ links db' = links db
    ∧ reflections db'
      = (reflections db
         ++ (reflectionOf (insights result) conductor <$> take 20 memories))%list.
Proof.
  intros analyze Hscope.
  destruct (gatherLoop_run now (memoryScope request) db [] Hscope)
    as (pulls & db1 & Hloop & _).
  pose proof (gatherLoop_tables now (memoryScope request) db []) as Htables.
  rewrite Hloop in Htables. cbn in Htables. destruct Htables as (Hb & Hl & Hr).
  set (memories := take 100 (Array_sort_clocked (gatherCompareAt Date_now)
                               (concat pulls))).
  assert (Hgather : gatherMemoriesForReflection Date_now now (memoryScope request) db
                    = (Ok memories, db1)).
  { unfold gatherMemoriesForReflection, bind. by rewrite Hloop. }
  set (found := take (insightLimit (reflectionDepth request))
                     (analysed identifyPatterns analyzeTopicClusters
                        performMetacognitiveAnalysis now memories
                        (reflectionDepth request) (focusAreas request))).
  assert (Hfound : analyze memories (reflectionDepth request) (focusAreas request) db1
                   = (Ok found, db1)) by apply analyzeMemories_run.
  assert (Hlen : (length found ≤ 15)%nat).
  { unfold found. rewrite length_take. etrans; [apply Nat.le_min_l |].
    destruct (reflectionDepth request); cbn; lia. }
  pose proof (generateRecommendations_run found memories db1) as Hrecs.
  pose proof (recommended_length memories) as Hthree.
  pose proof (saveReflections_run memories found conductor db1) as Hsave.
  eexists memories, db1,
    {| insights := found; newConnections := take 10 (candidates now memories db1);
       recommendations := recommended memories;
       confidenceScore := calculateConfidenceScore memories found |}, _.
  cbn [insights newConnections recommendations confidenceScore].
  split; [done |]. split.
  { unfold generateReflection, generateReflectionWith, try_catch, reflectionPipeline.
    unfold bind at 1. rewrite Hgather. unfold bind at 1. rewrite Hfound.
    unfold bind at 1. rewrite discoverMemoryConnections_run.
    unfold bind at 1. rewrite Hrecs. unfold bind. rewrite Hsave. reflexivity. }
  cbn [buckets chunks links reflections].
  split; [done |]. split; [done |]. split; [done |]. split; [done |].
  split; [unfold memories; rewrite length_take; lia |]. split; [done |].
  split; [rewrite length_take; lia |]. split; [done |].
  split; [done |]. split; [done |]. split; [done |]. by rewrite Hr.
Qed.

Lemma generateReflection_returns_analysis_witness :
  ∃ result db',
    generateReflection (λ _, hours 1)
      (analyzeMemories (λ _, []) (λ _ _, []) (λ _, []) (hours 1))
      generateRecommendations (hours 1)
      {| triggerType := "manual"; memoryScope := ["semantic_stm"];
         reflectionDepth := deep; focusAreas := [] |}
      "conductor" (scenario_db (N := float))
    = (Ok result, db')
    ∧ (length (insights result) ≤ 15)%nat
    ∧ (length (recommendations result) ≤ 3)%nat.
Proof.
  destruct (generateReflection_returns_analysis (λ _, []) (λ _ _, []) (λ _, [])
              (λ _, hours 1) (hours 1)
              {| triggerType := "manual"; memoryScope := ["semantic_stm"];
                 reflectionDepth := deep; focusAreas := [] |}
              "conductor" (scenario_db (N := float)))
    as (memories & db1 & result & db' & _ & Hrun & _ & _ & _ & _ & _ & Hi & _ & Hr & _).
  - constructor; [| constructor]. eexists. vm_compute. reflexivity.
  - exists result, db'. exact (conj Hrun (conj Hi Hr)).
Defined.

(** ** The hash of a text *)

Lemma toInt32_range (z : Z) : - 2 ^ 31 ≤ toInt32 z < 2 ^ 31.
Proof. unfold toInt32. pose proof (Z.mod_pos_bound (z + 2 ^ 31) (2 ^ 32)). lia. Qed.

Lemma toInt32_congruent (a b : Z) :
  (a - b) mod 2 ^ 32 = 0 → toInt32 a = toInt32 b.
Proof.
  intros Hmod. unfold toInt32. f_equal.
  apply Z.mod_divide in Hmod; [| lia]. destruct Hmod as [k Hk].
  replace (a + 2 ^ 31) with (b + 2 ^ 31 + k * 2 ^ 32) by lia.
  apply Z_mod_plus_full.
Qed.

Lemma toInt32_minus (z : Z) : (toInt32 z - z) mod 2 ^ 32 = 0.
Proof.
  unfold toInt32. rewrite (Z.mod_eq (z + 2 ^ 31) (2 ^ 32)) by lia.
  replace (z + 2 ^ 31 - 2 ^ 32 * ((z + 2 ^ 31) / 2 ^ 32) - 2 ^ 31 - z)
    with ((- ((z + 2 ^ 31) / 2 ^ 32)) * 2 ^ 32) by lia.
  apply Z_mod_mult.
Qed.

Lemma toInt32_small (z : Z) : - 2 ^ 31 ≤ z < 2 ^ 31 → toInt32 z = z.
Proof. intros Hz. unfold toInt32. rewrite Z.mod_small; lia. Qed.

(** One step of the loop is a step of the polynomial in 31, modulo
    [2 ^ 32]. *)
Lemma hashStep_poly (hash char : Z) : hashStep hash char = toInt32 (31 * hash + char).
Proof.
  unfold hashStep. cbn zeta. rewrite Z.land_diag.
  apply toInt32_congruent. rewrite Z.shiftl_mul_pow2 by lia.
  pose proof (toInt32_minus (toInt32 hash * 2 ^ 5)) as H1.
  pose proof (toInt32_minus hash) as H2.
  apply Z.mod_divide in H1, H2; try lia. destruct H1 as [k1 Hk1], H2 as [k2 Hk2].
  apply Z.mod_divide; [lia |]. exists (k1 + 32 * k2). lia.
Qed.

Lemma hashStep_congruent (h h' char : Z) :
  (h - h') mod 2 ^ 32 = 0 → hashStep h char = hashStep h' char.
Proof.
  intros Hmod. rewrite !hashStep_poly. apply toInt32_congruent.
  apply Z.mod_divide in Hmod; [| lia]. destruct Hmod as [k Hk].
  apply Z.mod_divide; [lia |]. exists (31 * k). lia.
Qed.

(** The polynomial [c0 * 31^(n-1) + c1 * 31^(n-2) + ... + c(n-1)]. *)
Definition polynomial31 (codes : list Z) : Z := foldl (λ h c, 31 * h + c) 0 codes.

Lemma foldl_hashStep (codes : list Z) :
  foldl hashStep 0 codes = toInt32 (polynomial31 codes).
Proof.
  unfold polynomial31. induction codes as [|c codes IH] using rev_ind; [done |].
  rewrite !foldl_snoc, IH, hashStep_poly. apply toInt32_congruent.
  pose proof (toInt32_minus (foldl (λ h c0, 31 * h + c0) 0 codes)) as Hm.
  apply Z.mod_divide in Hm; [| lia]. destruct Hm as [k Hk].
  apply Z.mod_divide; [lia |]. exists (31 * k). lia.
Qed.

(** X23.  [simpleHash] is the polynomial hash in base 31 of the character
    codes, reduced to a signed 32-bit integer: it is congruent modulo
    [2 ^ 32] to [c0 * 31^(n-1) + ... + c(n-1)] and lies in
    [-2^31, 2^31 - 1].  Appending a character [c] to a text with hash [h]
    gives the hash [ToInt32 (31 * h + c)]; the hash of the empty text
    is 0. *)
Theorem simpleHash_polynomial (str : string) :
  simpleHash str = toInt32 (polynomial31 (charCodes str))
  ∧ - 2 ^ 31 ≤ simpleHash str < 2 ^ 31
  ∧ (simpleHash str - polynomial31 (charCodes str)) mod 2 ^ 32 = 0
  ∧ (∀ c, simpleHash (str ++ String c EmptyString)
          = toInt32 (31 * simpleHash str + Z.of_nat (nat_of_ascii c)))
  ∧ simpleHash "" = 0.
Proof.
  unfold simpleHash. rewrite foldl_hashStep.
  split; [done |]. split; [apply toInt32_range |]. split; [apply toInt32_minus |].
  split; [| done]. intros c.
  assert (Hcodes : charCodes (str ++ String c EmptyString)
                   = (charCodes str ++ [Z.of_nat (nat_of_ascii c)])%list).
  { unfold charCodes. induction str as [|c' str IH]; [done |].
    change (String c' str +:+ String c "") with (String c' (str +:+ String c "")).
    cbn [list_ascii_of_string fmap list_fmap app]. by rewrite IH. }
  rewrite Hcodes, foldl_snoc, foldl_hashStep. apply hashStep_poly.
Qed.

(** ** Normalised vectors *)

Section NormalizeReal.
Local Open Scope R_scope.

Lemma foldl_sumsq (v : list R) :
  ∀ acc, foldl (λ sum val, (sum + val * val)%js) acc v = acc + sumsq v.
Proof.
  unfold sumsq. induction v as [|x v IH]; intros acc; cbn [foldl dot]; [lra |].
  rewrite IH. cbn [nadd nmul real_number]. lra.
Qed.

Lemma normalizeVector_real (v : list R) :
  normalizeVector v
  = if decide (sumsq v = 0) then v else (λ x, x / sqrt (sumsq v)) <$> v.
Proof.
  unfold normalizeVector. cbn zeta. rewrite foldl_sumsq.
  cbn [numZ Math_sqrt ndiv real_number]. rewrite Rplus_0_l.
  unfold ngtb. cbn [nltb real_number].
  pose proof (sumsq_nonneg v) as Hpos.
  case_decide as Hz.
  - rewrite Hz, sqrt_0. rewrite bool_decide_eq_false_2; [done | lra].
  - rewrite bool_decide_eq_true_2; [done |]. apply sqrt_lt_R0. lra.
Qed.

Lemma dot_scale (a b : list R) (s t : R) :
  dot ((λ x, x / s) <$> a) ((λ x, x / t) <$> b) = dot a b / (s * t).
Proof.
  revert b. induction a as [|x a IH]; intros [|y b]; cbn [fmap list_fmap dot];
    try (unfold Rdiv; lra).
  rewrite IH.
  destruct (Req_dec s 0) as [-> | Hs].
  { unfold Rdiv. rewrite !Rmult_0_l, Rinv_0. lra. }
  destruct (Req_dec t 0) as [-> | Ht].
  { unfold Rdiv. rewrite !Rmult_0_r, Rinv_0. lra. }
  field. done.
Qed.

Lemma sumsq_normalizeVector (v : list R) :
  sumsq v ≠ 0 → sumsq (normalizeVector v) = 1.
Proof.
  intros Hv. rewrite normalizeVector_real, decide_False by done.
  unfold sumsq at 1. rewrite dot_scale. fold (sumsq v).
  pose proof (sumsq_nonneg v). rewrite sqrt_sqrt by lra. field. done.
Qed.

Lemma length_normalizeVector {N : Type} `{JsNumber N} (v : list N) :
  length (normalizeVector v) = length v.
Proof.
  unfold normalizeVector. cbn zeta.
  destruct (_ >? _)%js; [by rewrite length_fmap | done].
Qed.
End NormalizeReal.

(** X24.  [normalizeVector] keeps the length of a vector (every number
    implementation).  Over the reals it returns a vector of zeros as it
    is, without dividing; it divides every other vector by its Euclidean
    norm, and the result has norm 1; normalising twice is normalising
    once. *)
Theorem normalizeVector_unit_length :
  (∀ {N : Type} `{JsNumber N} (vector : list N),
     length (normalizeVector vector) = length vector)
  ∧ ∀ vector : list R,
      (sumsq vector = 0%R → normalizeVector vector = vector)
      ∧ (sumsq vector ≠ 0%R →
         normalizeVector vector = (λ x, x / sqrt (sumsq vector))%R <$> vector
         ∧ sumsq (normalizeVector vector) = 1%R)
      ∧ normalizeVector (normalizeVector vector) = normalizeVector vector.
Proof.
  split; [intros N HN vector; apply length_normalizeVector |].
  intros vector. split; [| split].
  - intros Hz. by rewrite normalizeVector_real, decide_True.
  - intros Hnz. split; [| by apply sumsq_normalizeVector].
    by rewrite normalizeVector_real, decide_False.
  - destruct (decide (sumsq vector = 0%R)) as [Hz | Hnz].
    + rewrite (normalizeVector_real vector), decide_True by done.
      by rewrite normalizeVector_real, decide_True.
    + pose proof (sumsq_normalizeVector vector Hnz) as Hone.
      rewrite (normalizeVector_real (normalizeVector vector)), Hone.
      rewrite decide_False by lra. rewrite sqrt_1. clear Hone.
      induction (normalizeVector vector) as [|x v IH]; [done |].
      cbn [fmap list_fmap]. cbn [fmap] in IH. rewrite IH. f_equal. lra.
Qed.

(** X25.  Over the reals, the cosine similarity of [MemoryService] does
    not see the normalisation of [LLMService]:
    the similarity of two normalised vectors is the similarity of the
    vectors.  For two vectors of one length that are not zero it is the
    dot product of the normalised vectors, and a vector that is not zero
    has similarity 1 with itself. *)
Theorem calculateCosineSimilarity_normalized (vec1 vec2 : list R) :
  calculateCosineSimilarity (normalizeVector vec1) (normalizeVector vec2)
  = calculateCosineSimilarity vec1 vec2
  ∧ (sumsq vec1 ≠ 0%R → sumsq vec2 ≠ 0%R → length vec1 = length vec2 →
     calculateCosineSimilarity vec1 vec2
     = dot (normalizeVector vec1) (normalizeVector vec2))
  ∧ (sumsq vec1 ≠ 0%R → calculateCosineSimilarity vec1 vec1 = 1%R).
Proof.
  assert (Hdot : sumsq vec1 ≠ 0%R → sumsq vec2 ≠ 0%R →
                 dot (normalizeVector vec1) (normalizeVector vec2)
                 = (dot vec1 vec2 / (sqrt (sumsq vec1) * sqrt (sumsq vec2)))%R).
  { intros H1 H2. rewrite !normalizeVector_real, !decide_False by done.
    apply dot_scale. }
  split; [| split].
  - rewrite !calculateCosineSimilarity_real, !length_normalizeVector.
    destruct (decide (sumsq vec1 = 0%R)) as [H1 | H1].
    { rewrite (normalizeVector_real vec1), (decide_True (P := sumsq vec1 = 0%R)) by done.
      rewrite !decide_False by tauto. done. }
    destruct (decide (sumsq vec2 = 0%R)) as [H2 | H2].
    { rewrite (normalizeVector_real vec2), (decide_True (P := sumsq vec2 = 0%R)) by done.
      rewrite !decide_False by tauto. done. }
    rewrite !sumsq_normalizeVector by done. rewrite sqrt_1.
    destruct (decide (length vec1 = length vec2)) as [Hlen | Hlen].
    + rewrite !decide_True by (repeat split; first [done | lra]).
      rewrite Hdot by done. lra.
    + rewrite !decide_False by tauto. done.
  - intros H1 H2 Hlen. rewrite calculateCosineSimilarity_real, decide_True by done.
    by rewrite Hdot.
  - intros H1. rewrite calculateCosineSimilarity_real, decide_True by done.
    fold (sumsq vec1). pose proof (sumsq_nonneg vec1).
    rewrite sqrt_sqrt by lra. field. done.
Qed.

(** ** The embedding of a text *)

Section EmbeddingReal.
Local Open Scope R_scope.

(** Over the reals, with the sine and the cosine, the first two components
    of the vector before normalisation are not both 0. *)
Lemma embedding_not_zero (hash : Z) :
  sumsq (embeddingComponent sin cos hash <$> seq 0 384) ≠ 0.
Proof.
  change (seq 0 384) with (0 :: 1 :: seq 2 382)%nat.
  cbn [fmap list_fmap]. unfold sumsq. cbn [dot].
  fold (sumsq (embeddingComponent sin cos hash <$> seq 2 382)).
  pose proof (sumsq_nonneg (embeddingComponent sin cos hash <$> seq 2 382)) as Hrest.
  set (rest := sumsq (embeddingComponent sin cos hash <$> seq 2 382)) in *.
  unfold embeddingComponent, lit. cbn [numZ nadd nmul ndiv real_number].
  change (Z.of_nat 0) with 0%Z. change (Z.of_nat 1) with 1%Z.
  rewrite Rmult_0_r, Rplus_0_r, Rmult_1_r, cos_0, sin_plus.
  set (s := sin (IZR hash)). set (c := cos (IZR hash)).
  pose proof (sin2_cos2 (IZR hash)) as Hsc. unfold Rsqr in Hsc. fold s c in Hsc.
  assert (Hcos1 : 0 < cos 1).
  { apply cos_gt_0; pose proof PI2_1; lra. }
  set (c1 := cos 1) in *. set (s1 := sin 1).
  set (a := s * (5 / 10) + 1 * (5 / 10)).
  set (b := (s * c1 + c * s1) * (5 / 10) + c * (5 / 10)).
  intros Hzero.
  pose proof (Rle_0_sqr a) as Ha. pose proof (Rle_0_sqr b) as Hb. unfold Rsqr in Ha, Hb.
  assert (H0 : a = 0) by (apply Rsqr_0_uniq; unfold Rsqr; lra).
  assert (H1 : b = 0) by (apply Rsqr_0_uniq; unfold Rsqr; lra).
  unfold a in H0. unfold b in H1.
  assert (Hs : s = -1) by lra.
  assert (Hc : c = 0) by nra.
  rewrite Hs, Hc in H1. lra.
Qed.
End EmbeddingReal.

(** X26.  [generateEmbedding] returns 384 components for every text (every
    number implementation, any sine and cosine).  Over the reals, with
    the sine and the cosine, the vector before normalisation is never
    zero, so the embedding has norm 1: the similarity that
    [calculateCosineSimilarity] gives two embeddings is their dot
    product, every embedding has similarity 1 with itself, and so have
    the embeddings of two texts with the same [simpleHash]. *)
Theorem generateEmbedding_unit_vector :
  (∀ {N : Type} `{JsNumber N} (Math_sin Math_cos : N → N) (text : string),
     length (generateEmbedding Math_sin Math_cos text) = 384%nat)
  ∧ (∀ text : string,
       sumsq (generateEmbedding sin cos text) = 1%R
       ∧ calculateCosineSimilarity (generateEmbedding sin cos text)
                                   (generateEmbedding sin cos text) = 1%R)
  ∧ ∀ text1 text2 : string,
      calculateCosineSimilarity (generateEmbedding sin cos text1)
                                (generateEmbedding sin cos text2)
      = dot (generateEmbedding sin cos text1) (generateEmbedding sin cos text2)
      ∧ (simpleHash text1 = simpleHash text2 →
         calculateCosineSimilarity (generateEmbedding sin cos text1)
                                   (generateEmbedding sin cos text2) = 1%R).
Proof.
  assert (Hlen : ∀ {N : Type} `{JsNumber N} (Math_sin Math_cos : N → N) (text : string),
            length (generateEmbedding Math_sin Math_cos text) = 384%nat).
  { intros N HN Math_sin Math_cos text. unfold generateEmbedding. cbn zeta.
    by rewrite length_normalizeVector, length_fmap, length_seq. }
  assert (Hunit : ∀ text, sumsq (generateEmbedding sin cos text) = 1%R).
  { intros text. unfold generateEmbedding. cbn zeta.
    apply sumsq_normalizeVector, embedding_not_zero. }
  assert (Hcos : ∀ text1 text2,
            calculateCosineSimilarity (generateEmbedding sin cos text1)
                                      (generateEmbedding sin cos text2)
            = dot (generateEmbedding sin cos text1) (generateEmbedding sin cos text2)).
  { intros text1 text2. rewrite calculateCosineSimilarity_real, !Hunit, !Hlen.
    rewrite decide_True by (repeat split; first [done | lra]).
    rewrite sqrt_1. lra. }
  split; [exact @Hlen |]. split.
  - intros text. split; [apply Hunit |]. rewrite Hcos. apply Hunit.
  - intros text1 text2. split; [apply Hcos |]. intros Hhash. rewrite Hcos.
    unfold generateEmbedding at 1. cbn zeta. rewrite Hhash.
    apply Hunit.
Qed.

(** Two texts with the same hash. *)
Example simpleHash_collision : simpleHash "Aa" = simpleHash "BB" ∧ "Aa" ≠ "BB".
Proof. split; [reflexivity | discriminate]. Qed.

(** ** Rotation of the keys *)

(** The keys that are healthy, in the order of the pool. *)
Definition healthyKeys (keys : list APIKeyHealth) : list string :=
  key <$> filter (λ k, isHealthy k) keys.

(** What a call never changes of a key: its name, health, error count and
    last error. *)
Definition health (k : APIKeyHealth) : string * bool * nat * option string :=
  (key k, isHealthy k, errorCount k, lastError k).

(** Successive calls, at the given times. *)
Fixpoint getNextKeys (times : list Z) (keys : list APIKeyHealth) (index : nat)
  : list (result string) * (list APIKeyHealth * nat) :=
  match times with
  | [] => ([], (keys, index))
  | now :: times' =>
      let '(r, (keys', index')) := getNextKey now keys index in
      let '(rs, final) := getNextKeys times' keys' index' in
      (r :: rs, final)
  end.

Lemma useHealthy_health (n : nat) (now : Z) (keys : list APIKeyHealth) :
  health <$> useHealthy n now keys = health <$> keys.
Proof.
  revert n. induction keys as [|k keys IH]; intros n; [done |].
  cbn [useHealthy]. destruct (isHealthy k) eqn:Hk.
  - destruct n as [|n]; [done |]. cbn [fmap list_fmap]. cbn [fmap] in IH. by rewrite IH.
  - cbn [fmap list_fmap]. cbn [fmap] in IH. by rewrite IH.
Qed.

Lemma healthyKeys_health (keys keys' : list APIKeyHealth) :
  health <$> keys' = health <$> keys → healthyKeys keys' = healthyKeys keys.
Proof.
  unfold healthyKeys. revert keys'.
  induction keys as [|k keys IH]; intros [|k' keys'] Heq; try done.
  rewrite !fmap_cons in Heq. injection Heq as Hname Hhealthy _ _ Hrest.
  rewrite !filter_cons, Hhealthy. cbn [fmap] in IH.
  destruct (decide (isHealthy k)); cbn [fmap list_fmap];
    rewrite (IH keys' Hrest); by rewrite ?Hname.
Qed.

Lemma getNextKey_healthy (now : Z) (keys : list APIKeyHealth) (index : nat) :
  (0 < length (healthyKeys keys))%nat →
  ∃ name keys',
    getNextKey now keys index
    = (Ok name, (keys', ((index + 1) mod length (healthyKeys keys))%nat))
    ∧ healthyKeys keys !! (index mod length (healthyKeys keys))%nat = Some name
    ∧ health <$> keys' = health <$> keys.
Proof.
  unfold healthyKeys. rewrite length_fmap. intros Hpos. unfold getNextKey. cbn zeta.
  destruct (Nat.eqb_spec (length (filter (λ k, isHealthy k) keys)) 0) as [Hz | _]; [lia |].
  pose proof (Nat.mod_upper_bound index (length (filter (λ k, isHealthy k) keys))) as Hlt.
  destruct (lookup_lt_is_Some_2 (filter (λ k, isHealthy k) keys)
              (index mod length (filter (λ k, isHealthy k) keys))%nat) as [k Hk]; [lia |].
  rewrite Hk. eexists _, _. split; [reflexivity |]. split.
  - by rewrite list_lookup_fmap, Hk.
  - apply useHealthy_health.
Qed.

Lemma getNextKey_reset (now : Z) (keys : list APIKeyHealth) (index : nat) :
  healthyKeys keys = [] →
  getNextKey now keys index
  = (match keys with
     | k :: _ => Ok (key k)
     | [] => Err (Failure "TypeError: Cannot read properties of undefined")
     end, (resetKey <$> keys, index)).
Proof.
  unfold healthyKeys. intros Hnone. apply fmap_nil_inv in Hnone.
  unfold getNextKey. cbn zeta. rewrite Hnone. cbn [length Nat.eqb].
  by destruct keys.
Qed.

Lemma getNextKeys_lookup (times : list Z) :
  ∀ (keys : list APIKeyHealth) (index : nat),
    (0 < length (healthyKeys keys))%nat →
    let run := getNextKeys times keys index in
    (∀ n, (n < length times)%nat →
          run.1 !! n
          = Ok <$> healthyKeys keys !! ((index + n) mod length (healthyKeys keys))%nat)
    ∧ length run.1 = length times
    ∧ health <$> run.2.1 = health <$> keys
    ∧ run.2.2 = (if times is [] then index
                 else (index + length times) mod length (healthyKeys keys))%nat.
Proof.
  induction times as [|now times IH]; intros keys index Hpos.
  - cbn. split; [intros n Hn; lia | done].
  - cbn [getNextKeys].
    destruct (getNextKey_healthy now keys index Hpos) as (name & keys1 & Hcall & Hname & Hh).
    rewrite Hcall.
    pose proof (healthyKeys_health keys keys1 Hh) as Hsame.
    destruct (IH keys1 ((index + 1) mod length (healthyKeys keys))%nat)
      as (Hlook & Hlen & Hhealth & Hindex); [by rewrite Hsame |].
    destruct (getNextKeys times keys1 _) as [rs [keys2 index2]].
    cbn [fst snd length] in *. rewrite Hsame in *.
    set (h := length (healthyKeys keys)) in *.
    split; [| split; [by rewrite Hlen | split; [congruence |]]].
    + intros [|n] Hn.
      * cbn. by rewrite Nat.add_0_r, Hname.
      * change ((Ok name :: rs) !! S n) with (rs !! n). rewrite (Hlook n) by lia.
        rewrite Nat.Div0.add_mod_idemp_l.
        by replace (index + 1 + n)%nat with (index + S n)%nat by lia.
    + rewrite Hindex. destruct times as [|t times']; cbn [length]; [done |].
      rewrite Nat.Div0.add_mod_idemp_l. f_equal. lia.
Qed.

Lemma rotate_nat_add_mod (n i len : nat) :
  (0 < len)%nat → rotate_nat_add n i len = ((n + i) mod len)%nat.
Proof.
  intros Hlen. unfold rotate_nat_add.
  rewrite Z2Nat.inj_mod, Z2Nat.inj_add, !Nat2Z.id; lia.
Qed.

Lemma rotate_perm {A : Type} (n : nat) (l : list A) : rotate n l ≡ₚ l.
Proof.
  unfold rotate. rewrite Permutation_app_comm. by rewrite take_drop.
Qed.

(** X29.  While a pool has a healthy key, successive
    calls of [getNextMemoryKey] (or [getNextSubroutineKey]) never fail and
    hand out the healthy keys in turn: the call number [n] returns the
    healthy key at position [(index + n) mod h] of the [h] healthy ones.  The
    calls change of the keys only [lastUsed], and after [n >= 1] calls the
    counter is [(index + n) mod h].  As many calls as there are healthy
    keys return every healthy key exactly once and leave the counter at
    [index mod h]: the counter of before when that was below [h], and not
    when it was [h] or more (a counter left from a time when more keys were
    healthy). *)
Theorem getNextKey_round_robin (times : list Z) (keys : list APIKeyHealth) (index : nat) :
  (0 < length (healthyKeys keys))%nat →
  let run := getNextKeys times keys index in
  (∀ n, (n < length times)%nat →
        run.1 !! n
        = Ok <$> healthyKeys keys !! ((index + n) mod length (healthyKeys keys))%nat)
  ∧ health <$> run.2.1 = health <$> keys
  ∧ run.2.2 = (if times is [] then index
               else (index + length times) mod length (healthyKeys keys))%nat
  ∧ (length times = length (healthyKeys keys) →
     run.1 = Ok <$> rotate index (healthyKeys keys)
     ∧ run.1 ≡ₚ Ok <$> healthyKeys keys
     ∧ run.2.2 = (index mod length (healthyKeys keys))%nat
     ∧ ((index < length (healthyKeys keys))%nat → run.2.2 = index)
     ∧ ((length (healthyKeys keys) ≤ index)%nat → run.2.2 ≠ index)).
Proof.
  intros Hpos run.
  destruct (getNextKeys_lookup times keys index Hpos) as (Hlook & Hlen & Hhealth & Hindex).
  fold run in Hlook, Hlen, Hhealth, Hindex.
  split; [exact Hlook |]. split; [exact Hhealth |]. split; [exact Hindex |].
  intros Hcycle.
  assert (Hrot : run.1 = Ok <$> rotate index (healthyKeys keys)).
  { apply list_eq. intros n. destruct (decide (n < length times)%nat) as [Hn | Hn].
    - rewrite (Hlook n Hn), list_lookup_fmap, lookup_rotate_r by lia.
      by rewrite rotate_nat_add_mod.
    - rewrite !lookup_ge_None_2; [done | |].
      + rewrite length_fmap, length_rotate. lia.
      + lia. }
  split; [exact Hrot |]. split.
  - rewrite Hrot. by rewrite rotate_perm.
  - assert (Hback : run.2.2 = (index mod length (healthyKeys keys))%nat).
    { rewrite Hindex. destruct times as [|t times]; [cbn in Hcycle; lia |].
      rewrite Hcycle. rewrite <- (Nat.mul_1_l (length (healthyKeys keys))) at 1.
      by rewrite Nat.Div0.mod_add. }
    split; [exact Hback |]. rewrite Hback. split.
    + intros Hlt. by apply Nat.mod_small.
    + intros Hge. pose proof (Nat.mod_upper_bound index (length (healthyKeys keys))). lia.
Qed.

Lemma getNextKey_round_robin_witness :
  (getNextKeys [10; 20; 30] (newKey <$> ["key-a"; "key-b"; "key-c"]) 1).1
  = [Ok "key-b"; Ok "key-c"; Ok "key-a"].
Proof.
  destruct (getNextKey_round_robin [10; 20; 30] (newKey <$> ["key-a"; "key-b"; "key-c"]) 1)
    as (_ & _ & _ & Hcycle); [vm_compute; lia |].
  destruct Hcycle as (Hrot & _); [reflexivity |].
  rewrite Hrot. reflexivity.
Defined.

(** A counter left from a time of more healthy keys: with two healthy keys
    and the counter at 7, two calls return both keys, "key-b" first, and
    leave the counter at 1. *)
Example getNextKey_stale_counter :
  (getNextKeys [10; 20] (newKey <$> ["key-a"; "key-b"]) 7).1 = [Ok "key-b"; Ok "key-a"]
  ∧ (getNextKeys [10; 20] (newKey <$> ["key-a"; "key-b"]) 7).2.2 = 1%nat.
Proof. split; vm_compute; reflexivity. Qed.

(** ** Keys that fail *)

(** The key [apiKey] of a pool after an error, the other keys as they
    are. *)
Definition markIn (apiKey error : string) (k : APIKeyHealth) : APIKeyHealth :=
  if decide (key k = apiKey) then markedKey error k else k.

Lemma markIn_key apiKey error k : key (markIn apiKey error k) = key k.
Proof. unfold markIn. by case_decide. Qed.

Lemma markFound_fmap (apiKey error : string) (keys : list APIKeyHealth) :
  NoDup (key <$> keys) →
  markFound apiKey error keys = markIn apiKey error <$> keys.
Proof.
  induction keys as [|k keys IH]; intros Hnd; [done |].
  rewrite fmap_cons in Hnd. apply NoDup_cons in Hnd as [Hk Hnd].
  cbn [markFound fmap list_fmap]. unfold markIn at 1.
  destruct (String.eqb_spec (key k) apiKey) as [Heq | Hne].
  - rewrite decide_True by done. f_equal.
    assert (Hrest : ∀ l : list APIKeyHealth,
              apiKey ∉ key <$> l → markIn apiKey error <$> l = l).
    { clear. induction l as [|k l IH]; intros Hl; [done |].
      rewrite fmap_cons in Hl. apply not_elem_of_cons in Hl as [Hne Hl].
      cbn [fmap list_fmap]. cbn [fmap] in IH. rewrite IH by done.
      unfold markIn. by rewrite decide_False. }
    cbn [fmap] in Hrest. rewrite Hrest; [done |]. by rewrite <- Heq.
  - rewrite decide_False by done. f_equal. cbn [fmap] in IH. by apply IH.
Qed.

Lemma markIn_names apiKey error (keys : list APIKeyHealth) :
  key <$> (markIn apiKey error <$> keys) = key <$> keys.
Proof.
  rewrite <- list_fmap_compose. apply list_fmap_ext. intros i k _. apply markIn_key.
Qed.

Lemma elem_of_healthyKeys (keys : list APIKeyHealth) (name : string) :
  name ∈ healthyKeys keys ↔ ∃ k, k ∈ keys ∧ isHealthy k = true ∧ key k = name.
Proof.
  unfold healthyKeys. rewrite list_elem_of_fmap. split.
  - intros (k & -> & Hk). apply list_elem_of_filter in Hk as [Hh Hk].
    exists k. split; [done |]. split; [by apply Is_true_true | done].
  - intros (k & Hk & Hh & <-). exists k. split; [done |].
    apply list_elem_of_filter. split; [by apply Is_true_true | done].
Qed.

(** X30.  In a pool of keys with distinct
    names, three calls of [markKeyUnhealthy] for one key leave that key
    unhealthy, with at least three errors and the last error message, and
    every other key and the rotation counter as they were.  While another
    key of the pool is healthy, [getNextMemoryKey] then never returns the
    failed key; when no key is healthy any more, it resets every key to
    healthy with no errors and returns the first key of the pool (a
    TypeError on an empty pool), the failed one included. *)
Theorem markKeyUnhealthy_retires_key (s : LLMKeys) (apiKey : string)
    (error1 error2 error3 : string) (now : Z) :
  NoDup (key <$> memoryKeys s) →
  let s' := markKeyUnhealthy apiKey error3
              (markKeyUnhealthy apiKey error2 (markKeyUnhealthy apiKey error1 s)) in
  memoryKeys s'
  = (λ k, markIn apiKey error3 (markIn apiKey error2 (markIn apiKey error1 k)))
    <$> memoryKeys s
  ∧ memoryKeyIndex s' = memoryKeyIndex s
  ∧ (∀ k, k ∈ memoryKeys s' → key k = apiKey →
          isHealthy k = false ∧ (3 ≤ errorCount k)%nat ∧ lastError k = Some error3)
  ∧ (∀ k, key k ≠ apiKey → k ∈ memoryKeys s' ↔ k ∈ memoryKeys s)
  ∧ (∀ name s'',
       (∃ k, k ∈ memoryKeys s ∧ isHealthy k = true ∧ key k ≠ apiKey) →
       getNextMemoryKey now s' = (Ok name, s'') →
       name ≠ apiKey ∧ name ∈ healthyKeys (memoryKeys s))
  ∧ (healthyKeys (memoryKeys s') = [] →
     ∃ s'', getNextMemoryKey now s' = (match memoryKeys s with
                                       | k :: _ => Ok (key k)
                                       | [] => Err (Failure "TypeError: Cannot read properties of undefined")
                                       end, s'')
            ∧ memoryKeyIndex s'' = memoryKeyIndex s
            ∧ ∀ k, k ∈ memoryKeys s'' → isHealthy k = true ∧ errorCount k = 0%nat).
Proof.
  intros Hnd s'.
  assert (Hkeys : memoryKeys s'
            = (λ k, markIn apiKey error3 (markIn apiKey error2 (markIn apiKey error1 k)))
              <$> memoryKeys s).
  { unfold s', markKeyUnhealthy. cbn [memoryKeys].
    rewrite (markFound_fmap apiKey error1) by done.
    rewrite (markFound_fmap apiKey error2) by (by rewrite markIn_names).
    rewrite (markFound_fmap apiKey error3) by (by rewrite !markIn_names).
    by rewrite <- !list_fmap_compose. }
  assert (Hmarked : ∀ k, k ∈ memoryKeys s' → key k = apiKey →
            isHealthy k = false ∧ (3 ≤ errorCount k)%nat ∧ lastError k = Some error3).
  { intros k Hk Hname. rewrite Hkeys in Hk.
    apply list_elem_of_fmap in Hk as (k0 & -> & _).
    rewrite !markIn_key in Hname.
    assert (Hm : ∀ e k1, key k1 = apiKey → markIn apiKey e k1 = markedKey e k1).
    { intros e k1 Hk1. unfold markIn. by rewrite decide_True. }
    rewrite (Hm error1 k0), (Hm error2), (Hm error3) by done.
    cbn. split; [done |]. split; [lia | done]. }
  assert (Hother : ∀ k, key k ≠ apiKey → k ∈ memoryKeys s' ↔ k ∈ memoryKeys s).
  { assert (Hu : ∀ e k1, key k1 ≠ apiKey → markIn apiKey e k1 = k1).
    { intros e k1 Hk1. unfold markIn. by rewrite decide_False. }
    intros k Hne. rewrite Hkeys, list_elem_of_fmap. split.
    - intros (k0 & -> & Hk0). rewrite !markIn_key in Hne.
      by rewrite (Hu error1), (Hu error2), (Hu error3).
    - intros Hk. exists k. split; [| done].
      by rewrite (Hu error1), (Hu error2), (Hu error3). }
  split; [exact Hkeys |]. split; [done |]. split; [exact Hmarked |].
  split; [exact Hother |]. split.
  - intros name s'' (k & Hk & Hh & Hne) Hcall.
    assert (Hpos : (0 < length (healthyKeys (memoryKeys s')))%nat).
    { assert (Hin : key k ∈ healthyKeys (memoryKeys s')).
      { apply elem_of_healthyKeys. exists k. split; [by apply Hother | done]. }
      destruct (healthyKeys (memoryKeys s')); [by apply elem_of_nil in Hin | cbn; lia]. }
    destruct (getNextKey_healthy now (memoryKeys s') (memoryKeyIndex s') Hpos)
      as (name' & keys' & Hnext & Hname & _).
    unfold getNextMemoryKey in Hcall. rewrite Hnext in Hcall.
    injection Hcall as <- _.
    apply list_elem_of_lookup_2, elem_of_healthyKeys in Hname as (k' & Hk' & Hh' & <-).
    assert (Hne' : key k' ≠ apiKey).
    { intros Heq. destruct (Hmarked k' Hk' Heq) as [Hfalse _]. congruence. }
    split; [done |]. apply elem_of_healthyKeys. exists k'.
    split; [by apply Hother | done].
  - intros Hnone.
    assert (Hfirst : match memoryKeys s' with
                     | k :: _ => Ok (key k)
                     | [] => Err (Failure "TypeError: Cannot read properties of undefined")
                     end
                     = match memoryKeys s with
                       | k :: _ => Ok (key k)
                       | [] => Err (Failure "TypeError: Cannot read properties of undefined")
                       end).
    { rewrite Hkeys. destruct (memoryKeys s) as [|k0 rest]; [reflexivity |].
      cbn [fmap list_fmap]. by rewrite !markIn_key. }
    unfold getNextMemoryKey. rewrite (getNextKey_reset now _ _ Hnone), Hfirst.
    eexists. split; [reflexivity |].
    cbn [memoryKeyIndex memoryKeys]. split; [done |].
    intros k Hk. by apply list_elem_of_fmap in Hk as (k0 & -> & _).
Qed.

Lemma markKeyUnhealthy_retires_key_witness :
  ∃ name s'',
    getNextMemoryKey 7
      (markKeyUnhealthy "key-a" "HTTP 500"
         (markKeyUnhealthy "key-a" "HTTP 500"
            (markKeyUnhealthy "key-a" "HTTP 429" (newKeys ["key-a"; "key-b"] []))))
    = (Ok name, s'')
    ∧ name ≠ "key-a".
Proof.
  destruct (markKeyUnhealthy_retires_key (newKeys ["key-a"; "key-b"] []) "key-a"
              "HTTP 429" "HTTP 500" "HTTP 500" 7) as (_ & _ & _ & _ & Hskip & _).
  - cbn. repeat constructor; set_solver.
  - eexists _, _. split; [vm_compute; reflexivity |].
    eapply Hskip; [| vm_compute; reflexivity].
    exists (newKey "key-b"). split; [cbn; set_solver |]. split; [done | done].
Defined.
